(** * pysift: a shallow embedding of [sift/pysift.py]

    The Python module computes SIFT keypoints and descriptors.  This file
    embeds the parts of it that the specification makes claims about and
    proves (or refutes) those claims.

    Conventions of the embedding.

    - Python [int] is [Z].  Python and NumPy floating-point numbers are
      idealised: values that the code only adds, subtracts, multiplies,
      divides and compares are rationals ([Q]); the two places that need
      a logarithm or a square root ([computeNumberOfOctaves] and the
      descriptor normalisation) are stated over the reals ([R]).  Rounding
      is modelled where a statement depends on it: the float32 field
      [angle] of a keypoint ([float32]) and the floor of the contrast
      threshold ([floor_is_stable]).  Elsewhere rounding error, NaN and
      infinities are outside the model; a division by zero is made
      explicit with [option] or [ZeroDivisionError].
    - [array(..., dtype=object)] over nested lists of images is an
      [object_array]: an array of images, or an array of pixels where
      all images have one shape.
    - A Python exception is a value of [exn]; a computation that can raise
      has type [result A].
    - [cv2.KeyPoint] objects are mutable and shared by reference.  They
      live in a [heap] and lists hold references ([ref]) to them.
    - External collaborators (Gaussian blur, resize, least squares, the
      transcendental functions) are section variables. *)

From Stdlib Require Import String ZArith QArith Qabs Qround Qpower Reals Lia Lra Lqa Bool List.
From Stdlib Require Import Sorted Permutation.
Import ListNotations.

Local Open Scope Z_scope.

(* ================================================================== *)
(** * Python values, exceptions and sequences *)
(* ================================================================== *)

Inductive exn : Type :=
| NameError (name : string)
| UnboundLocalError (name : string)
| IndexError
| ValueError
| TypeError
| AttributeError (name : string)
| ZeroDivisionError
| LinAlgError
| CvError
| NonFinite.

(** [NonFinite] is not a Python exception: it marks a division by zero
    between floats, after which NumPy goes on with an infinity or a NaN
    and the model, which has finite numbers only, stops. *)

Inductive result (A : Type) : Type :=
| Ok (a : A)
| Raise (e : exn).

Arguments Ok {A} a.
Arguments Raise {A} e.

Definition bind {A B : Type} (c : result A) (k : A -> result B) : result B :=
  match c with
  | Ok a => k a
  | Raise e => Raise e
  end.

Declare Scope py_scope.
Delimit Scope py_scope with py.
Notation "x <- c ;; k" := (bind c (fun x => k))
  (at level 61, c at next level, right associativity) : py_scope.
Notation "' p <- c ;; k" := (bind c (fun x => match x with p => k end))
  (at level 61, p pattern, c at next level, right associativity) : py_scope.

(* ================================================================== *)
(** * Keypoints *)
(* ================================================================== *)

(** [cv2.KeyPoint]: the fields the module reads and writes. *)
Record KeyPoint : Type := mkKeyPoint {
  pt : Q * Q;
  size : Q;
  angle : Q;
  response : Q;
  octave : Z;
  class_id : Z
}.

(** [KeyPoint()] with no arguments, as OpenCV initialises it. *)
Definition KeyPoint_default : KeyPoint :=
  mkKeyPoint (0%Q, 0%Q) 0%Q (-1)%Q 0%Q 0 (-1).

(** Object identity and the store of keypoint objects. *)
Definition ref : Type := nat.
Definition heap : Type := ref -> KeyPoint.

Definition heap_set (h : heap) (r : ref) (k : KeyPoint) : heap :=
  fun r' => if Nat.eqb r' r then k else h r'.

Module Convert.

(** Body of the loop of [convertKeypointsToInputImageSize]: the three
    assignments to the fields of one keypoint object. *)
Definition convert_one (k : KeyPoint) : KeyPoint :=
  let k1 := mkKeyPoint (0.5 * fst (pt k), 0.5 * snd (pt k))%Q
                       (size k) (angle k) (response k) (octave k) (class_id k) in
  let k2 := mkKeyPoint (pt k1) (size k1 * 0.5)%Q
                       (angle k1) (response k1) (octave k1) (class_id k1) in
  mkKeyPoint (pt k2) (size k2) (angle k2) (response k2)
             (Z.lor (Z.land (octave k2) (Z.lnot 255))
                    (Z.land (octave k2 - 1) 255))
             (class_id k2).

(** The loop: every reference of the list is visited in order, the object
    it points to is updated in place and the reference is appended to
    [converted_keypoints]. *)
Fixpoint convert_loop (h : heap) (keypoints converted_keypoints : list ref)
  : heap * list ref :=
  match keypoints with
  | [] => (h, converted_keypoints)
  | keypoint :: rest =>
      convert_loop (heap_set h keypoint (convert_one (h keypoint))) rest
                   (converted_keypoints ++ [keypoint])
  end.

Definition convertKeypointsToInputImageSize (h : heap) (keypoints : list ref)
  : heap * list ref :=
  convert_loop h keypoints [].

End Convert.

(* ================================================================== *)
(** * Comparisons on idealised floats *)
(* ================================================================== *)

(** Python [a < b], [a != b] on numbers. *)
Definition Qltb (a b : Q) : bool := negb (Qle_bool b a).
Definition Qneb (a b : Q) : bool := negb (Qeq_bool a b).

(* ================================================================== *)
(** * Duplicate keypoint removal *)
(* ================================================================== *)

Module Dedup.

(** [compareKeypoints]: a signed number, the first field that differs
    decides.  Integer differences are returned as numbers too. *)
Definition compareKeypoints (keypoint1 keypoint2 : KeyPoint) : Q :=
  if Qneb (fst (pt keypoint1)) (fst (pt keypoint2)) then
    (fst (pt keypoint1) - fst (pt keypoint2))%Q
  else if Qneb (snd (pt keypoint1)) (snd (pt keypoint2)) then
    (snd (pt keypoint1) - snd (pt keypoint2))%Q
  else if Qneb (size keypoint1) (size keypoint2) then
    (size keypoint2 - size keypoint1)%Q
  else if Qneb (angle keypoint1) (angle keypoint2) then
    (angle keypoint1 - angle keypoint2)%Q
  else if Qneb (response keypoint1) (response keypoint2) then
    (response keypoint2 - response keypoint1)%Q
  else if negb (octave keypoint1 =? octave keypoint2) then
    inject_Z (octave keypoint2 - octave keypoint1)
  else
    inject_Z (class_id keypoint2 - class_id keypoint1).

(** [functools.cmp_to_key]: the key objects are ordered by
    [mycmp(a, b) < 0]; [list.sort] uses nothing but this [<]. *)
Definition cmp_to_key_lt {A : Type} (mycmp : A -> A -> Q) (a b : A) : bool :=
  Qltb (mycmp a b) 0.

(** [list.sort] is a stable sort.  For an order in which incomparable
    elements are interchangeable every stable sort returns the same list;
    the model is stable insertion: an element is placed after the
    elements that are smaller and before the first one that is not. *)
Fixpoint insert {A : Type} (lt : A -> A -> bool) (x : A) (l : list A) : list A :=
  match l with
  | [] => [x]
  | y :: l' => if lt y x then y :: insert lt x l' else x :: y :: l'
  end.

Definition list_sort {A : Type} (lt : A -> A -> bool) (l : list A) : list A :=
  fold_right (insert lt) [] l.

(** [not_after lt a b]: [b] is not smaller than [a], the relation
    between an element of a sorted list and every later one. *)
Definition not_after {A : Type} (lt : A -> A -> bool) (a b : A) : Prop :=
  lt b a = false.

(** The keypoints of a list are compared through the heap. *)
Definition keypoint_lt (h : heap) (a b : ref) : bool :=
  cmp_to_key_lt compareKeypoints (h a) (h b).

(** The test of the walk: [last_unique_keypoint] and [next_keypoint]
    differ in [pt[0]], [pt[1]], [size] or [angle]. *)
Definition differs (last_unique_keypoint next_keypoint : KeyPoint) : bool :=
  Qneb (fst (pt last_unique_keypoint)) (fst (pt next_keypoint))
  || Qneb (snd (pt last_unique_keypoint)) (snd (pt next_keypoint))
  || Qneb (size last_unique_keypoint) (size next_keypoint)
  || Qneb (angle last_unique_keypoint) (angle next_keypoint).

(** Two keypoint objects that pass this test one after the other. *)
Definition neighbours_differ (h : heap) (a b : ref) : Prop :=
  differs (h a) (h b) = true.

(** [for next_keypoint in keypoints[1:]], with [unique_keypoints[-1]]
    read at each step and [append] at the end of the list. *)
Fixpoint unique_loop (h : heap) (unique_keypoints rest : list ref) : list ref :=
  match rest with
  | [] => unique_keypoints
  | next_keypoint :: rest' =>
      let last_unique_keypoint := last unique_keypoints next_keypoint in
      if differs (h last_unique_keypoint) (h next_keypoint)
      then unique_loop h (unique_keypoints ++ [next_keypoint]) rest'
      else unique_loop h unique_keypoints rest'
  end.

Definition removeDuplicateKeypoints (h : heap) (keypoints : list ref) : list ref :=
  if (Z.of_nat (length keypoints) <? 2) then keypoints
  else
    match list_sort (keypoint_lt h) keypoints with
    | [] => []
    | first :: rest => unique_loop h [first] rest
    end.

(** The order the specification names: the tuple of fields in priority
    order, the descending ones negated, compared lexicographically. *)
Definition sort_key (k : KeyPoint) : list Q :=
  [ fst (pt k); snd (pt k); (- size k)%Q; angle k; (- response k)%Q;
    (- inject_Z (octave k))%Q; (- inject_Z (class_id k))%Q ].

Fixpoint lex_compare (u v : list Q) : comparison :=
  match u, v with
  | x :: u', y :: v' =>
      match (x ?= y)%Q with
      | Eq => lex_compare u' v'
      | c => c
      end
  | [], [] => Eq
  | [], _ :: _ => Lt
  | _ :: _, [] => Gt
  end.

Definition key_le (k1 k2 : KeyPoint) : Prop :=
  lex_compare (sort_key k1) (sort_key k2) <> Gt.

End Dedup.

(* ================================================================== *)
(** * Arrays and slices *)
(* ================================================================== *)

(** A two-dimensional NumPy array is the list of its rows; a
    three-dimensional one the list of its planes. *)
Definition array2 : Type := list (list Q).
Definition array3 : Type := list array2.

Definition shape2 (a : array2) : Z * Z :=
  (Z.of_nat (length a), Z.of_nat (length (hd [] a))).

(** [a] is a [rows] x [cols] array. *)
Definition has_shape (a : array2) (rows cols : Z) : Prop :=
  Z.of_nat (length a) = rows
  /\ Forall (fun row => Z.of_nat (length row) = cols) a.

(** [l[start:stop]] with Python's treatment of negative and oversized
    bounds. *)
Definition py_slice {A : Type} (l : list A) (start stop : Z) : list A :=
  let n := Z.of_nat (length l) in
  let clip k := if k <? 0 then Z.max 0 (k + n) else Z.min k n in
  let s := clip start in
  let e := clip stop in
  firstn (Z.to_nat (e - s)) (skipn (Z.to_nat s) l).

(** [a[r0:r1, c0:c1]]. *)
Definition slice2 (a : array2) (r0 r1 c0 c1 : Z) : array2 :=
  map (fun row => py_slice row c0 c1) (py_slice a r0 r1).

(** [l[k]] for a literal index [k >= 0]. *)
Definition index1 {A : Type} (l : list A) (k : nat) : result A :=
  match nth_error l k with
  | Some v => Ok v
  | None => Raise IndexError
  end.

(** [a[i, j]] and [a[s, i, j]] for literal indices. *)
Definition index2 (a : array2) (i j : nat) : result Q :=
  (row <- index1 a i ;; index1 row j)%py.

Definition index3 (a : array3) (s i j : nat) : result Q :=
  (plane <- index1 a s ;; index2 plane i j)%py.

(** Reading a pixel of an image at a position known to be inside it. *)
Definition px (img : array2) (i j : Z) : Q :=
  nth (Z.to_nat j) (nth (Z.to_nat i) img []) 0%Q.

(** The 3x3 window [img[i-1:i+2, j-1:j+2]] the detector cuts out. *)
Definition window3 (img : array2) (i j : Z) : array2 :=
  slice2 img (i - 1) (i + 2) (j - 1) (j + 2).

(* ================================================================== *)
(** * Extremum detection *)
(* ================================================================== *)

(** [x] is far inside the range of doubles and its floor does not
    depend on an error of [2 ** -50] relative to [|x| + 1], which is
    more than the rounding of three double operations: a double
    computation of [x] has the floor of [x] itself. *)
Definition floor_is_stable (x : Q) : Prop :=
  (Qabs x <= inject_Z (2 ^ 1000))%Q
  /\ Qfloor (x - (Qabs x + 1) / inject_Z (2 ^ 50))
     = Qfloor (x + (Qabs x + 1) / inject_Z (2 ^ 50)).

Module Extrema.

(** [all(center >= sub)] and [all(center <= sub)]: the comparison is
    broadcast over the array and [all] takes the conjunction. *)
Definition all_ge (center : Q) (sub : array2) : bool :=
  forallb (forallb (fun v => Qle_bool v center)) sub.

Definition all_le (center : Q) (sub : array2) : bool :=
  forallb (forallb (fun v => Qle_bool center v)) sub.

Definition isPixelAnExtremum
    (first_subimage second_subimage third_subimage : array2) (threshold : Q)
  : result bool :=
  (center_pixel_value <- index2 second_subimage 1 1 ;;
   if Qltb threshold (Qabs center_pixel_value) then
     if Qltb 0 center_pixel_value then
       Ok (all_ge center_pixel_value first_subimage
           && all_ge center_pixel_value third_subimage
           && all_ge center_pixel_value second_subimage)
     else if Qltb center_pixel_value 0 then
       Ok (all_le center_pixel_value first_subimage
           && all_le center_pixel_value third_subimage
           && all_le center_pixel_value second_subimage)
     else Ok false
   else Ok false)%py.

(** [threshold] of [findScaleSpaceExtrema]:
    [floor(0.5 * contrast_threshold / num_intervals * 255)]; the
    division by a [num_intervals] of zero raises.  The product is
    taken in exact arithmetic, which gives the floor of the source's
    double product wherever [floor_is_stable] holds of it. *)
Definition extremum_threshold (contrast_threshold : Q) (num_intervals : Z)
  : result Q :=
  if num_intervals =? 0 then Raise ZeroDivisionError
  else
    Ok (inject_Z
          (Qfloor (0.5 * contrast_threshold / inject_Z num_intervals * 255))).

(** The detector's test at pixel [(i, j)] of the middle image of a
    triplet. *)
Definition detect (first_image second_image third_image : array2)
    (i j : Z) (threshold : Q) : result bool :=
  isPixelAnExtremum (window3 first_image i j) (window3 second_image i j)
                    (window3 third_image i j) threshold.

(** The 26 neighbours of pixel [(i, j)] of the middle image: nine in the
    image below, nine in the image above and eight around it. *)
Definition offsets9 : list (Z * Z) :=
  [(-1, -1); (-1, 0); (-1, 1); (0, -1); (0, 0); (0, 1); (1, -1); (1, 0); (1, 1)].

Definition offsets8 : list (Z * Z) :=
  [(-1, -1); (-1, 0); (-1, 1); (0, -1); (0, 1); (1, -1); (1, 0); (1, 1)].

Definition neighbours26 (first_image second_image third_image : array2)
    (i j : Z) : list Q :=
  map (fun d => px first_image (i + fst d) (j + snd d)) offsets9
  ++ map (fun d => px third_image (i + fst d) (j + snd d)) offsets9
  ++ map (fun d => px second_image (i + fst d) (j + snd d)) offsets8.

End Extrema.

(* ================================================================== *)
(** * Names of the module *)
(* ================================================================== *)

(** What a global name can be bound to: a number whose value the code
    uses, a function or class, a module with the attributes it exports,
    or some other object. *)
Inductive pyobj : Type :=
| PyFloat (v : Q)
| PyCallable
| PyModule (attrs : list string)
| PyOther.

Definition namespace : Type := list (string * pyobj).

Fixpoint lookup (ns : namespace) (name : string) : option pyobj :=
  match ns with
  | [] => None
  | (n, o) :: ns' => if String.eqb n name then Some o else lookup ns' name
  end.

(** The builtins the module calls. *)
Definition builtins : namespace :=
  map (fun n => (n, PyCallable))
      [ "abs"; "int"; "max"; "min"; "range"; "enumerate"; "zip"; "len";
        "tuple"; "float" ]%string.

(** The global names of [pysift.py] once it is imported: the names of
    its three [from ... import] statements, [cmp_to_key], [logging],
    [logger], [float_tolerance] and its seventeen functions. *)
Definition pysift_globals : namespace :=
  map (fun n => (n, PyCallable))
      [ "all"; "any"; "array"; "arctan2"; "cos"; "sin"; "exp"; "dot"; "log";
        "logical_and"; "roll"; "sqrt"; "stack"; "trace"; "unravel_index";
        "deg2rad"; "rad2deg"; "where"; "zeros"; "floor"; "full"; "isnan";
        "round"; "float32";
        "det"; "lstsq"; "norm";
        "resize"; "GaussianBlur"; "subtract"; "KeyPoint";
        "cmp_to_key" ]%string
  ++ [ ("pi", PyOther); ("nan", PyOther);
       ("INTER_LINEAR", PyOther); ("INTER_NEAREST", PyOther);
       ("logging", PyModule ["getLogger"; "debug"]%string);
       ("logger", PyOther);
       ("float_tolerance", PyFloat (1 # 10000000)) ]%string
  ++ map (fun n => (n, PyCallable))
      [ "computeKeypointsAndDescriptors"; "generateBaseImage";
        "computeNumberOfOctaves"; "generateGaussianKernels";
        "generateGaussianImages"; "generateDoGImages";
        "findScaleSpaceExtrema"; "isPixelAnExtremum";
        "localizeExtremumViaQuadraticFit"; "computeGradientAtCenterPixel";
        "computeHessianAtCenterPixel"; "computeKeypointsWithOrientations";
        "compareKeypoints"; "removeDuplicateKeypoints";
        "convertKeypointsToInputImageSize"; "unpackOctave";
        "generateDescriptors" ]%string.

(** Reading a name that no local scope binds: the module's globals,
    then the builtins, then [NameError]. *)
Definition load_global (G : namespace) (name : string) : result pyobj :=
  match lookup G name with
  | Some o => Ok o
  | None =>
      match lookup builtins name with
      | Some o => Ok o
      | None => Raise (NameError name)
      end
  end.

(** A global read where a number is needed. *)
Definition load_number (G : namespace) (name : string) : result Q :=
  (o <- load_global G name ;;
   match o with
   | PyFloat v => Ok v
   | _ => Raise TypeError
   end)%py.

(** [obj.attr] where a function is expected. *)
Definition getattr (o : pyobj) (attr : string) : result unit :=
  match o with
  | PyModule attrs =>
      if existsb (String.eqb attr) attrs then Ok tt
      else Raise (AttributeError attr)
  | _ => Raise (AttributeError attr)
  end.

(* ================================================================== *)
(** * Rounding *)
(* ================================================================== *)

(** [int(round(x))] with NumPy's [round]: to the nearest integer, a tie
    to the even one. *)
Definition np_round (x : Q) : Z :=
  let f := Qfloor x in
  let r := (x - inject_Z f)%Q in
  if Qltb r (1 # 2) then f
  else if Qltb (1 # 2) r then f + 1
  else if Z.even f then f else f + 1.

(* ================================================================== *)
(** * Gradient and Hessian at the centre of a cube *)
(* ================================================================== *)

Module Derivatives.

Definition computeGradientAtCenterPixel (pixel_array : array3)
  : result (list Q) :=
  (p112 <- index3 pixel_array 1 1 2 ;;
   p110 <- index3 pixel_array 1 1 0 ;;
   let dx := (0.5 * (p112 - p110))%Q in
   p121 <- index3 pixel_array 1 2 1 ;;
   p101 <- index3 pixel_array 1 0 1 ;;
   let dy := (0.5 * (p121 - p101))%Q in
   p211 <- index3 pixel_array 2 1 1 ;;
   p011 <- index3 pixel_array 0 1 1 ;;
   let ds := (0.5 * (p211 - p011))%Q in
   Ok [dx; dy; ds])%py.

(** The line that would bind [center_pixel_value] is a comment in the
    source, so the three uses of the name are global reads. *)
Definition computeHessianAtCenterPixel (G : namespace) (pixel_array : array3)
  : result (list (list Q)) :=
  (p112 <- index3 pixel_array 1 1 2 ;;
   p110 <- index3 pixel_array 1 1 0 ;;
   center_pixel_value <- load_number G "center_pixel_value" ;;
   let dxx := (p112 + p110 - 2 * center_pixel_value)%Q in
   p121 <- index3 pixel_array 1 2 1 ;;
   p101 <- index3 pixel_array 1 0 1 ;;
   center_pixel_value <- load_number G "center_pixel_value" ;;
   let dyy := (p121 + p101 - 2 * center_pixel_value)%Q in
   p211 <- index3 pixel_array 2 1 1 ;;
   p011 <- index3 pixel_array 0 1 1 ;;
   center_pixel_value <- load_number G "center_pixel_value" ;;
   let dss := (p211 + p011 - 2 * center_pixel_value)%Q in
   p122 <- index3 pixel_array 1 2 2 ;;
   p120 <- index3 pixel_array 1 2 0 ;;
   p102 <- index3 pixel_array 1 0 2 ;;
   p100 <- index3 pixel_array 1 0 0 ;;
   let dxy := (0.25 * (p122 - p120 - p102 + p100))%Q in
   p212 <- index3 pixel_array 2 1 2 ;;
   p210 <- index3 pixel_array 2 1 0 ;;
   p012 <- index3 pixel_array 0 1 2 ;;
   p010 <- index3 pixel_array 0 1 0 ;;
   let dxs := (0.25 * (p212 - p210 - p012 + p010))%Q in
   p221 <- index3 pixel_array 2 2 1 ;;
   p201 <- index3 pixel_array 2 0 1 ;;
   p021 <- index3 pixel_array 0 2 1 ;;
   p001 <- index3 pixel_array 0 0 1 ;;
   let dys := (0.25 * (p221 - p201 - p021 + p001))%Q in
   Ok [ [dxx; dxy; dxs];
        [dxy; dyy; dys];
        [dxs; dys; dss] ])%py.

(** The 3x3x3 cube of a function of (scale, row, column) offsets. *)
Definition cube_of (f : nat -> nat -> nat -> Q) : array3 :=
  map (fun s => map (fun y => map (fun x => f s y x) [0; 1; 2]%nat)
                    [0; 1; 2]%nat)
      [0; 1; 2]%nat.

(** [at3 f s y x]: the sample at scale [s], row [y], column [x]. *)
Definition at3 (f : nat -> nat -> nat -> Q) (s y x : nat) : Q := f s y x.

(** The central-difference Hessian the specification describes, for a
    function sampled at (scale, row, column) with the centre at (1,1,1):
    second differences on the diagonal, quarter sums of the four corner
    values off it. *)
Definition central_difference_hessian (f : nat -> nat -> nat -> Q)
  : list (list Q) :=
  let dxx := (at3 f 1 1 2 + at3 f 1 1 0 - 2 * at3 f 1 1 1)%Q in
  let dyy := (at3 f 1 2 1 + at3 f 1 0 1 - 2 * at3 f 1 1 1)%Q in
  let dss := (at3 f 2 1 1 + at3 f 0 1 1 - 2 * at3 f 1 1 1)%Q in
  let dxy := (0.25 * (at3 f 1 2 2 - at3 f 1 2 0 - at3 f 1 0 2 + at3 f 1 0 0))%Q in
  let dxs := (0.25 * (at3 f 2 1 2 - at3 f 2 1 0 - at3 f 0 1 2 + at3 f 0 1 0))%Q in
  let dys := (0.25 * (at3 f 2 2 1 - at3 f 2 0 1 - at3 f 0 2 1 + at3 f 0 0 1))%Q in
  [ [dxx; dxy; dxs]; [dxy; dyy; dys]; [dxs; dys; dss] ].

Definition central_difference_gradient (f : nat -> nat -> nat -> Q)
  : list Q :=
  [ (0.5 * (at3 f 1 1 2 - at3 f 1 1 0))%Q;
    (0.5 * (at3 f 1 2 1 - at3 f 1 0 1))%Q;
    (0.5 * (at3 f 2 1 1 - at3 f 0 1 1))%Q ].

End Derivatives.

(* ================================================================== *)
(** * Number of octaves *)
(* ================================================================== *)

Module Octaves.

(** NumPy's [round] on a real number: the nearest integer, a tie to the
    even one. *)
Definition np_round_R (x : R) : Z :=
  let f := Zfloor x in
  let r := (x - IZR f)%R in
  if Rlt_dec r (1 / 2) then f
  else if Rlt_dec (1 / 2) r then f + 1
  else if Z.even f then f else f + 1.

(** [int(round(log(min(image_shape)) / log(2) - 1))]. *)
Definition computeNumberOfOctaves (image_shape : Z * Z) : Z :=
  np_round_R
    (ln (IZR (Z.min (fst image_shape) (snd image_shape))) / ln 2 - 1)%R.

(** The same number without logarithms: [n] with
    [2^(2n+1) <= m^2 < 2^(2n+3)] for the shorter side [m]. *)
Definition octaves_of_side (m : Z) : Z := (Z.log2 (m * m) - 1) / 2.

(** The shape of the base image: [resize] with [fx = fy = 2] doubles
    both sides of the input. *)
Definition base_shape (input_shape : Z * Z) : Z * Z :=
  (2 * fst input_shape, 2 * snd input_shape).

(** The shape of the next octave:
    [(int(shape[1] / 2), int(shape[0] / 2))] is the size handed to
    [resize], which takes the width first. *)
Definition halve_shape (shape : Z * Z) : Z * Z :=
  (fst shape / 2, snd shape / 2).

(** The shape of the images of octave [octave_index]. *)
Fixpoint octave_shape (shape : Z * Z) (octave_index : nat) : Z * Z :=
  match octave_index with
  | O => shape
  | S k => octave_shape (halve_shape shape) k
  end.

Definition shorter_side (shape : Z * Z) : Z := Z.min (fst shape) (snd shape).

(** The octave count the specification states, for an image of the
    given height and width: [floor(log2(min(height, width)) - 1)]. *)
Definition stated_octave_count (height width : Z) : Z :=
  Zfloor (ln (IZR (Z.min height width)) / ln 2 - 1)%R.

End Octaves.

(* ================================================================== *)
(** * Localization by quadratic fit *)
(* ================================================================== *)

(** [range(n)]. *)
Definition py_range (n : Z) : list Z :=
  map Z.of_nat (seq 0 (Z.to_nat n)).

(** [range(lo, hi)]. *)
Definition py_range2 (lo hi : Z) : list Z :=
  map (fun k => lo + Z.of_nat k) (seq 0 (Z.to_nat (hi - lo))).

(** [a, b, c = l]. *)
Definition unpack3 {A : Type} (l : list A) : result (A * A * A) :=
  match l with
  | [a; b; c] => Ok (a, b, c)
  | _ => Raise ValueError
  end.

(** [stack([a, b, c])]: the three arrays must have one shape. *)
Definition same_shape (a b : array2) : bool :=
  if list_eq_dec Nat.eq_dec (map (@length Q) a) (map (@length Q) b)
  then true else false.

Definition stack3 (a b c : array2) : result array3 :=
  if same_shape a b && same_shape a c then Ok [a; b; c]
  else Raise ValueError.

(** [dot(u, v)] of two vectors. *)
Definition dot (u v : list Q) : result Q :=
  if Nat.eqb (length u) (length v)
  then Ok (fold_right Qplus 0%Q (map (fun p => (fst p * snd p)%Q) (combine u v)))
  else Raise ValueError.

(** [trace] and [det] of the 2x2 block [hessian[:2, :2]]. *)
Definition trace2 (m : list (list Q)) : result Q :=
  match m with
  | [[a; _]; [_; d]] => Ok (a + d)%Q
  | _ => Raise LinAlgError
  end.

Definition det2 (m : list (list Q)) : result Q :=
  match m with
  | [[a; b]; [c; d]] => Ok (a * d - b * c)%Q
  | _ => Raise LinAlgError
  end.

Section Localize.

(** [numpy.linalg.lstsq(a, b, rcond=None)[0]] and [2 ** x] for a float
    exponent: collaborators of the module. *)
Variable lstsq : list (list Q) -> list Q -> result (list Q).
Variable exp2 : Q -> Q.

(** The local variables that are live when the loop is left. *)
Record fit : Type := mkFit {
  fit_i : Z;
  fit_j : Z;
  fit_image_index : Z;
  fit_pixel_cube : array3;
  fit_gradient : list Q;
  fit_hessian : list (list Q);
  fit_extremum_update : list Q;
  fit_attempt_index : Z
}.

(** How the [for] loop is left: by the [break] of convergence, by the
    [break] of an extremum that moved outside, by running out of
    attempts, or without having run at all. *)
Inductive loop_exit : Type :=
| Converged (f : fit)
| MovedOutside
| Exhausted (f : fit)
| NotEntered.

Fixpoint attempts (G : namespace) (dog_images_in_octave : list array2)
    (image_shape : Z * Z) (num_intervals image_border_width : Z)
    (attempt_indices : list Z) (i j image_index : Z) (last : option fit)
  : result loop_exit :=
  match attempt_indices with
  | [] => Ok (match last with Some f => Exhausted f | None => NotEntered end)
  | attempt_index :: rest =>
      ('(first_image, second_image, third_image) <-
          unpack3 (py_slice dog_images_in_octave (image_index - 1) (image_index + 2)) ;;
       stacked <- stack3 (window3 first_image i j) (window3 second_image i j)
                         (window3 third_image i j) ;;
       let pixel_cube := map (map (map (fun v => (v / 255)%Q))) stacked in
       gradient <- Derivatives.computeGradientAtCenterPixel pixel_cube ;;
       hessian <- Derivatives.computeHessianAtCenterPixel G pixel_cube ;;
       solution <- lstsq hessian gradient ;;
       let extremum_update := map Qopp solution in
       np <- load_global G "np" ;;
       _ <- getattr np "all" ;;
       if forallb (fun u => Qltb (Qabs u) 0.5) extremum_update then
         Ok (Converged (mkFit i j image_index pixel_cube gradient hessian
                              extremum_update attempt_index))
       else
         u0 <- index1 extremum_update 0 ;;
         let j := j + np_round u0 in
         u1 <- index1 extremum_update 1 ;;
         let i := i + np_round u1 in
         u2 <- index1 extremum_update 2 ;;
         let image_index := image_index + np_round u2 in
         if (i <? image_border_width)
            || (i >=? fst image_shape - image_border_width)
            || (j <? image_border_width)
            || (j >=? snd image_shape - image_border_width)
            || (image_index <? 1)
            || (image_index >? num_intervals)
         then Ok MovedOutside
         else attempts G dog_images_in_octave image_shape num_intervals
                       image_border_width rest i j image_index
                       (Some (mkFit i j image_index pixel_cube gradient hessian
                                    extremum_update attempt_index)))%py
  end.

(** The part after the loop, for a loop left with its variables bound. *)
Definition keypoint_of_fit (f : fit) (octave_index num_intervals : Z)
    (sigma contrast_threshold eigenvalue_ratio : Q)
  : result (option (KeyPoint * Z)) :=
  (centre <- index3 (fit_pixel_cube f) 1 1 1 ;;
   d <- dot (fit_gradient f) (fit_extremum_update f) ;;
   let functionValueAtUpdatedExtremum := (centre + 0.5 * d)%Q in
   if num_intervals =? 0 then Raise ZeroDivisionError else
   if Qle_bool (contrast_threshold / inject_Z num_intervals)
               (Qabs functionValueAtUpdatedExtremum) then
     let xy_hessian := slice2 (fit_hessian f) 0 2 0 2 in
     xy_hessian_trace <- trace2 xy_hessian ;;
     xy_hessian_det <- det2 xy_hessian ;;
     if Qltb 0 xy_hessian_det
        && Qltb (eigenvalue_ratio * xy_hessian_trace ^ 2)
                ((eigenvalue_ratio + 1) ^ 2 * xy_hessian_det) then
       u0 <- index1 (fit_extremum_update f) 0 ;;
       u1 <- index1 (fit_extremum_update f) 1 ;;
       u2 <- index1 (fit_extremum_update f) 2 ;;
       let keypoint :=
         mkKeyPoint
           ((inject_Z (fit_j f) + u0) * inject_Z (2 ^ octave_index),
            (inject_Z (fit_i f) + u1) * inject_Z (2 ^ octave_index))%Q
           (sigma
            * exp2 ((inject_Z (fit_image_index f) + u2) / inject_Z num_intervals)
            * inject_Z (2 ^ (octave_index + 1)))%Q
           (angle KeyPoint_default)
           (Qabs functionValueAtUpdatedExtremum)
           (octave_index + fit_image_index f * 2 ^ 8
            + np_round ((u2 + 0.5) * 255) * 2 ^ 16)
           (class_id KeyPoint_default) in
       Ok (Some (keypoint, fit_image_index f))
     else Ok None
   else Ok None)%py.

Definition localizeExtremumViaQuadraticFit (G : namespace)
    (i j image_index octave_index num_intervals : Z)
    (dog_images_in_octave : list array2)
    (sigma contrast_threshold : Q) (image_border_width : Z)
    (eigenvalue_ratio : Q) (num_attempts_until_convergence : Z)
  : result (option (KeyPoint * Z)) :=
  (first <- index1 dog_images_in_octave 0 ;;
   let image_shape := shape2 first in
   exit <- attempts G dog_images_in_octave image_shape num_intervals
                    image_border_width
                    (py_range num_attempts_until_convergence)
                    i j image_index None ;;
   match exit with
   | MovedOutside => Ok None
   | NotEntered => Raise (UnboundLocalError "attempt_index")
   | Converged f | Exhausted f =>
       if fit_attempt_index f >=? num_attempts_until_convergence - 1
       then Ok None
       else keypoint_of_fit f octave_index num_intervals sigma
                            contrast_threshold eigenvalue_ratio
   end)%py.

End Localize.

(** The defaults of the signature. *)
Definition default_eigenvalue_ratio : Q := 10.
Definition default_num_attempts_until_convergence : Z := 5.

(* ================================================================== *)
(** * Sequences in the error monad *)
(* ================================================================== *)

Fixpoint mapM {A B : Type} (f : A -> result B) (l : list A) : result (list B) :=
  match l with
  | [] => Ok []
  | x :: l' => (y <- f x ;; ys <- mapM f l' ;; Ok (y :: ys))%py
  end.

(** A [for] loop that updates a state and may raise. *)
Fixpoint for_each {A S : Type} (l : list A) (s : S) (body : A -> S -> result S)
  : result S :=
  match l with
  | [] => Ok s
  | x :: l' => (s' <- body x s ;; for_each l' s' body)%py
  end.

(** [l[k]] for a computed index [k]: a negative index counts from the
    end. *)
Definition py_get {A : Type} (l : list A) (k : Z) : result A :=
  let n := Z.of_nat (length l) in
  if (0 <=? k) && (k <? n) then index1 l (Z.to_nat k)
  else if (- n <=? k) && (k <? 0) then index1 l (Z.to_nat (k + n))
  else Raise IndexError.

(** [a % n] for integers. *)
Definition py_mod (a n : Z) : result Z :=
  if n =? 0 then Raise ZeroDivisionError else Ok (a mod n).

(** [x / y] between NumPy floats. *)
Definition fdiv (x y : Q) : result Q :=
  if Qeq_bool y 0 then Raise NonFinite else Ok (x / y)%Q.

(** [x % n] for a float [x] and a positive integer [n]. *)
Definition float_mod (x : Q) (n : Z) : Q :=
  (x - inject_Z n * inject_Z (Qfloor (x / inject_Z n)))%Q.

Definition float_tolerance : Q := 1 # 10000000.

(** The float32 nearest to a number, ties to even: 24 significant bits
    in the binade of the number, and a spacing of [2 ** -149] below
    [2 ** -126].  [binade x] is the largest [e] with [2 ** e <= |x|].
    Numbers of magnitude [2 ** 128] and more have no finite float32;
    the orientations rounded here stay below 512. *)
Definition binade (x : Q) : Z :=
  let e0 := Z.log2 (Z.abs (Qnum x)) - Z.log2 (Zpos (Qden x)) in
  if Qltb (Qabs x) (2 ^ e0) then e0 - 1 else e0.

Definition float32 (x : Q) : Q :=
  if Qeq_bool x 0 then 0%Q
  else
    let ulp := (2 ^ (Z.max (binade x) (-126) - 23))%Q in
    (inject_Z (np_round (x / ulp)) * ulp)%Q.

(* ================================================================== *)
(** * Keypoint orientations *)
(* ================================================================== *)

Module Orientation.

(** [l[k] += v]. *)
Fixpoint add_at (l : list Q) (k : nat) (v : Q) : list Q :=
  match l, k with
  | [], _ => []
  | x :: l', O => (x + v)%Q :: l'
  | x :: l', S k' => x :: add_at l' k' v
  end.

(** [zeros(n)]. *)
Definition zeros (n : Z) : result (list Q) :=
  if n <? 0 then Raise ValueError else Ok (repeat 0%Q (Z.to_nat n)).

(** The accumulation of the samples:
    [raw_histogram[histogram_index % num_bins] += weight * gradient_magnitude]
    for every pixel of the window that has a gradient. *)
Definition accumulate (num_bins : Z) (samples : list (Z * Q)) : result (list Q) :=
  (raw_histogram <- zeros num_bins ;;
   for_each samples raw_histogram
     (fun sample raw_histogram =>
        k <- py_mod (fst sample) num_bins ;;
        Ok (add_at raw_histogram (Z.to_nat k) (snd sample))))%py.

(** One bin of the smoothed histogram. *)
Definition smooth_bin (raw_histogram : list Q) (num_bins n : Z) : result Q :=
  (r0 <- py_get raw_histogram n ;;
   rm1 <- py_get raw_histogram (n - 1) ;;
   k1 <- py_mod (n + 1) num_bins ;;
   rp1 <- py_get raw_histogram k1 ;;
   rm2 <- py_get raw_histogram (n - 2) ;;
   k2 <- py_mod (n + 2) num_bins ;;
   rp2 <- py_get raw_histogram k2 ;;
   Ok ((6 * r0 + 4 * (rm1 + rp1) + rm2 + rp2) / 16)%Q)%py.

Definition smooth (raw_histogram : list Q) (num_bins : Z) : result (list Q) :=
  mapM (smooth_bin raw_histogram num_bins) (py_range num_bins).

(** The builtin [max] of a sequence. *)
Definition py_max (l : list Q) : result Q :=
  match l with
  | [] => Raise ValueError
  | x :: l' => Ok (fold_left (fun m v => if Qltb m v then v else m) l' x)
  end.

(** [roll(a, shift)]: element [n] of the result is element
    [(n - shift) mod len(a)] of [a]. *)
Definition roll (a : list Q) (shift : Z) : list Q :=
  let n := Z.of_nat (length a) in
  map (fun k => nth (Z.to_nat ((k - shift) mod n)) a 0%Q) (py_range n).

(** [where(logical_and(a > roll(a, 1), a > roll(a, -1)))[0]]. *)
Definition orientation_peaks (smooth_histogram : list Q) : list Z :=
  let before := roll smooth_histogram 1 in
  let after := roll smooth_histogram (-1) in
  filter (fun k =>
            Qltb (nth (Z.to_nat k) before 0%Q) (nth (Z.to_nat k) smooth_histogram 0%Q)
            && Qltb (nth (Z.to_nat k) after 0%Q) (nth (Z.to_nat k) smooth_histogram 0%Q))
         (py_range (Z.of_nat (length smooth_histogram))).

(** The denominator of the parabolic interpolation at a peak. *)
Definition interpolation_denominator (left_value peak_value right_value : Q) : Q :=
  (left_value - 2 * peak_value + right_value)%Q.

(** The body of the loop over the peaks: nothing for a peak below
    [peak_ratio * orientation_max], an oriented copy of the keypoint
    otherwise.  [cv2.KeyPoint] keeps its fields as float32: position,
    size and response are copied from a keypoint and are float32
    values already, the orientation is rounded when it is stored. *)
Definition orient_peak (keypoint : KeyPoint) (smooth_histogram : list Q)
    (num_bins : Z) (peak_ratio orientation_max : Q) (peak_index : Z)
  : result (list KeyPoint) :=
  (peak_value <- py_get smooth_histogram peak_index ;;
   if Qle_bool (peak_ratio * orientation_max) peak_value then
     kl <- py_mod (peak_index - 1) num_bins ;;
     left_value <- py_get smooth_histogram kl ;;
     kr <- py_mod (peak_index + 1) num_bins ;;
     right_value <- py_get smooth_histogram kr ;;
     offset <- fdiv (0.5 * (left_value - right_value))
                    (interpolation_denominator left_value peak_value right_value) ;;
     let interpolated_peak_index :=
       float_mod (inject_Z peak_index + offset) num_bins in
     let orientation :=
       (360 - interpolated_peak_index * 360 / inject_Z num_bins)%Q in
     let orientation :=
       if Qltb (Qabs (orientation - 360)) float_tolerance then 0%Q
       else orientation in
     Ok [mkKeyPoint (pt keypoint) (size keypoint) (float32 orientation)
                    (response keypoint) (octave keypoint)
                    (class_id KeyPoint_default)]
   else Ok [])%py.

(** The function from the accumulated samples on. *)
Definition orientations_of_samples (keypoint : KeyPoint)
    (samples : list (Z * Q)) (num_bins : Z) (peak_ratio : Q)
  : result (list KeyPoint) :=
  (raw_histogram <- accumulate num_bins samples ;;
   smooth_histogram <- smooth raw_histogram num_bins ;;
   orientation_max <- py_max smooth_histogram ;;
   for_each (orientation_peaks smooth_histogram) []
     (fun peak_index keypoints_with_orientations =>
        new <- orient_peak keypoint smooth_histogram num_bins peak_ratio
                           orientation_max peak_index ;;
        Ok (keypoints_with_orientations ++ new)))%py.

Section WithSamples.

(** The samples of the window around a keypoint: for every pixel of the
    square of side [2 * radius + 1] that has a gradient in
    [gaussian_image], the pair of [histogram_index] and
    [weight * gradient_magnitude].  Computing them takes a square root,
    an arc tangent and an exponential. *)
Variable orientation_samples :
  KeyPoint -> Z -> array2 -> Q -> Z -> Q -> list (Z * Q).

Definition computeKeypointsWithOrientations (keypoint : KeyPoint)
    (octave_index : Z) (gaussian_image : array2)
    (radius_factor : Q) (num_bins : Z) (peak_ratio scale_factor : Q)
  : result (list KeyPoint) :=
  orientations_of_samples keypoint
    (orientation_samples keypoint octave_index gaussian_image
                         radius_factor num_bins scale_factor)
    num_bins peak_ratio.

End WithSamples.

Definition default_radius_factor : Q := 3.
Definition default_num_bins : Z := 36.
Definition default_peak_ratio : Q := 0.8.
Definition default_scale_factor : Q := 1.5.

End Orientation.

(* ================================================================== *)
(** * Descriptors *)
(* ================================================================== *)

Module Descriptor.

Local Open Scope R_scope.

(** [unpackOctave].  The scale is [2 ** -octave] wherever that is a
    float32, which it is for every signed byte but -128: there the
    source's [float32(1 << 128)] is infinite, and the number kept here
    says nothing about it. *)
Definition unpackOctave (keypoint : KeyPoint) : Z * Z * Q :=
  let packed := octave keypoint in
  let octave := Z.land packed 255 in
  let layer := Z.land (Z.shiftr packed 8) 255 in
  let octave := if (octave >=? 128)%Z then Z.lor octave (-128) else octave in
  let scale :=
    if (octave >=? 0)%Z then (1 / inject_Z (Z.shiftl 1 octave))%Q
    else inject_Z (Z.shiftl 1 (- octave)) in
  (octave, layer, scale).

Definition tensor : Type := list (list (list R)).

(** [t] is an [a] x [b] x [c] array. *)
Definition tensor_shape (t : tensor) (a b c : nat) : Prop :=
  length t = a
  /\ Forall (fun plane =>
               length plane = b /\ Forall (fun row => length row = c) plane) t.

(** [zeros((a, b, c))]. *)
Definition zeros3 (a b c : Z) : result tensor :=
  if ((a <? 0) || (b <? 0) || (c <? 0))%Z then Raise ValueError
  else Ok (repeat (repeat (repeat 0 (Z.to_nat c)) (Z.to_nat b)) (Z.to_nat a)).

(** An index into an axis of length [n]: negative indices count from the
    end. *)
Definition norm_index (n : nat) (k : Z) : result nat :=
  if ((0 <=? k) && (k <? Z.of_nat n))%Z then Ok (Z.to_nat k)
  else if ((- Z.of_nat n <=? k) && (k <? 0))%Z then Ok (Z.to_nat (k + Z.of_nat n))
  else Raise IndexError.

Fixpoint update_nth {A : Type} (l : list A) (k : nat) (f : A -> A) : list A :=
  match l, k with
  | [], _ => []
  | x :: l', O => f x :: l'
  | x :: l', S k' => x :: update_nth l' k' f
  end.

(** [t[i, j, k] += v]. *)
Definition tensor_add (t : tensor) (i j k : Z) (v : R) : result tensor :=
  (i' <- norm_index (length t) i ;;
   let plane := nth i' t [] in
   j' <- norm_index (length plane) j ;;
   let row := nth j' plane [] in
   k' <- norm_index (length row) k ;;
   Ok (update_nth t i'
         (fun plane => update_nth plane j'
            (fun row => update_nth row k' (fun x => x + v)))))%py.

(** One sample of the window: [row_bin], [col_bin], [magnitude] and
    [orientation_bin]. *)
Record sample : Type := mkSample {
  row_bin : R;
  col_bin : R;
  magnitude : R;
  orientation_bin : R
}.

(** The body of the loop that distributes a sample over the eight cells
    around it. *)
Definition splat (num_bins : Z) (s : sample) (histogram_tensor : tensor)
  : result tensor :=
  (let row_bin_floor := Zfloor (row_bin s) in
   let col_bin_floor := Zfloor (col_bin s) in
   let orientation_bin_floor := Zfloor (orientation_bin s) in
   let row_fraction := row_bin s - IZR row_bin_floor in
   let col_fraction := col_bin s - IZR col_bin_floor in
   let orientation_fraction := orientation_bin s - IZR orientation_bin_floor in
   orientation_bin_floor <- py_mod orientation_bin_floor num_bins ;;
   let c1 := magnitude s * row_fraction in
   let c0 := magnitude s * (1 - row_fraction) in
   let c11 := c1 * col_fraction in
   let c10 := c1 * (1 - col_fraction) in
   let c01 := c0 * col_fraction in
   let c00 := c0 * (1 - col_fraction) in
   let c111 := c11 * orientation_fraction in
   let c110 := c11 * (1 - orientation_fraction) in
   let c101 := c10 * orientation_fraction in
   let c100 := c10 * (1 - orientation_fraction) in
   let c011 := c01 * orientation_fraction in
   let c010 := c01 * (1 - orientation_fraction) in
   let c001 := c00 * orientation_fraction in
   let c000 := c00 * (1 - orientation_fraction) in
   next <- py_mod (orientation_bin_floor + 1)%Z num_bins ;;
   t <- tensor_add histogram_tensor (row_bin_floor + 1)%Z (col_bin_floor + 1)%Z
                   orientation_bin_floor c000 ;;
   t <- tensor_add t (row_bin_floor + 1)%Z (col_bin_floor + 1)%Z next c001 ;;
   t <- tensor_add t (row_bin_floor + 1)%Z (col_bin_floor + 2)%Z
                   orientation_bin_floor c010 ;;
   t <- tensor_add t (row_bin_floor + 1)%Z (col_bin_floor + 2)%Z next c011 ;;
   t <- tensor_add t (row_bin_floor + 2)%Z (col_bin_floor + 1)%Z
                   orientation_bin_floor c100 ;;
   t <- tensor_add t (row_bin_floor + 2)%Z (col_bin_floor + 1)%Z next c101 ;;
   t <- tensor_add t (row_bin_floor + 2)%Z (col_bin_floor + 2)%Z
                   orientation_bin_floor c110 ;;
   tensor_add t (row_bin_floor + 2)%Z (col_bin_floor + 2)%Z next c111)%py.

(** [histogram_tensor[1:-1, 1:-1, :].flatten()]. *)
Definition strip_and_flatten (histogram_tensor : tensor) : list R :=
  concat (concat (map (fun plane => py_slice plane 1 (-1))
                      (py_slice histogram_tensor 1 (-1)))).

(** The histogram of a list of samples, stripped and flattened. *)
Definition descriptor_vector_of_samples (window_width num_bins : Z)
    (samples : list sample) : result (list R) :=
  (histogram_tensor <- zeros3 (window_width + 2) (window_width + 2) num_bins ;;
   histogram_tensor <- for_each samples histogram_tensor (splat num_bins) ;;
   Ok (strip_and_flatten histogram_tensor))%py.

(** [norm(v)]: the Euclidean norm. *)
Definition norm (v : list R) : R :=
  sqrt (fold_right (fun x acc => x * x + acc) 0 v).

(** [v[v > threshold] = threshold] with
    [threshold = norm(v) * descriptor_max_value]. *)
Definition clip (descriptor_max_value : R) (v : list R) : list R :=
  let threshold := norm v * descriptor_max_value in
  map (fun x => if Rlt_dec threshold x then threshold else x) v.

(** The builtin [max(a, b)]. *)
Definition py_max2 (a b : R) : R := if Rlt_dec a b then b else a.

(** [x / y] between floats. *)
Definition fdivR (x y : R) : result R :=
  if Req_dec_T y 0 then Raise NonFinite else Ok (x / y).

(** [v /= max(norm(v), float_tolerance)]. *)
Definition normalize (v : list R) : result (list R) :=
  let d := py_max2 (norm v) (Q2R float_tolerance) in
  mapM (fun x => fdivR x d) v.

(** [round(512 * v)], then [v[v < 0] = 0] and [v[v > 255] = 255]. *)
Definition quantize (v : list R) : list R :=
  let v := map (fun x => IZR (Octaves.np_round_R (512 * x))) v in
  let v := map (fun x => if Rlt_dec x 0 then 0 else x) v in
  map (fun x => if Rlt_dec 255 x then 255 else x) v.

(** The descriptor of a list of samples. *)
Definition descriptor_of_samples (window_width num_bins : Z)
    (descriptor_max_value : R) (samples : list sample) : result (list R) :=
  (descriptor_vector <- descriptor_vector_of_samples window_width num_bins samples ;;
   descriptor_vector <- normalize (clip descriptor_max_value descriptor_vector) ;;
   Ok (quantize descriptor_vector))%py.

Section WithSamples.

(** The samples of the window of a keypoint: for every pixel of the
    rotated square that falls into the grid of bins and has a gradient
    in [gaussian_image], its [row_bin], [col_bin], weighted magnitude
    and [orientation_bin].  Computing them takes sines, cosines, a
    square root, an arc tangent and an exponential. *)
Variable descriptor_samples :
  KeyPoint -> Q -> array2 -> Z -> Z -> Q -> list sample.

Definition describe_keypoint (gaussian_images : list (list array2))
    (window_width num_bins : Z) (scale_multiplier : Q)
    (descriptor_max_value : R) (keypoint : KeyPoint) : result (list R) :=
  (let '(octave, layer, scale) := unpackOctave keypoint in
   images_in_octave <- py_get gaussian_images (octave + 1)%Z ;;
   gaussian_image <- py_get images_in_octave layer ;;
   descriptor_of_samples window_width num_bins descriptor_max_value
     (descriptor_samples keypoint scale gaussian_image window_width num_bins
                         scale_multiplier))%py.

Definition generateDescriptors (h : heap) (keypoints : list ref)
    (gaussian_images : list (list array2))
    (window_width num_bins : Z) (scale_multiplier : Q)
    (descriptor_max_value : R) : result (list (list R)) :=
  mapM (fun keypoint =>
          describe_keypoint gaussian_images window_width num_bins
                            scale_multiplier descriptor_max_value (h keypoint))
       keypoints.

End WithSamples.

Definition default_window_width : Z := 4.
Definition default_num_bins : Z := 8.
Definition default_scale_multiplier : Q := 3.
Definition default_descriptor_max_value : R := 0.2.

(** What the sampling loop guarantees of a sample it records:
    [-1 < row_bin < window_width] and [-1 < col_bin < window_width]. *)
Definition in_grid (window_width : Z) (s : sample) : Prop :=
  -1 < row_bin s < IZR window_width /\ -1 < col_bin s < IZR window_width.

End Descriptor.

(* ================================================================== *)
(** * The pipeline *)
(* ================================================================== *)

Module Pipeline.

Inductive interpolation : Type := INTER_LINEAR | INTER_NEAREST.

(** [enumerate(l)]. *)
Definition enumerate {A : Type} (l : list A) : list (Z * A) :=
  combine (py_range (Z.of_nat (length l))) l.

(** [zip(a, b, c)]. *)
Definition zip3 {A : Type} (a b c : list A) : list (A * A * A) :=
  combine (combine a b) c.

(** [array(l, dtype=object)] for a list of octaves of float32 images.
    NumPy makes the array as deep as the nesting is regular.  Where
    the images differ in their number of rows the result is an array
    of images, one row per octave (and an array of lists where the
    octaves differ in length).  Where all images have one shape the
    array goes down to the pixels: four dimensions, every element a
    pixel held as an object.  Images of one height and different
    widths cannot be stored and raise [ValueError]. *)
Inductive object_array : Type :=
| Images (octaves : list (list array2))
| Pixels (octaves : list (list array2)).

(** The images of an array, octave by octave: what iterating over the
    array and indexing it give in either form. *)
Definition elements (a : object_array) : list (list array2) :=
  match a with
  | Images octaves => octaves
  | Pixels octaves => octaves
  end.

Definition same_length {A : Type} (l : list (list A)) : bool :=
  match l with
  | [] => true
  | x :: l' => forallb (fun y => Nat.eqb (length y) (length x)) l'
  end.

Definition np_array_object (l : list (list array2)) : result object_array :=
  if negb (same_length l) then Ok (Images l)
  else
    match concat l with
    | [] => Ok (Images l)
    | first :: rest =>
        if forallb (fun img => (fst (shape2 img) =? fst (shape2 first))
                               && (snd (shape2 img) =? snd (shape2 first)))
                   rest
        then Ok (Pixels l)
        else if forallb (fun img => fst (shape2 img) =? fst (shape2 first)) rest
        then Raise ValueError
        else Ok (Images l)
    end.

(** The difference of two images of one size, pixel by pixel. *)
Definition difference (a b : array2) : array2 :=
  map (fun rows => map (fun p => (fst p - snd p)%Q) (combine (fst rows) (snd rows)))
      (combine a b).

(** [cv2.subtract(a, b)] on float32 images: the difference pixel by
    pixel for images of one size, negative values kept.  An image of a
    single pixel beside a larger one is taken for a scalar; any other
    two sizes do not match and raise. *)
Definition subtract (a b : array2) : result array2 :=
  if (fst (shape2 a) =? fst (shape2 b)) && (snd (shape2 a) =? snd (shape2 b))
  then Ok (difference a b)
  else
    match a, b with
    | _, [[scalar]] => Ok (map (map (fun p => (p - scalar)%Q)) a)
    | [[scalar]], _ => Ok (map (map (fun p => (scalar - p)%Q)) b)
    | _, _ => Raise CvError
    end.

(** The builtin [max(a, b)] on floats. *)
Definition Qmax2 (a b : Q) : Q := if Qltb a b then b else a.

Section WithCollaborators.

(** The collaborators: the pixels of a resized image of a given width
    and height, the pixels of a blurred image, the square root and the
    power of two of a float, the least-squares solver and the two
    sampling loops. *)
Variable interpolate : interpolation -> array2 -> Z -> Z -> array2.
Variable blur : array2 -> Q -> array2.
Variable sqrtQ : Q -> Q.
Variable exp2 : Q -> Q.
Variable lstsq : list (list Q) -> list Q -> result (list Q).
Variable orientation_samples :
  KeyPoint -> Z -> array2 -> Q -> Z -> Q -> list (Z * Q).
Variable descriptor_samples :
  KeyPoint -> Q -> array2 -> Z -> Z -> Q -> list Descriptor.sample.

(** [cv2.resize(src, dsize, fx=fx, fy=fy, interpolation=...)]: an empty
    [dsize] is computed from the factors, and neither the source nor
    the destination may be empty. *)
Definition resize (src : array2) (dsize : Z * Z) (fx fy : Q)
    (interp : interpolation) : result array2 :=
  let rows := fst (shape2 src) in
  let cols := snd (shape2 src) in
  if (rows <=? 0) || (cols <=? 0) then Raise CvError
  else if (fst dsize <=? 0) || (snd dsize <=? 0) then
    if Qle_bool fx 0 || Qle_bool fy 0 then Raise CvError
    else
      let width := np_round (inject_Z cols * fx) in
      let height := np_round (inject_Z rows * fy) in
      if (width <=? 0) || (height <=? 0) then Raise CvError
      else Ok (interpolate interp src width height)
  else Ok (interpolate interp src (fst dsize) (snd dsize)).

(** [cv2.GaussianBlur(src, (0, 0), sigmaX=sigma, sigmaY=sigma)]: the
    kernel size is computed from [sigma], which must be positive. *)
Definition GaussianBlur (src : array2) (sigma : Q) : result array2 :=
  if Qle_bool sigma 0 then Raise CvError else Ok (blur src sigma).

Definition generateBaseImage (image : array2) (sigma assumed_blur : Q)
  : result array2 :=
  (image <- resize image (0, 0) 2 2 INTER_LINEAR ;;
   let sigma_diff :=
     sqrtQ (Qmax2 (sigma ^ 2 - (2 * assumed_blur) ^ 2) 0.01)%Q in
   GaussianBlur image sigma_diff)%py.

Definition generateGaussianKernels (sigma : Q) (num_intervals : Z)
  : result (list Q) :=
  let num_images_per_octave := num_intervals + 3 in
  if num_intervals =? 0 then Raise ZeroDivisionError
  else
    let k := exp2 (1 / inject_Z num_intervals)%Q in
    if num_images_per_octave <? 0 then Raise ValueError
    else if num_images_per_octave =? 0 then Raise IndexError
    else
      Ok (sigma
          :: map (fun image_index =>
                    let sigma_previous := (k ^ (image_index - 1) * sigma)%Q in
                    let sigma_total := (k * sigma_previous)%Q in
                    sqrtQ (sigma_total ^ 2 - sigma_previous ^ 2)%Q)
                 (py_range2 1 num_images_per_octave)).

(** The inner loop of [generateGaussianImages]: each kernel blurs the
    image the previous one left. *)
Fixpoint blur_each (image : array2) (kernels : list Q)
  : result (list array2) :=
  match kernels with
  | [] => Ok []
  | gaussian_kernel :: rest =>
      (image <- GaussianBlur image gaussian_kernel ;;
       later <- blur_each image rest ;;
       Ok (image :: later))%py
  end.

(** The outer loop: one octave, then the base of the next. *)
Fixpoint octaves_loop (octave_indices : list Z) (image : array2)
    (gaussian_kernels : list Q) : result (list (list array2)) :=
  match octave_indices with
  | [] => Ok []
  | _ :: rest =>
      (blurred <- blur_each image (skipn 1 gaussian_kernels) ;;
       let gaussian_images_in_octave := image :: blurred in
       octave_base <- py_get gaussian_images_in_octave (-3) ;;
       image <- resize octave_base
                       (snd (shape2 octave_base) / 2, fst (shape2 octave_base) / 2)
                       0 0 INTER_NEAREST ;;
       later <- octaves_loop rest image gaussian_kernels ;;
       Ok (gaussian_images_in_octave :: later))%py
  end.

Definition generateGaussianImages (image : array2) (num_octaves : Z)
    (gaussian_kernels : list Q) : result object_array :=
  (gaussian_images <- octaves_loop (py_range num_octaves) image
                                   gaussian_kernels ;;
   np_array_object gaussian_images)%py.

(** The two loops of [generateDoGImages]: in every octave each image
    is subtracted from the next.  [cv2.subtract] takes the float32
    images that an array of images holds; handed two slices of an
    array of pixels, whose type is [object], it raises. *)
Definition dog_loop (gaussian_images : object_array)
  : result (list (list array2)) :=
  mapM (fun gaussian_images_in_octave =>
          mapM (fun p =>
                  match gaussian_images with
                  | Images _ => subtract (snd p) (fst p)
                  | Pixels _ => Raise CvError
                  end)
               (combine gaussian_images_in_octave
                        (skipn 1 gaussian_images_in_octave)))
       (elements gaussian_images).

Definition generateDoGImages (gaussian_images : object_array)
  : result object_array :=
  (dog_images <- dog_loop gaussian_images ;;
   np_array_object dog_images)%py.

(** The body of the innermost loop of [findScaleSpaceExtrema]. *)
Definition scan_pixel (G : namespace)
    (gaussian_images : list (list array2))
    (dog_images_in_octave : list array2)
    (first_image second_image third_image : array2)
    (octave_index image_index num_intervals : Z) (sigma : Q)
    (image_border_width : Z) (contrast_threshold threshold : Q)
    (i j : Z) (keypoints : list KeyPoint) : result (list KeyPoint) :=
  (is_extremum <- Extrema.isPixelAnExtremum
                    (window3 first_image i j) (window3 second_image i j)
                    (window3 third_image i j) threshold ;;
   if is_extremum : bool then
     localization_result <-
       localizeExtremumViaQuadraticFit lstsq exp2 G i j (image_index + 1)
         octave_index num_intervals dog_images_in_octave sigma
         contrast_threshold image_border_width
         default_eigenvalue_ratio default_num_attempts_until_convergence ;;
     match localization_result with
     | Some (keypoint, localized_image_index) =>
         images_in_octave <- py_get gaussian_images octave_index ;;
         gaussian_image <- py_get images_in_octave localized_image_index ;;
         keypoints_with_orientations <-
           Orientation.computeKeypointsWithOrientations orientation_samples
             keypoint octave_index gaussian_image
             Orientation.default_radius_factor Orientation.default_num_bins
             Orientation.default_peak_ratio Orientation.default_scale_factor ;;
         Ok (keypoints ++ keypoints_with_orientations)
     | None => Ok keypoints
     end
   else Ok keypoints)%py.

Definition findScaleSpaceExtrema (G : namespace)
    (gaussian_images dog_images : list (list array2))
    (num_intervals : Z) (sigma : Q) (image_border_width : Z)
    (contrast_threshold : Q) : result (list KeyPoint) :=
  (threshold <- Extrema.extremum_threshold contrast_threshold num_intervals ;;
    for_each (enumerate dog_images) []
      (fun octave keypoints =>
         let octave_index := fst octave in
         let dog_images_in_octave := snd octave in
         for_each
           (enumerate (zip3 dog_images_in_octave
                            (skipn 1 dog_images_in_octave)
                            (skipn 2 dog_images_in_octave)))
           keypoints
           (fun triplet keypoints =>
              let image_index := fst triplet in
              let first_image := fst (fst (snd triplet)) in
              let second_image := snd (fst (snd triplet)) in
              let third_image := snd (snd triplet) in
              for_each
                (py_range2 image_border_width
                           (fst (shape2 first_image) - image_border_width))
                keypoints
                (fun i keypoints =>
                   for_each
                     (py_range2 image_border_width
                                (snd (shape2 first_image) - image_border_width))
                     keypoints
                     (scan_pixel G gaussian_images dog_images_in_octave
                                 first_image second_image third_image
                                 octave_index image_index num_intervals sigma
                                 image_border_width contrast_threshold
                                 threshold i)))))%py.

Definition default_contrast_threshold : Q := 0.04.

(** Every [KeyPoint(...)] call makes an object of its own: the
    keypoints found are stored at the references 0, 1, 2, ... *)
Definition heap_of_list (keypoints : list KeyPoint) : heap :=
  fun r => nth r keypoints KeyPoint_default.

(** The pipeline.  The scan and the descriptors iterate over the
    pyramids and index them, which an array of images and an array of
    pixels answer alike: they are given the [elements]. *)
Definition computeKeypointsAndDescriptors (G : namespace) (image : array2)
    (sigma : Q) (num_intervals : Z) (assumed_blur : Q)
    (image_border_width : Z)
  : result (heap * list ref * list (list R)) :=
  (base_image <- generateBaseImage image sigma assumed_blur ;;
   let num_octaves := Octaves.computeNumberOfOctaves (shape2 base_image) in
   gaussian_kernels <- generateGaussianKernels sigma num_intervals ;;
   gaussian_images <- generateGaussianImages base_image num_octaves
                                             gaussian_kernels ;;
   dog_images <- generateDoGImages gaussian_images ;;
   found <- findScaleSpaceExtrema G (elements gaussian_images)
                                  (elements dog_images) num_intervals
                                  sigma image_border_width
                                  default_contrast_threshold ;;
   let h := heap_of_list found in
   let keypoints := seq 0 (length found) in
   let keypoints := Dedup.removeDuplicateKeypoints h keypoints in
   let converted := Convert.convertKeypointsToInputImageSize h keypoints in
   let h := fst converted in
   let keypoints := snd converted in
   descriptors <- Descriptor.generateDescriptors descriptor_samples h keypoints
                    (elements gaussian_images) Descriptor.default_window_width
                    Descriptor.default_num_bins
                    Descriptor.default_scale_multiplier
                    Descriptor.default_descriptor_max_value ;;
   Ok (h, keypoints, descriptors))%py.

End WithCollaborators.

Definition default_sigma : Q := 1.6.
Definition default_num_intervals : Z := 3.
Definition default_assumed_blur : Q := 0.5.
Definition default_image_border_width : Z := 5.

End Pipeline.

(* ================================================================== *)
(** * Notions used to state further properties *)
(* ================================================================== *)

(** Two keypoints agree in the seven fields [compareKeypoints] reads. *)
Definition same_fields (k1 k2 : KeyPoint) : Prop :=
  (fst (pt k1) == fst (pt k2))%Q /\ (snd (pt k1) == snd (pt k2))%Q
  /\ (size k1 == size k2)%Q /\ (angle k1 == angle k2)%Q
  /\ (response k1 == response k2)%Q
  /\ octave k1 = octave k2 /\ class_id k1 = class_id k2.

(** [k] is [keypoint] with an orientation assigned: the same position,
    size, response and packed octave, the default class id, and an
    angle between 0 and 360, both possible. *)
Definition oriented_copy_of (keypoint k : KeyPoint) : Prop :=
  pt k = pt keypoint /\ size k = size keypoint
  /\ response k = response keypoint /\ octave k = octave keypoint
  /\ class_id k = -1
  /\ (0 <= angle k)%Q /\ (angle k <= 360)%Q.

(** The sum of a vector and of all the cells of a histogram tensor. *)
Definition sum_list (v : list R) : R := fold_right Rplus 0%R v.

Definition tensor_total (t : Descriptor.tensor) : R :=
  sum_list (map (fun plane => sum_list (map sum_list plane)) t).

Definition tensor_nonneg (t : Descriptor.tensor) : Prop :=
  Forall (Forall (Forall (fun x => (0 <= x)%R))) t.

(** The Gaussian image [generateDescriptors] reads for a keypoint:
    [gaussian_images[octave + 1, layer]]. *)
Definition image_of_keypoint (gaussian_images : list (list array2))
    (keypoint : KeyPoint) : result array2 :=
  (let '(unpacked, layer, _) := Descriptor.unpackOctave keypoint in
   images_in_octave <- py_get gaussian_images (unpacked + 1) ;;
   py_get images_in_octave layer)%py.

(** Every pixel of [a] is within [delta] of the value [v]; no pixel of
    [img] exceeds [threshold] in absolute value. *)
Definition within (a : array2) (v delta : Q) : Prop :=
  Forall (Forall (fun p => (Qabs (p - v) <= delta)%Q)) a.

Definition low_contrast (img : array2) (threshold : Q) : Prop :=
  Forall (Forall (fun p => (Qabs p <= threshold)%Q)) img.

(** A quadratic function of the offsets from the centre of a cube,
    sampled at scale [s], row [y] and column [x]: value [c0], gradient
    [(gx, gy, gs)] and second derivatives [hxx] ... [hys] at the
    centre. *)
Definition quadratic (c0 gx gy gs hxx hyy hss hxy hxs hys : Q)
    (s y x : nat) : Q :=
  let dx := (inject_Z (Z.of_nat x) - 1)%Q in
  let dy := (inject_Z (Z.of_nat y) - 1)%Q in
  let ds := (inject_Z (Z.of_nat s) - 1)%Q in
  (c0 + gx * dx + gy * dy + gs * ds
   + (1 # 2) * (hxx * dx * dx + hyy * dy * dy + hss * ds * ds)
   + hxy * dx * dy + hxs * dx * ds + hys * dy * ds)%Q.

(* ================================================================== *)
(** * Sample inputs *)
(* ================================================================== *)

(** A store with two keypoint objects of octave 0 and 1, both in layer 1
    with sub-layer byte 128, as the localizer packs them. *)
Definition sample_heap : heap :=
  fun r =>
    match r with
    | O => mkKeyPoint (10, 20)%Q 4%Q 90%Q 0.5%Q (0 + 1 * 256 + 128 * 65536) (-1)
    | _ => mkKeyPoint (31, 7)%Q 6.5%Q 45%Q 0.25%Q (1 + 1 * 256 + 128 * 65536) (-1)
    end.

(** A DoG triplet of 3x3 images: a peak of height 5 in the middle image,
    flat images of value 1 below and above. *)
Definition sample_flat : array2 :=
  [[1; 1; 1]; [1; 1; 1]; [1; 1; 1]]%Q.

Definition sample_peak : array2 :=
  [[1; 2; 1]; [2; 5; 5]; [1; 2; 1]]%Q.

(** One orientation sample of tiny weight in bin 0, and a window with
    four samples. *)
Definition sample_tiny_orientation : list (Z * Q) :=
  [(0, (1 # 1000000000)%Q)].

Definition sample_orientations : list (Z * Q) :=
  [(0, 5%Q); (1, 3%Q); (9, 4.5%Q); (20, 1%Q)].

(** A window whose histogram peaks a hair to the side of bin 0. *)
Definition sample_near_zero_orientation : list (Z * Q) :=
  [(0, 1%Q); (1, (1 # 1000000)%Q)].

(** A pyramid of two octaves with two images each and a window of one
    descriptor sample. *)
Definition sample_pyramid : list (list array2) :=
  [[sample_flat; sample_flat]; [sample_flat; sample_peak]].

Definition sample_descriptor_samples
  : KeyPoint -> Q -> array2 -> Z -> Z -> Q -> list Descriptor.sample :=
  fun _ _ _ _ _ _ => [Descriptor.mkSample (1 / 2) (3 / 2) 1 (7 / 2)]%R.

(** Stand-ins for the collaborators: a resize that returns a black
    image of the size asked for, a blur that returns its source, and
    crude positive functions for the square root and the power of two. *)
Definition black_resize : Pipeline.interpolation -> array2 -> Z -> Z -> array2 :=
  fun _ _ width height => repeat (repeat 0%Q (Z.to_nat width)) (Z.to_nat height).

Definition no_blur : array2 -> Q -> array2 := fun src _ => src.

Definition crude_sqrt : Q -> Q := fun x => x.

Definition crude_exp2 : Q -> Q := fun x => (1 + x)%Q.

Definition no_lstsq : list (list Q) -> list Q -> result (list Q) :=
  fun _ gradient => Ok gradient.

Definition no_orientation_samples
  : KeyPoint -> Z -> array2 -> Q -> Z -> Q -> list (Z * Q) :=
  fun _ _ _ _ _ _ => [].

(** A DoG octave of three 4x4 images with a peak at row 1, column 1 of
    the middle one. *)
Definition sample_flat4 : array2 :=
  [[0; 0; 0; 0]; [0; 0; 0; 0]; [0; 0; 0; 0]; [0; 0; 0; 0]]%Q.

Definition sample_peak4 : array2 :=
  [[0; 0; 0; 0]; [0; 9; 0; 0]; [0; 0; 0; 0]; [0; 0; 0; 0]]%Q.

(** Four keypoint objects: 0 and 2 are detections of one location, size
    and angle with different responses. *)
Definition sample_duplicates : heap :=
  fun r =>
    match r with
    | 0%nat => mkKeyPoint (10, 20)%Q 4%Q 90%Q 0.5%Q 256 (-1)
    | 1%nat => mkKeyPoint (3, 8)%Q 2%Q 10%Q 0.3%Q 256 (-1)
    | 2%nat => mkKeyPoint (10, 20)%Q 4%Q 90%Q 0.7%Q 256 (-1)
    | _ => mkKeyPoint (10, 20)%Q 4%Q 45%Q 0.1%Q 256 (-1)
    end.

(** A resize that fills the size asked for with the first pixel of its
    source, and an image of 8 x 8 pixels of one grey value. *)
Definition fill_resize : Pipeline.interpolation -> array2 -> Z -> Z -> array2 :=
  fun _ src width height =>
    repeat (repeat (px src 0 0) (Z.to_nat width)) (Z.to_nat height).

Definition sample_uniform : array2 := repeat (repeat 7%Q 8) 8.

(* ================================================================== *)
(** * Theorems *)
(* ================================================================== *)


(* ================================================================== *)
(** * Scale conversion: the packed octave and the frame *)
(* ================================================================== *)

Section ConvertFacts.
Import Convert.

Lemma heap_set_same (h : heap) (r : ref) (k : KeyPoint) :
  heap_set h r k r = k.
Proof. unfold heap_set. now rewrite Nat.eqb_refl. Qed.

Lemma heap_set_other (h : heap) (r r' : ref) (k : KeyPoint) :
  r' <> r -> heap_set h r k r' = h r'.
Proof.
  intros Hne. unfold heap_set.
  destruct (Nat.eqb_spec r' r); [contradiction | reflexivity].
Qed.

(** The returned list holds the references of the argument, in order. *)
Lemma convert_loop_refs (keypoints : list ref) :
  forall h acc, snd (convert_loop h keypoints acc) = acc ++ keypoints.
Proof.
  induction keypoints as [|r rest IH]; intros h acc; simpl.
  - now rewrite app_nil_r.
  - rewrite IH, <- app_assoc. reflexivity.
Qed.

(** Objects that the list does not mention are left alone. *)
Lemma convert_loop_untouched (keypoints : list ref) :
  forall h acc r, ~ In r keypoints ->
    fst (convert_loop h keypoints acc) r = h r.
Proof.
  induction keypoints as [|r0 rest IH]; intros h acc r Hnotin; simpl.
  - reflexivity.
  - rewrite IH by (intro; apply Hnotin; now right).
    apply heap_set_other. intro; apply Hnotin; now left.
Qed.

(** An object that the list mentions once is updated once. *)
Lemma convert_loop_once (keypoints : list ref) :
  forall h acc r, NoDup keypoints -> In r keypoints ->
    fst (convert_loop h keypoints acc) r = convert_one (h r).
Proof.
  induction keypoints as [|r0 rest IH]; intros h acc r Hnd Hin; simpl.
  - contradiction.
  - inversion Hnd as [|? ? Hnotin Hnd']; subst.
    destruct Hin as [-> | Hin].
    + rewrite convert_loop_untouched by assumption.
      apply heap_set_same.
    + rewrite IH by assumption.
      rewrite heap_set_other; [reflexivity |].
      intros ->; contradiction.
Qed.

(** Whatever a single update preserves, the whole loop preserves, also
    for an object that the list mentions several times. *)
Lemma convert_loop_preserves {B : Type} (f : KeyPoint -> B) :
  (forall k, f (convert_one k) = f k) ->
  forall keypoints h acc r,
    f (fst (convert_loop h keypoints acc) r) = f (h r).
Proof.
  intros Hf keypoints.
  induction keypoints as [|r0 rest IH]; intros h acc r; simpl.
  - reflexivity.
  - rewrite IH. unfold heap_set.
    destruct (Nat.eqb_spec r r0) as [-> | _]; [apply Hf | reflexivity].
Qed.

Lemma lnot_255_low : Z.land (Z.lnot 255) 255 = 0.
Proof. reflexivity. Qed.

Lemma octave_low_byte (o : Z) :
  Z.land (Z.lor (Z.land o (Z.lnot 255)) (Z.land (o - 1) 255)) 255
  = (Z.land o 255 - 1) mod 256.
Proof.
  rewrite Z.land_lor_distr_l.
  rewrite <- Z.land_assoc, lnot_255_low, Z.land_0_r, Z.lor_0_l.
  rewrite <- Z.land_assoc. change (Z.land 255 255) with (Z.ones 8).
  change 255 with (Z.ones 8).
  rewrite !Z.land_ones by lia.
  change (2 ^ 8) with 256.
  now rewrite Zminus_mod_idemp_l.
Qed.

Lemma octave_high_bits (o : Z) :
  Z.shiftr (Z.lor (Z.land o (Z.lnot 255)) (Z.land (o - 1) 255)) 8
  = Z.shiftr o 8.
Proof.
  rewrite Z.shiftr_lor, !Z.shiftr_land.
  change (Z.shiftr (Z.lnot 255) 8) with (-1).
  change (Z.shiftr 255 8) with 0.
  rewrite Z.land_0_r, Z.lor_0_r.
  apply Z.land_m1_r.
Qed.

Lemma octave_shift_ge_8 (o n : Z) :
  8 <= n ->
  Z.shiftr (Z.lor (Z.land o (Z.lnot 255)) (Z.land (o - 1) 255)) n
  = Z.shiftr o n.
Proof.
  intros Hn. replace n with (8 + (n - 8)) by lia.
  rewrite <- !Z.shiftr_shiftr by lia.
  now rewrite octave_high_bits.
Qed.

End ConvertFacts.

Section ConvertClaims.
Import Convert.

Example convert_sample_octave0 :
  octave (fst (convertKeypointsToInputImageSize sample_heap [0%nat; 1%nat]) 0%nat)
  = 255 + 1 * 256 + 128 * 65536.
Proof. reflexivity. Qed.

Example convert_sample_octave1 :
  octave (fst (convertKeypointsToInputImageSize sample_heap [0%nat; 1%nat]) 1%nat)
  = 0 + 1 * 256 + 128 * 65536.
Proof. reflexivity. Qed.

(** An object that occurs twice in the list is converted twice: the
    claim about halving is a claim about lists of distinct objects, which
    is what the pipeline builds. *)
Example convert_aliased_twice :
  pt (fst (convertKeypointsToInputImageSize sample_heap [0%nat; 0%nat]) 0%nat)
  = (0.5 * (0.5 * 10), 0.5 * (0.5 * 20))%Q.
Proof. reflexivity. Qed.

(** C6.  For every keypoint object of a list of distinct keypoints, with
    packed octave [O] before the conversion: after
    [convertKeypointsToInputImageSize] the low byte of its octave field is
    [(O & 0xFF) - 1] modulo 256, the layer byte (bits 8-15) and the
    sub-layer byte (bits 16-23) are those of [O], and both coordinates and
    the size are exactly half of what they were. *)
Theorem convert_octave_byte_and_halving
    (h : heap) (keypoints : list ref) (r : ref) :
  NoDup keypoints -> In r keypoints ->
  let h' := fst (convertKeypointsToInputImageSize h keypoints) in
  Z.land (octave (h' r)) 255 = (Z.land (octave (h r)) 255 - 1) mod 256
  /\ Z.land (Z.shiftr (octave (h' r)) 8) 255
     = Z.land (Z.shiftr (octave (h r)) 8) 255
  /\ Z.land (Z.shiftr (octave (h' r)) 16) 255
     = Z.land (Z.shiftr (octave (h r)) 16) 255
  /\ (fst (pt (h' r)) == fst (pt (h r)) / 2)%Q
  /\ (snd (pt (h' r)) == snd (pt (h r)) / 2)%Q
  /\ (size (h' r) == size (h r) / 2)%Q.
Proof.
  intros Hnd Hin h'. subst h'.
  unfold convertKeypointsToInputImageSize.
  rewrite convert_loop_once by assumption.
  unfold convert_one; cbn [octave pt size fst snd].
  repeat split.
  - apply octave_low_byte.
  - now rewrite octave_shift_ge_8 by lia.
  - now rewrite octave_shift_ge_8 by lia.
  - field.
  - field.
  - field.
Qed.

Lemma convert_octave_byte_and_halving_witness :
  let h' := fst (convertKeypointsToInputImageSize sample_heap [0%nat; 1%nat]) in
  Z.land (octave (h' 0%nat)) 255
    = (Z.land (octave (sample_heap 0%nat)) 255 - 1) mod 256
  /\ Z.land (Z.shiftr (octave (h' 0%nat)) 8) 255
     = Z.land (Z.shiftr (octave (sample_heap 0%nat)) 8) 255
  /\ Z.land (Z.shiftr (octave (h' 0%nat)) 16) 255
     = Z.land (Z.shiftr (octave (sample_heap 0%nat)) 16) 255
  /\ (fst (pt (h' 0%nat)) == fst (pt (sample_heap 0%nat)) / 2)%Q
  /\ (snd (pt (h' 0%nat)) == snd (pt (sample_heap 0%nat)) / 2)%Q
  /\ (size (h' 0%nat) == size (sample_heap 0%nat) / 2)%Q.
Proof.
  apply (convert_octave_byte_and_halving sample_heap [0%nat; 1%nat] 0%nat).
  - repeat constructor; simpl; intuition lia.
  - simpl; auto.
Defined.

(** C10.  For every keypoint, [convertKeypointsToInputImageSize] leaves
    the angle and the response as they were; so it does the class id and
    every bit of the packed octave above the low byte.  Objects outside
    the list are untouched and the list returned holds the same
    references in the same order: nothing but position, size and the low
    octave byte changes. *)
Theorem convert_leaves_angle_and_response
    (h : heap) (keypoints : list ref) (r : ref) :
  let h' := fst (convertKeypointsToInputImageSize h keypoints) in
  angle (h' r) = angle (h r)
  /\ response (h' r) = response (h r)
  /\ class_id (h' r) = class_id (h r)
  /\ Z.shiftr (octave (h' r)) 8 = Z.shiftr (octave (h r)) 8
  /\ (~ In r keypoints -> h' r = h r)
  /\ snd (convertKeypointsToInputImageSize h keypoints) = keypoints.
Proof.
  cbv zeta. unfold convertKeypointsToInputImageSize.
  repeat split.
  - now apply convert_loop_preserves.
  - now apply convert_loop_preserves.
  - now apply convert_loop_preserves.
  - apply (convert_loop_preserves (fun k => Z.shiftr (octave k) 8)).
    intros k. unfold convert_one; cbn [octave]. apply octave_high_bits.
  - apply convert_loop_untouched.
  - now rewrite convert_loop_refs.
Qed.

End ConvertClaims.


(* ================================================================== *)
(** * Stable insertion sort *)
(* ================================================================== *)

Section SortFacts.
Import Dedup.

Context {A : Type} (lt : A -> A -> bool).

Hypothesis lt_asym : forall a b, lt a b = true -> lt b a = false.
Hypothesis not_after_trans :
  forall a b c, not_after lt a b -> not_after lt b c -> not_after lt a c.

Lemma insert_perm (x : A) (l : list A) : Permutation (x :: l) (insert lt x l).
Proof.
  induction l as [|y l IH]; simpl.
  - apply Permutation_refl.
  - destruct (lt y x).
    + eapply perm_trans; [apply perm_swap |]. now apply perm_skip.
    + apply Permutation_refl.
Qed.

Lemma list_sort_perm (l : list A) : Permutation l (list_sort lt l).
Proof.
  induction l as [|x l IH]; simpl.
  - apply perm_nil.
  - eapply perm_trans; [| apply insert_perm]. now apply perm_skip.
Qed.

Lemma insert_sorted (x : A) (l : list A) :
  StronglySorted (not_after lt) l -> StronglySorted (not_after lt) (insert lt x l).
Proof.
  induction l as [|y l IH]; intros Hs; simpl.
  - repeat constructor.
  - apply StronglySorted_inv in Hs. destruct Hs as [Hs Hall].
    destruct (lt y x) eqn:Hyx.
    + constructor; [now apply IH |].
      apply (Permutation_Forall (insert_perm x l)).
      constructor; [now apply lt_asym | assumption].
    + constructor; [now constructor |].
      constructor; [exact Hyx |].
      rewrite Forall_forall in *. intros z Hz.
      apply (not_after_trans x y z); [exact Hyx | now apply Hall].
Qed.

Lemma list_sort_sorted (l : list A) :
  StronglySorted (not_after lt) (list_sort lt l).
Proof.
  induction l as [|x l IH]; simpl.
  - constructor.
  - now apply insert_sorted.
Qed.

End SortFacts.

Section SortedInput.
Import Dedup.

Context {A : Type} (lt : A -> A -> bool).

(** Sorting a list that is already in order returns it: the sort is
    stable, so nothing moves. *)
Lemma list_sort_of_sorted (l : list A) :
  Sorted (fun a b => lt b a = false) l -> list_sort lt l = l.
Proof.
  induction l as [|x l IH]; intros Hs; simpl.
  - reflexivity.
  - apply Sorted_inv in Hs. destruct Hs as [Hs Hhd].
    rewrite IH by assumption.
    destruct l as [|y l]; simpl.
    + reflexivity.
    + apply HdRel_inv in Hhd. now rewrite Hhd.
Qed.

End SortedInput.

(* ================================================================== *)
(** * The comparator is the lexicographic order of [sort_key] *)
(* ================================================================== *)

Section CompareFacts.
Import Dedup.

Lemma Qltb_lt (a b : Q) : Qltb a b = true <-> (a < b)%Q.
Proof.
  unfold Qltb. rewrite negb_true_iff, <- not_true_iff_false, Qle_bool_iff.
  split; [apply Qnot_le_lt | apply Qlt_not_le].
Qed.

Lemma Qneb_false (a b : Q) : Qneb a b = false <-> (a == b)%Q.
Proof. unfold Qneb. now rewrite negb_false_iff, Qeq_bool_iff. Qed.

Lemma Qneb_true (a b : Q) : Qneb a b = true <-> ~ (a == b)%Q.
Proof.
  unfold Qneb. rewrite negb_true_iff, <- not_true_iff_false.
  now rewrite Qeq_bool_iff.
Qed.

Lemma lex_compare_antisym (u : list Q) :
  forall v, lex_compare v u = CompOpp (lex_compare u v).
Proof.
  induction u as [|x u IH]; intros [|y v]; simpl; try reflexivity.
  rewrite <- (Qcompare_antisym x y).
  destruct (x ?= y)%Q; simpl; auto.
Qed.

Lemma lex_compare_le_trans (u : list Q) :
  forall v w,
    lex_compare u v <> Gt -> lex_compare v w <> Gt -> lex_compare u w <> Gt.
Proof.
  induction u as [|x u IH]; intros [|y v] [|z w]; simpl;
    try congruence.
  destruct (Qcompare_spec x y) as [Hxy|Hxy|Hxy];
    destruct (Qcompare_spec y z) as [Hyz|Hyz|Hyz];
    destruct (Qcompare_spec x z) as [Hxz|Hxz|Hxz];
    try congruence; try (exfalso; lra).
  apply IH.
Qed.

(** One level of the comparator: a field that differs decides by the sign
    of the difference, a field that agrees passes on to the next. *)
Lemma level_decides (a b d : Q) (rest : comparison) :
  Qneb a b = true -> (d == a - b)%Q ->
  (Qltb d 0 = true <->
   match (a ?= b)%Q with Eq => rest | c => c end = Lt).
Proof.
  intros Hne Hd. apply Qneb_true in Hne. rewrite Qltb_lt.
  destruct (Qcompare_spec a b) as [H|H|H].
  - contradiction.
  - split; [reflexivity | intros _; lra].
  - split; [intros; exfalso; lra | discriminate].
Qed.

Lemma level_passes (a b : Q) (rest : comparison) :
  Qneb a b = false ->
  match (a ?= b)%Q with Eq => rest | c => c end = rest.
Proof.
  intros He. apply Qneb_false in He.
  apply Qeq_alt in He. now rewrite He.
Qed.

Lemma inject_Z_sub (x y : Z) : inject_Z (x - y) = (inject_Z x - inject_Z y)%Q.
Proof.
  unfold Z.sub, Qminus. now rewrite inject_Z_plus, inject_Z_opp.
Qed.

Lemma Zneb_Qneb (m n : Z) :
  negb (m =? n) = Qneb (- inject_Z m) (- inject_Z n).
Proof.
  unfold Qneb. f_equal.
  destruct (Z.eqb_spec m n) as [->|Hne]; symmetry.
  - apply Qeq_bool_iff. reflexivity.
  - apply not_true_iff_false. rewrite Qeq_bool_iff.
    intros H. apply Hne. apply inject_Z_injective. lra.
Qed.

Lemma compareKeypoints_lt (k1 k2 : KeyPoint) :
  Qltb (compareKeypoints k1 k2) 0 = true
  <-> lex_compare (sort_key k1) (sort_key k2) = Lt.
Proof.
  unfold compareKeypoints, sort_key, lex_compare.
  destruct (Qneb (fst (pt k1)) (fst (pt k2))) eqn:E1;
    [apply level_decides; [exact E1 | reflexivity] | rewrite (level_passes _ _ _ E1)].
  destruct (Qneb (snd (pt k1)) (snd (pt k2))) eqn:E2;
    [apply level_decides; [exact E2 | reflexivity] | rewrite (level_passes _ _ _ E2)].
  destruct (Qneb (size k1) (size k2)) eqn:E3.
  { apply level_decides; [| ring].
    apply Qneb_true. apply Qneb_true in E3. intros H; apply E3. lra. }
  rewrite level_passes by (apply Qneb_false; apply Qneb_false in E3; lra).
  destruct (Qneb (angle k1) (angle k2)) eqn:E4;
    [apply level_decides; [exact E4 | reflexivity] | rewrite (level_passes _ _ _ E4)].
  destruct (Qneb (response k1) (response k2)) eqn:E5.
  { apply level_decides; [| ring].
    apply Qneb_true. apply Qneb_true in E5. intros H; apply E5. lra. }
  rewrite level_passes by (apply Qneb_false; apply Qneb_false in E5; lra).
  rewrite Zneb_Qneb.
  destruct (Qneb (- inject_Z (octave k1)) (- inject_Z (octave k2))) eqn:E6.
  { apply level_decides; [exact E6 |].
    rewrite inject_Z_sub. ring. }
  rewrite (level_passes _ _ _ E6).
  rewrite Qltb_lt.
  destruct (Qcompare_spec (- inject_Z (class_id k1)) (- inject_Z (class_id k2)))
    as [H|H|H]; rewrite inject_Z_sub.
  - split; [intros; exfalso; lra | discriminate].
  - split; [reflexivity | intros _; lra].
  - split; [intros; exfalso; lra | discriminate].
Qed.

(** Python's [K(b) < K(a)] is false exactly when [a] is not after [b] in
    the order of the keys. *)
Lemma keypoint_lt_false (h : heap) (a b : ref) :
  keypoint_lt h b a = false <-> key_le (h a) (h b).
Proof.
  unfold keypoint_lt, cmp_to_key_lt, key_le.
  rewrite <- not_true_iff_false, compareKeypoints_lt.
  rewrite (lex_compare_antisym (sort_key (h a)) (sort_key (h b))).
  destruct (lex_compare (sort_key (h a)) (sort_key (h b))); simpl;
    split; congruence.
Qed.

Lemma keypoint_lt_asym (h : heap) (a b : ref) :
  keypoint_lt h a b = true -> keypoint_lt h b a = false.
Proof.
  unfold keypoint_lt, cmp_to_key_lt.
  rewrite <- not_true_iff_false, !compareKeypoints_lt.
  rewrite (lex_compare_antisym (sort_key (h a)) (sort_key (h b))).
  intros ->. discriminate.
Qed.

Lemma keypoint_not_after_trans (h : heap) (a b c : ref) :
  keypoint_lt h b a = false -> keypoint_lt h c b = false ->
  keypoint_lt h c a = false.
Proof.
  rewrite !keypoint_lt_false. unfold key_le. apply lex_compare_le_trans.
Qed.

End CompareFacts.

(* ================================================================== *)
(** * The walk over the sorted list *)
(* ================================================================== *)

Section UniqueLoopFacts.
Import Dedup.

Variable h : heap.


Lemma Sorted_snoc {A : Type} (R : A -> A -> Prop) (l : list A) (x y : A) :
  Sorted R (l ++ [x]) -> R x y -> Sorted R ((l ++ [x]) ++ [y]).
Proof.
  induction l as [|a l IH]; simpl; intros Hs Hxy.
  - repeat constructor; assumption.
  - apply Sorted_inv in Hs. destruct Hs as [Hs Hhd].
    constructor; [now apply IH |].
    destruct l as [|b l]; simpl in *.
    + apply HdRel_inv in Hhd. now constructor.
    + apply HdRel_inv in Hhd. now constructor.
Qed.

Lemma StronglySorted_remove {A : Type} (R : A -> A -> Prop)
    (l1 l2 : list A) (y : A) :
  StronglySorted R (l1 ++ y :: l2) -> StronglySorted R (l1 ++ l2).
Proof.
  induction l1 as [|a l1 IH]; simpl; intros Hs.
  - now apply StronglySorted_inv in Hs.
  - apply StronglySorted_inv in Hs. destruct Hs as [Hs Hall].
    constructor; [now apply IH |].
    rewrite Forall_app in *. destruct Hall as [H1 H2].
    split; [assumption | now inversion H2].
Qed.

(** A list whose neighbours all differ passes the walk unchanged. *)
Lemma unique_loop_keeps_all (rest : list ref) :
  forall acc x,
    Sorted (neighbours_differ h) (x :: rest) ->
    unique_loop h (acc ++ [x]) rest = (acc ++ [x]) ++ rest.
Proof.
  induction rest as [|y rest IH]; intros acc x Hs; simpl.
  - now rewrite app_nil_r.
  - apply Sorted_inv in Hs. destruct Hs as [Hs Hhd].
    apply HdRel_inv in Hhd. rewrite last_last.
    unfold neighbours_differ in Hhd. rewrite Hhd.
    rewrite IH by assumption.
    now rewrite <- app_assoc.
Qed.

(** The walk keeps the order of what it keeps. *)
Lemma unique_loop_sorted (R : ref -> ref -> Prop) (rest : list ref) :
  forall acc x,
    StronglySorted R ((acc ++ [x]) ++ rest) ->
    StronglySorted R (unique_loop h (acc ++ [x]) rest).
Proof.
  induction rest as [|y rest IH]; intros acc x Hs; simpl.
  - now rewrite app_nil_r in Hs.
  - rewrite last_last.
    destruct (differs (h x) (h y)).
    + apply IH. now rewrite <- app_assoc.
    + apply IH. now apply StronglySorted_remove in Hs.
Qed.

(** Two neighbours of the output always differ in [pt[0]], [pt[1]],
    [size] or [angle]. *)
Lemma unique_loop_neighbours_differ (rest : list ref) :
  forall acc x,
    Sorted (neighbours_differ h) (acc ++ [x]) ->
    Sorted (neighbours_differ h) (unique_loop h (acc ++ [x]) rest).
Proof.
  induction rest as [|y rest IH]; intros acc x Hs; simpl.
  - assumption.
  - rewrite last_last.
    destruct (differs (h x) (h y)) eqn:Hd.
    + apply IH. apply Sorted_snoc; [assumption | exact Hd].
    + now apply IH.
Qed.

End UniqueLoopFacts.

Section DedupClaims.
Import Dedup.

Lemma short_list_sorted {A : Type} (R : A -> A -> Prop) (l : list A) :
  (Z.of_nat (length l) <? 2) = true -> StronglySorted R l.
Proof.
  intros Hlen. apply Z.ltb_lt in Hlen.
  destruct l as [|a [|b l]]; simpl in Hlen; try lia; repeat constructor.
Qed.

Example removeDuplicateKeypoints_sample :
  removeDuplicateKeypoints sample_duplicates [0; 1; 2; 3]%nat = [1; 3; 2]%nat.
Proof. reflexivity. Qed.

Example removeDuplicateKeypoints_sample_twice :
  removeDuplicateKeypoints sample_duplicates [1; 3; 2]%nat = [1; 3; 2]%nat.
Proof. reflexivity. Qed.

(** C9.  For every list of keypoints, [removeDuplicateKeypoints] applied
    to its own result returns that result.  The result is in the order of
    the comparator (x, then y, then size descending, then angle, then
    response descending, then octave descending, then class id
    descending), each element before every later one; and two neighbours
    of the result always differ in x, y, size or angle. *)
Theorem removeDuplicateKeypoints_idempotent (h : heap) (keypoints : list ref) :
  let unique_keypoints := removeDuplicateKeypoints h keypoints in
  removeDuplicateKeypoints h unique_keypoints = unique_keypoints
  /\ StronglySorted (fun a b => key_le (h a) (h b)) unique_keypoints
  /\ Sorted (neighbours_differ h) unique_keypoints.
Proof.
  cbv zeta.
  assert (Hord : forall l,
             StronglySorted (fun a b => keypoint_lt h b a = false) l ->
             StronglySorted (fun a b => key_le (h a) (h b)) l).
  { intros l Hl. induction Hl as [|a l Hl IH Hall]; constructor; auto.
    rewrite Forall_forall in *. intros b Hb.
    apply keypoint_lt_false. now apply Hall. }
  destruct (Z.of_nat (length keypoints) <? 2) eqn:Hlen.
  - (* fewer than two keypoints: the list itself is returned *)
    assert (E : removeDuplicateKeypoints h keypoints = keypoints)
      by (unfold removeDuplicateKeypoints; now rewrite Hlen).
    rewrite !E. split; [reflexivity | split].
    + now apply short_list_sorted.
    + apply StronglySorted_Sorted. now apply short_list_sorted.
  - pose proof (list_sort_sorted (keypoint_lt h) (keypoint_lt_asym h)
                  (keypoint_not_after_trans h) keypoints) as Hsorted.
    pose proof (list_sort_perm (keypoint_lt h) keypoints) as Hperm.
    assert (E : removeDuplicateKeypoints h keypoints
                = match list_sort (keypoint_lt h) keypoints with
                  | [] => []
                  | first :: rest => unique_loop h [first] rest
                  end)
      by (unfold removeDuplicateKeypoints; now rewrite Hlen).
    rewrite !E. clear E.
    destruct (list_sort (keypoint_lt h) keypoints) as [|first rest] eqn:Hs.
    { apply Permutation_length in Hperm. simpl in Hperm.
      apply Z.ltb_ge in Hlen. lia. }
    assert (Hout : StronglySorted (fun a b => keypoint_lt h b a = false)
                     (unique_loop h [first] rest)).
    { apply (unique_loop_sorted h _ rest [] first). exact Hsorted. }
    assert (Hdiff : Sorted (neighbours_differ h)
                      (unique_loop h [first] rest)).
    { apply (unique_loop_neighbours_differ h rest [] first).
      repeat constructor. }
    split; [| split].
    + unfold removeDuplicateKeypoints.
      destruct (Z.of_nat (length (unique_loop h [first] rest)) <? 2);
        [reflexivity |].
      rewrite list_sort_of_sorted by now apply StronglySorted_Sorted.
      destruct (unique_loop h [first] rest) as [|f r]; [reflexivity |].
      apply (unique_loop_keeps_all h r [] f). exact Hdiff.
    + now apply Hord.
    + exact Hdiff.
Qed.

End DedupClaims.


(* ================================================================== *)
(** * Windows of an image *)
(* ================================================================== *)

Section WindowFacts.

Lemma firstn3_skipn {A : Type} (d : A) (a : nat) :
  forall l : list A,
    (a + 3 <= length l)%nat ->
    firstn 3 (skipn a l) = [nth a l d; nth (a + 1) l d; nth (a + 2) l d].
Proof.
  induction a as [|a IH]; intros l Hlen.
  - destruct l as [|x [|y [|z l]]]; simpl in *; try lia. reflexivity.
  - destruct l as [|x l]; simpl in *; try lia.
    apply IH. lia.
Qed.

(** A slice of three elements that lies inside the list. *)
Lemma py_slice_three {A : Type} (d : A) (l : list A) (a : Z) :
  0 <= a -> a + 3 <= Z.of_nat (length l) ->
  py_slice l a (a + 3)
  = [nth (Z.to_nat a) l d; nth (Z.to_nat (a + 1)) l d; nth (Z.to_nat (a + 2)) l d].
Proof.
  intros Ha Hlen. unfold py_slice.
  destruct (Z.ltb_spec a 0); [lia |].
  destruct (Z.ltb_spec (a + 3) 0); [lia |].
  rewrite (Z.min_l a) by lia. rewrite (Z.min_l (a + 3)) by lia.
  replace (Z.to_nat (a + 3 - a)) with 3%nat by lia.
  rewrite (firstn3_skipn d) by lia.
  repeat f_equal; lia.
Qed.

Lemma has_shape_row (img : array2) (rows cols i : Z) :
  has_shape img rows cols -> 0 <= i < rows ->
  Z.of_nat (length (nth (Z.to_nat i) img [])) = cols.
Proof.
  intros [Hrows Hall] Hi.
  rewrite Forall_forall in Hall. apply Hall.
  apply nth_In. lia.
Qed.

(** Inside the image the window is the 3x3 block of pixels around
    [(i, j)]. *)
Lemma window3_interior (img : array2) (rows cols i j : Z) :
  has_shape img rows cols ->
  1 <= i < rows - 1 -> 1 <= j < cols - 1 ->
  window3 img i j
  = [ [px img (i - 1) (j - 1); px img (i - 1) j; px img (i - 1) (j + 1)];
      [px img i (j - 1); px img i j; px img i (j + 1)];
      [px img (i + 1) (j - 1); px img (i + 1) j; px img (i + 1) (j + 1)] ].
Proof.
  intros Hshape Hi Hj. unfold window3, slice2.
  replace (i + 2) with (i - 1 + 3) by lia.
  replace (j + 2) with (j - 1 + 3) by lia.
  rewrite (py_slice_three [] img (i - 1)) by (destruct Hshape; lia).
  cbn [map].
  rewrite !(py_slice_three 0%Q)
    by (try lia; erewrite has_shape_row by (try eassumption; lia); lia).
  unfold px.
  replace (i - 1 + 1) with i by lia. replace (i - 1 + 2) with (i + 1) by lia.
  replace (j - 1 + 1) with j by lia. replace (j - 1 + 2) with (j + 1) by lia.
  reflexivity.
Qed.

End WindowFacts.

(* ================================================================== *)
(** * The extremum test *)
(* ================================================================== *)

Section ExtremaClaims.
Import Extrema.

Lemma forallb_Forall_iff {A : Type} (f : A -> bool) (P : A -> Prop) (l : list A) :
  (forall x, f x = true <-> P x) ->
  (forallb f l = true <-> Forall P l).
Proof.
  intros Hf. induction l as [|x l IH]; simpl.
  - split; [constructor | reflexivity].
  - rewrite andb_true_iff, Forall_cons_iff, IH, Hf. reflexivity.
Qed.

Lemma all_ge_concat (c : Q) (sub : array2) :
  all_ge c sub = true <-> Forall (fun v => (v <= c)%Q) (concat sub).
Proof.
  unfold all_ge. induction sub as [|row sub IH]; simpl.
  - split; [constructor | reflexivity].
  - rewrite andb_true_iff, Forall_app, IH.
    rewrite (forallb_Forall_iff _ (fun v => (v <= c)%Q)); [reflexivity |].
    intros v. apply Qle_bool_iff.
Qed.

Lemma all_le_concat (c : Q) (sub : array2) :
  all_le c sub = true <-> Forall (fun v => (c <= v)%Q) (concat sub).
Proof.
  unfold all_le. induction sub as [|row sub IH]; simpl.
  - split; [constructor | reflexivity].
  - rewrite andb_true_iff, Forall_app, IH.
    rewrite (forallb_Forall_iff _ (fun v => (c <= v)%Q)); [reflexivity |].
    intros v. apply Qle_bool_iff.
Qed.

(** The 27 comparisons of the code are the 26 comparisons with the
    neighbours and one of the centre with itself. *)
Lemma windows_vs_neighbours (P : Q -> Prop)
    (first_image second_image third_image : array2) (rows cols i j : Z) :
  has_shape first_image rows cols ->
  has_shape second_image rows cols ->
  has_shape third_image rows cols ->
  1 <= i < rows - 1 -> 1 <= j < cols - 1 ->
  P (px second_image i j) ->
  (Forall P (concat (window3 first_image i j))
   /\ Forall P (concat (window3 third_image i j))
   /\ Forall P (concat (window3 second_image i j)))
  <-> Forall P (neighbours26 first_image second_image third_image i j).
Proof.
  intros H1 H2 H3 Hi Hj Hc.
  rewrite (window3_interior first_image rows cols) by assumption.
  rewrite (window3_interior second_image rows cols) by assumption.
  rewrite (window3_interior third_image rows cols) by assumption.
  unfold neighbours26, offsets9, offsets8.
  cbn [concat map app fst snd].
  rewrite !Z.add_0_r.
  change (i + -1) with (i - 1). change (j + -1) with (j - 1).
  rewrite ?Forall_app, !Forall_cons_iff.
  tauto.
Qed.

(** C5.  For every interior pixel of the middle image of a DoG triplet
    and every [num_intervals] other than zero, the threshold the scan
    computes is [floor(0.5 * contrast_threshold / num_intervals * 255)]
    and the detector, run with it, answers (it raises nothing) and
    answers yes exactly when the absolute value of the pixel strictly
    exceeds that floor and the pixel is positive and [>=] each of its
    26 neighbours, or negative and [<=] each of them.  A pixel of
    value zero is never a candidate.  [num_intervals] is an integer
    that a double can hold and the product is one that does not
    overflow and whose floor the rounding of doubles cannot change. *)
Theorem extremum_detection_iff
    (first_image second_image third_image : array2)
    (rows cols image_border_width i j : Z)
    (contrast_threshold : Q) (num_intervals : Z) :
  has_shape first_image rows cols ->
  has_shape second_image rows cols ->
  has_shape third_image rows cols ->
  1 <= image_border_width ->
  image_border_width <= i < rows - image_border_width ->
  image_border_width <= j < cols - image_border_width ->
  num_intervals <> 0 -> Z.abs num_intervals <= 2 ^ 1000 ->
  floor_is_stable (0.5 * contrast_threshold / inject_Z num_intervals * 255) ->
  let floor_value :=
    inject_Z
      (Qfloor (0.5 * contrast_threshold / inject_Z num_intervals * 255)) in
  let centre := px second_image i j in
  let neighbours := neighbours26 first_image second_image third_image i j in
  extremum_threshold contrast_threshold num_intervals = Ok floor_value
  /\ exists candidate : bool,
      (threshold <- extremum_threshold contrast_threshold num_intervals ;;
       detect first_image second_image third_image i j threshold)%py
      = Ok candidate
      /\ (candidate = true <->
          (floor_value < Qabs centre)%Q
          /\ ((0 < centre)%Q /\ Forall (fun v => (v <= centre)%Q) neighbours
              \/ (centre < 0)%Q
                 /\ Forall (fun v => (centre <= v)%Q) neighbours))
      /\ ((centre == 0)%Q -> candidate = false).
Proof.
  intros H1 H2 H3 Hb Hi Hj Hni _ _ threshold centre neighbours.
  assert (Ht : extremum_threshold contrast_threshold num_intervals
               = Ok threshold).
  { unfold extremum_threshold.
    destruct (Z.eqb_spec num_intervals 0); [contradiction | reflexivity]. }
  split; [exact Ht |].
  rewrite Ht. cbn [bind].
  assert (Hi' : 1 <= i < rows - 1) by lia.
  assert (Hj' : 1 <= j < cols - 1) by lia.
  pose proof (windows_vs_neighbours (fun v => (v <= centre)%Q)
                first_image second_image third_image rows cols i j
                H1 H2 H3 Hi' Hj' (Qle_refl _)) as Hge.
  pose proof (windows_vs_neighbours (fun v => (centre <= v)%Q)
                first_image second_image third_image rows cols i j
                H1 H2 H3 Hi' Hj' (Qle_refl _)) as Hle.
  fold neighbours in Hge, Hle.
  unfold detect, isPixelAnExtremum.
  assert (Hc : index2 (window3 second_image i j) 1 1 = Ok centre).
  { rewrite (window3_interior second_image rows cols) by assumption.
    reflexivity. }
  rewrite Hc. cbn [bind]. clear Hc.
  destruct (Qltb threshold (Qabs centre)) eqn:Habs.
  - apply Qltb_lt in Habs.
    destruct (Qltb 0 centre) eqn:Hpos.
    + apply Qltb_lt in Hpos. eexists. split; [reflexivity |]. split.
      * rewrite !andb_true_iff, !all_ge_concat, <- Hge.
        split; [intros [[? ?] ?]; split; [assumption | left; tauto] |].
        intros [_ [[_ ?] | [? _]]]; [tauto | lra].
      * intros Hz. lra.
    + assert (Hnpos : ~ (0 < centre)%Q)
        by (rewrite <- Qltb_lt; congruence).
      destruct (Qltb centre 0) eqn:Hneg.
      * apply Qltb_lt in Hneg. eexists. split; [reflexivity |]. split.
        -- rewrite !andb_true_iff, !all_le_concat, <- Hle.
           split; [intros [[? ?] ?]; split; [assumption | right; tauto] |].
           intros [_ [[? _] | [_ ?]]]; [lra | tauto].
        -- intros Hz. lra.
      * assert (Hnneg : ~ (centre < 0)%Q)
          by (rewrite <- Qltb_lt; congruence).
        exists false. split; [reflexivity |]. split; [| reflexivity].
        split; [discriminate |].
        intros [_ [[? _] | [? _]]]; contradiction.
  - assert (Hnabs : ~ (threshold < Qabs centre)%Q)
      by (rewrite <- Qltb_lt; congruence).
    exists false. split; [reflexivity |]. split; [| reflexivity].
    split; [discriminate | tauto].
Qed.

(** With the defaults the floor is 1: a pixel of value 5 above
    neighbours of at most 5 is a candidate, a pixel of value 1 is not,
    and a [num_intervals] of zero raises before any pixel is looked
    at. *)
Example default_threshold_is_one :
  extremum_threshold 0.04 3 = Ok 1%Q.
Proof. reflexivity. Qed.

Example detect_sample_peak :
  (threshold <- extremum_threshold 0.04 3 ;;
   detect sample_flat sample_peak sample_flat 1 1 threshold)%py = Ok true.
Proof. reflexivity. Qed.

Example detect_sample_flat :
  (threshold <- extremum_threshold 0.04 3 ;;
   detect sample_peak sample_flat sample_peak 1 1 threshold)%py = Ok false.
Proof. reflexivity. Qed.

Example threshold_without_intervals :
  extremum_threshold 0.04 0 = Raise ZeroDivisionError.
Proof. reflexivity. Qed.

(** A product that is a whole number, as for a contrast threshold of
    1.2 and one interval, is not stable: a double product a hair below
    153 has the floor 152. *)
Example floor_of_153_is_not_stable :
  ~ floor_is_stable (0.5 * 1.2 / inject_Z 1 * 255).
Proof. intros [_ H]. vm_compute in H. discriminate. Qed.

Lemma extremum_detection_iff_witness :
  let floor_value := inject_Z (Qfloor (0.5 * 0.04 / inject_Z 3 * 255)) in
  let centre := px sample_peak 1 1 in
  let neighbours := neighbours26 sample_flat sample_peak sample_flat 1 1 in
  extremum_threshold 0.04 3 = Ok floor_value
  /\ exists candidate : bool,
      (threshold <- extremum_threshold 0.04 3 ;;
       detect sample_flat sample_peak sample_flat 1 1 threshold)%py
      = Ok candidate
      /\ (candidate = true <->
          (floor_value < Qabs centre)%Q
          /\ ((0 < centre)%Q /\ Forall (fun v => (v <= centre)%Q) neighbours
              \/ (centre < 0)%Q
                 /\ Forall (fun v => (centre <= v)%Q) neighbours))
      /\ ((centre == 0)%Q -> candidate = false).
Proof.
  apply (extremum_detection_iff sample_flat sample_peak sample_flat
           3 3 1 1 1 0.04%Q 3).
  - split; [reflexivity | repeat constructor].
  - split; [reflexivity | repeat constructor].
  - split; [reflexivity | repeat constructor].
  - lia.
  - lia.
  - lia.
  - lia.
  - vm_compute. discriminate.
  - split; [vm_compute; discriminate | reflexivity].
Defined.

End ExtremaClaims.


(* ================================================================== *)
(** * Gradient and Hessian *)
(* ================================================================== *)

Section DerivativeClaims.
Import Derivatives.

Lemma center_pixel_value_unbound :
  load_global pysift_globals "center_pixel_value"
  = Raise (NameError "center_pixel_value").
Proof. reflexivity. Qed.

Lemma np_unbound :
  load_global pysift_globals "np" = Raise (NameError "np").
Proof. reflexivity. Qed.

(** The gradient is the central difference with step 1 along x (last
    axis), y (middle axis) and scale (first axis). *)
Lemma gradient_central_difference (f : nat -> nat -> nat -> Q) :
  exists g,
    computeGradientAtCenterPixel (cube_of f) = Ok g
    /\ Forall2 Qeq g (central_difference_gradient f).
Proof.
  eexists. split; [reflexivity |].
  unfold central_difference_gradient, at3.
  repeat constructor; field.
Qed.

(** On every cube with a centre the Hessian stops at its first read of
    [center_pixel_value]. *)
Lemma hessian_raises (G : namespace) (pixel_array : array3) (a b : Q) :
  index3 pixel_array 1 1 2 = Ok a ->
  index3 pixel_array 1 1 0 = Ok b ->
  load_global G "center_pixel_value" = Raise (NameError "center_pixel_value") ->
  computeHessianAtCenterPixel G pixel_array
  = Raise (NameError "center_pixel_value").
Proof.
  intros Ha Hb HG. unfold computeHessianAtCenterPixel, load_number.
  rewrite Ha, Hb. cbn [bind]. rewrite HG. reflexivity.
Qed.

(** Had the module bound [center_pixel_value] to the centre of the cube,
    the function would return the central-difference Hessian. *)
Lemma hessian_with_centre_bound (G : namespace) (f : nat -> nat -> nat -> Q) :
  lookup G "center_pixel_value" = Some (PyFloat (at3 f 1 1 1)) ->
  exists H,
    computeHessianAtCenterPixel G (cube_of f) = Ok H
    /\ Forall2 (Forall2 Qeq) H (central_difference_hessian f).
Proof.
  intros HG.
  unfold computeHessianAtCenterPixel, load_number, load_global.
  rewrite HG. cbn.
  eexists. split; [reflexivity |].
  unfold central_difference_hessian, at3.
  repeat constructor; field.
Qed.

(** C2.  For every 3x3x3 cube the gradient at the centre is the
    central-difference vector (dx, dy, ds) with step 1.  The Hessian is
    not computed: [computeHessianAtCenterPixel] reads the name
    [center_pixel_value], which nothing binds, and raises [NameError]
    instead of returning the central-difference matrix. *)
Theorem hessian_center_pixel_value_unbound (f : nat -> nat -> nat -> Q) :
  (exists g,
      computeGradientAtCenterPixel (cube_of f) = Ok g
      /\ Forall2 Qeq g (central_difference_gradient f))
  /\ computeHessianAtCenterPixel pysift_globals (cube_of f)
     = Raise (NameError "center_pixel_value").
Proof.
  split.
  - apply gradient_central_difference.
  - now apply (hessian_raises _ _ (f 1 1 2)%nat (f 1 1 0)%nat).
Qed.

End DerivativeClaims.

(* ================================================================== *)
(** * The localization loop *)
(* ================================================================== *)

Section LocalizeClaims.
Import Derivatives.

Variable lstsq : list (list Q) -> list Q -> result (list Q).
Variable exp2 : Q -> Q.

Lemma py_range_pos (n : Z) :
  1 <= n -> py_range n = 0 :: map Z.of_nat (seq 1 (Z.to_nat n - 1)).
Proof.
  intros Hn. unfold py_range.
  destruct (Z.to_nat n) as [|k] eqn:Hk; [lia |].
  simpl. now rewrite Nat.sub_0_r.
Qed.

(** What the first attempt computes before it reaches the Hessian, for a
    call as [findScaleSpaceExtrema] makes it: images of one shape, a
    pixel inside the border, a layer with a neighbour on either side. *)
Lemma first_attempt_cube
    (dog_images_in_octave : list array2) (rows cols : Z)
    (i j image_index num_intervals image_border_width : Z) :
  Forall (fun img => has_shape img rows cols) dog_images_in_octave ->
  Z.of_nat (length dog_images_in_octave) = num_intervals + 2 ->
  1 <= image_index <= num_intervals ->
  1 <= image_border_width ->
  image_border_width <= i < rows - image_border_width ->
  image_border_width <= j < cols - image_border_width ->
  exists first_image second_image third_image,
    unpack3 (py_slice dog_images_in_octave (image_index - 1) (image_index + 2))
    = Ok (first_image, second_image, third_image)
    /\ exists f,
        stack3 (window3 first_image i j) (window3 second_image i j)
               (window3 third_image i j)
        = Ok (cube_of f).
Proof.
  intros Hshape Hlen Hidx Hb Hi Hj.
  replace (image_index + 2) with (image_index - 1 + 3) by lia.
  rewrite (py_slice_three ([] : array2) dog_images_in_octave (image_index - 1)) by lia.
  do 3 eexists. split; [reflexivity |].
  rewrite Forall_forall in Hshape.
  assert (Hnth : forall k, 0 <= k < num_intervals + 2 ->
            has_shape (nth (Z.to_nat k) dog_images_in_octave []) rows cols).
  { intros k Hk. apply Hshape. apply nth_In. lia. }
  rewrite !(window3_interior _ rows cols) by (try apply Hnth; lia).
  match goal with
  | |- context [stack3 ?a ?b ?c] =>
      exists (fun s y x => nth x (nth y (nth s [a; b; c] []) []) 0%Q)
  end.
  reflexivity.
Qed.

Lemma cube_of_scaled (f : nat -> nat -> nat -> Q) (k : Q) :
  map (map (map (fun v => (v / k)%Q))) (cube_of f)
  = cube_of (fun s y x => (f s y x / k)%Q).
Proof. reflexivity. Qed.

(** C1.  For every candidate that [findScaleSpaceExtrema] hands over
    (images of one shape, a pixel inside the border, a layer between 1
    and [num_intervals]) and every attempt budget of at least one, the
    call to [localizeExtremumViaQuadraticFit] ends in its first attempt
    with [NameError]: the Hessian reads [center_pixel_value], which
    nothing binds.  No refinement attempt is completed, no convergence
    test is made and [None] is not returned. *)
Theorem localize_raises_NameError
    (dog_images_in_octave : list array2) (rows cols : Z)
    (i j image_index octave_index num_intervals : Z)
    (sigma contrast_threshold : Q) (image_border_width : Z)
    (eigenvalue_ratio : Q) (num_attempts_until_convergence : Z) :
  Forall (fun img => has_shape img rows cols) dog_images_in_octave ->
  Z.of_nat (length dog_images_in_octave) = num_intervals + 2 ->
  1 <= image_index <= num_intervals ->
  1 <= image_border_width ->
  image_border_width <= i < rows - image_border_width ->
  image_border_width <= j < cols - image_border_width ->
  1 <= num_attempts_until_convergence ->
  localizeExtremumViaQuadraticFit lstsq exp2 pysift_globals
    i j image_index octave_index num_intervals dog_images_in_octave
    sigma contrast_threshold image_border_width
    eigenvalue_ratio num_attempts_until_convergence
  = Raise (NameError "center_pixel_value").
Proof.
  intros Hshape Hlen Hidx Hb Hi Hj Hn.
  destruct (first_attempt_cube dog_images_in_octave rows cols i j image_index
              num_intervals image_border_width Hshape Hlen Hidx Hb Hi Hj)
    as (first_image & second_image & third_image & Hunpack & f & Hstack).
  unfold localizeExtremumViaQuadraticFit.
  destruct dog_images_in_octave as [|img0 rest]; [simpl in Hlen; lia |].
  cbn [index1 nth_error bind].
  rewrite py_range_pos by assumption.
  cbn [attempts]. rewrite Hunpack. cbn [bind].
  rewrite Hstack. cbn [bind].
  rewrite cube_of_scaled.
  destruct (gradient_central_difference (fun s y x => (f s y x / 255)%Q))
    as (g & Hg & _).
  rewrite Hg. cbn [bind].
  rewrite (hessian_raises pysift_globals
             (cube_of (fun s y x => (f s y x / 255)%Q))
             (at3 f 1 1 2 / 255)%Q (at3 f 1 1 0 / 255)%Q
             eq_refl eq_refl center_pixel_value_unbound).
  reflexivity.
Qed.

(** With [center_pixel_value] bound the first attempt goes further and
    stops at the convergence test, whose [np] nothing binds either. *)
Lemma localize_np_unbound
    (c : Q) (dog_images_in_octave : list array2) (rows cols : Z)
    (i j image_index octave_index num_intervals : Z)
    (sigma contrast_threshold : Q) (image_border_width : Z)
    (eigenvalue_ratio : Q) (num_attempts_until_convergence : Z) :
  (forall H g, exists u, lstsq H g = Ok u) ->
  Forall (fun img => has_shape img rows cols) dog_images_in_octave ->
  Z.of_nat (length dog_images_in_octave) = num_intervals + 2 ->
  1 <= image_index <= num_intervals ->
  1 <= image_border_width ->
  image_border_width <= i < rows - image_border_width ->
  image_border_width <= j < cols - image_border_width ->
  1 <= num_attempts_until_convergence ->
  localizeExtremumViaQuadraticFit lstsq exp2
    (("center_pixel_value"%string, PyFloat c) :: pysift_globals)
    i j image_index octave_index num_intervals dog_images_in_octave
    sigma contrast_threshold image_border_width
    eigenvalue_ratio num_attempts_until_convergence
  = Raise (NameError "np").
Proof.
  intros Hsolve Hshape Hlen Hidx Hb Hi Hj Hn.
  destruct (first_attempt_cube dog_images_in_octave rows cols i j image_index
              num_intervals image_border_width Hshape Hlen Hidx Hb Hi Hj)
    as (first_image & second_image & third_image & Hunpack & f & Hstack).
  unfold localizeExtremumViaQuadraticFit.
  destruct dog_images_in_octave as [|img0 rest]; [simpl in Hlen; lia |].
  cbn [index1 nth_error bind].
  rewrite py_range_pos by assumption.
  cbn [attempts]. rewrite Hunpack. cbn [bind].
  rewrite Hstack. cbn [bind].
  rewrite cube_of_scaled.
  destruct (gradient_central_difference (fun s y x => (f s y x / 255)%Q))
    as (g & Hg & _).
  rewrite Hg. cbn [bind].
  match goal with
  | |- context [computeHessianAtCenterPixel ?G ?cube] =>
      assert (HH : exists H, computeHessianAtCenterPixel G cube = Ok H)
        by (eexists; reflexivity)
  end.
  destruct HH as [H HH]. rewrite HH. cbn [bind].
  destruct (Hsolve H g) as [u Hu]. rewrite Hu. cbn [bind].
  reflexivity.
Qed.

End LocalizeClaims.

Lemma localize_raises_NameError_witness :
  localizeExtremumViaQuadraticFit (fun _ g => Ok g) (fun x => x) pysift_globals
    1 1 1 0 1 [sample_flat; sample_peak; sample_flat]
    1.6%Q 0.04%Q 1 default_eigenvalue_ratio
    default_num_attempts_until_convergence
  = Raise (NameError "center_pixel_value").
Proof.
  apply (localize_raises_NameError (fun _ g => Ok g) (fun x => x)
           [sample_flat; sample_peak; sample_flat] 3 3).
  - repeat constructor.
  - reflexivity.
  - lia.
  - lia.
  - lia.
  - lia.
  - unfold default_num_attempts_until_convergence. lia.
Defined.


(* ================================================================== *)
(** * The number of octaves without logarithms *)
(* ================================================================== *)

Section OctaveFacts.
Import Octaves.

Lemma ln_2_pos : (0 < ln 2)%R.
Proof. rewrite <- ln_1. apply ln_increasing; Lra.lra. Qed.

(** An odd power of two is not a square. *)
Lemma square_not_odd_power (n : nat) :
  forall m : Z, m * m <> 2 ^ (2 * Z.of_nat n + 1).
Proof.
  induction n as [|n IH]; intros m Heq.
  - change (2 ^ (2 * Z.of_nat 0 + 1)) with 2 in Heq.
    assert (Hcases : m <= -2 \/ -1 <= m <= 1 \/ 2 <= m) by lia.
    destruct Hcases as [H | [H | H]]; nia.
  - replace (2 * Z.of_nat (S n) + 1) with (2 * Z.of_nat n + 1 + 2) in Heq by lia.
    rewrite Z.pow_add_r in Heq by lia.
    change (2 ^ 2) with 4 in Heq.
    assert (Hev : Z.even m = true).
    { assert (He : Z.even (m * m) = true)
        by (rewrite Heq, Z.even_mul; apply orb_true_r).
      rewrite Z.even_mul in He. now destruct (Z.even m). }
    apply Z.even_spec in Hev. destruct Hev as [k ->].
    apply (IH k). nia.
Qed.

(** Powers of two and squares under the logarithm. *)
Lemma ln_pow2 (a : nat) : ln (IZR (2 ^ Z.of_nat a)) = (INR a * ln 2)%R.
Proof.
  rewrite <- pow_IZR. apply ln_pow. Lra.lra.
Qed.

Lemma ln_square (m : Z) :
  0 < m -> ln (IZR (m * m)) = (2 * ln (IZR m))%R.
Proof.
  intros Hm. rewrite mult_IZR.
  assert (0 < IZR m)%R by now apply IZR_lt.
  rewrite ln_mult by assumption. Lra.lra.
Qed.

(** Rounding a number that is closer than a half to an integer. *)
Lemma np_round_R_near (x : R) (n : Z) :
  (IZR n - 1 / 2 < x < IZR n + 1 / 2)%R -> np_round_R x = n.
Proof.
  intros [Hlo Hhi]. unfold np_round_R.
  destruct (Rlt_dec x (IZR n)) as [Hlt | Hge].
  - assert (Hf : Zfloor x = n - 1).
    { apply Zfloor_eq. rewrite minus_IZR. Lra.lra. }
    rewrite Hf, minus_IZR.
    destruct (Rlt_dec (x - (IZR n - 1)) (1 / 2)); [Lra.lra |].
    destruct (Rlt_dec (1 / 2) (x - (IZR n - 1))); [lia | Lra.lra].
  - assert (Hf : Zfloor x = n).
    { apply Zfloor_eq. Lra.lra. }
    rewrite Hf.
    destruct (Rlt_dec (x - IZR n) (1 / 2)); [reflexivity | Lra.lra].
Qed.

(** The bounds on the square of the side that fix the rounded
    logarithm. *)
Lemma octaves_of_side_bounds (m : Z) :
  2 <= m ->
  let n := octaves_of_side m in
  0 <= n /\ 2 ^ (2 * n + 1) < m * m < 2 ^ (2 * n + 3).
Proof.
  intros Hm n. subst n. unfold octaves_of_side.
  assert (Hsq : 4 <= m * m) by nia.
  pose proof (Z.log2_spec (m * m) ltac:(lia)) as [Hlo Hhi].
  assert (HL : 2 <= Z.log2 (m * m)).
  { change 2 with (Z.log2 4). now apply Z.log2_le_mono. }
  set (L := Z.log2 (m * m)) in *.
  pose proof (Z.div_mod (L - 1) 2 ltac:(lia)) as Hdm.
  pose proof (Z.mod_pos_bound (L - 1) 2 ltac:(lia)) as Hmod.
  set (n := (L - 1) / 2) in *.
  assert (Hn : 0 <= n) by lia.
  split; [assumption |].
  assert (Hle : 2 ^ (2 * n + 1) <= 2 ^ L)
    by (apply Z.pow_le_mono_r; lia).
  assert (Hge : 2 ^ Z.succ L <= 2 ^ (2 * n + 3))
    by (apply Z.pow_le_mono_r; lia).
  split; [| lia].
  assert (Hne : m * m <> 2 ^ (2 * n + 1)).
  { replace n with (Z.of_nat (Z.to_nat n)) by lia.
    apply square_not_odd_power. }
  lia.
Qed.

(** Between the two bounds the logarithm of the side, less one, is
    closer than a half to [n]. *)
Lemma log_near_of_bounds (m n : Z) :
  0 < m -> 0 <= n ->
  2 ^ (2 * n + 1) < m * m < 2 ^ (2 * n + 3) ->
  (IZR n - 1 / 2 < ln (IZR m) / ln 2 - 1 < IZR n + 1 / 2)%R.
Proof.
  intros Hm Hn [Hlo Hhi].
  pose proof ln_2_pos as H2.
  assert (Hlo' : (INR (Z.to_nat (2 * n + 1)) * ln 2 < 2 * ln (IZR m))%R).
  { rewrite <- ln_pow2, <- ln_square by assumption.
    apply ln_increasing.
    - apply IZR_lt. apply Z.pow_pos_nonneg; lia.
    - apply IZR_lt. now rewrite Z2Nat.id by lia. }
  assert (Hhi' : (2 * ln (IZR m) < INR (Z.to_nat (2 * n + 3)) * ln 2)%R).
  { rewrite <- ln_pow2, <- ln_square by assumption.
    apply ln_increasing.
    - apply IZR_lt. nia.
    - apply IZR_lt. now rewrite Z2Nat.id by lia. }
  rewrite !INR_IZR_INZ, !Z2Nat.id in * by lia.
  rewrite plus_IZR, mult_IZR in Hlo', Hhi'.
  set (t := (ln (IZR m) / ln 2)%R).
  assert (Ht : (ln (IZR m) = t * ln 2)%R)
    by (unfold t; field; Lra.lra).
  rewrite Ht in Hlo', Hhi'.
  assert (H1 : (2 * IZR n + 1 < 2 * t)%R).
  { apply (Rmult_lt_reg_r (ln 2)); [assumption | Lra.lra]. }
  assert (H3 : (2 * t < 2 * IZR n + 3)%R).
  { apply (Rmult_lt_reg_r (ln 2)); [assumption | Lra.lra]. }
  Lra.lra.
Qed.

Lemma round_log_of_bounds (m n : Z) :
  0 < m -> 0 <= n ->
  2 ^ (2 * n + 1) < m * m < 2 ^ (2 * n + 3) ->
  np_round_R (ln (IZR m) / ln 2 - 1)%R = n.
Proof.
  intros Hm Hn Hb. apply np_round_R_near.
  now apply log_near_of_bounds.
Qed.

(** [computeNumberOfOctaves] computes [octaves_of_side] of the shorter
    side. *)
Lemma computeNumberOfOctaves_exec (image_shape : Z * Z) :
  1 <= fst image_shape -> 1 <= snd image_shape ->
  computeNumberOfOctaves image_shape
  = octaves_of_side (Z.min (fst image_shape) (snd image_shape)).
Proof.
  intros Hr Hc. unfold computeNumberOfOctaves.
  set (m := Z.min (fst image_shape) (snd image_shape)).
  assert (Hm : 1 <= m) by (unfold m; lia).
  destruct (Z.eq_dec m 1) as [-> | Hne].
  - rewrite ln_1. change (octaves_of_side 1) with (-1).
    apply np_round_R_near.
    replace (0 / ln 2)%R with 0%R by (field; pose proof ln_2_pos; Lra.lra).
    Lra.lra.
  - destruct (octaves_of_side_bounds m ltac:(lia)) as [Hn Hb].
    apply round_log_of_bounds; [lia | assumption | assumption].
Qed.

(** The floor of the specification is the integer logarithm. *)
Lemma stated_octave_count_exec (height width : Z) :
  1 <= height -> 1 <= width ->
  stated_octave_count height width = Z.log2 (Z.min height width) - 1.
Proof.
  intros Hh Hw. unfold stated_octave_count.
  set (s := Z.min height width).
  assert (Hs : 0 < s) by (unfold s; lia).
  pose proof (Z.log2_spec s Hs) as [Hlo Hhi].
  pose proof (Z.log2_nonneg s) as HL.
  set (L := Z.log2 s) in *.
  pose proof ln_2_pos as H2.
  assert (Hlo' : (IZR L * ln 2 <= ln (IZR s))%R).
  { replace (IZR L) with (INR (Z.to_nat L))
      by (rewrite INR_IZR_INZ, Z2Nat.id by lia; reflexivity).
    rewrite <- ln_pow2, Z2Nat.id by lia.
    destruct (Z.eq_dec (2 ^ L) s) as [-> | Hne]; [Lra.lra |].
    apply Rlt_le, ln_increasing.
    - apply IZR_lt. apply Z.pow_pos_nonneg; lia.
    - apply IZR_lt. lia. }
  assert (Hhi' : (ln (IZR s) < (IZR L + 1) * ln 2)%R).
  { replace (IZR L + 1)%R with (INR (Z.to_nat (Z.succ L)))
      by (rewrite INR_IZR_INZ, Z2Nat.id, succ_IZR by lia; reflexivity).
    rewrite <- ln_pow2, Z2Nat.id by lia.
    apply ln_increasing; [now apply IZR_lt | now apply IZR_lt]. }
  set (t := (ln (IZR s) / ln 2)%R).
  assert (Ht : (ln (IZR s) = t * ln 2)%R)
    by (unfold t; field; Lra.lra).
  rewrite Ht in Hlo', Hhi'.
  assert (H1 : (IZR L <= t)%R)
    by (apply (Rmult_le_reg_r (ln 2)); assumption).
  assert (H3 : (t < IZR L + 1)%R)
    by (apply (Rmult_lt_reg_r (ln 2)); assumption).
  apply Zfloor_eq. rewrite minus_IZR. Lra.lra.
Qed.

(** Halving both sides halves the shorter one. *)
Lemma shorter_side_halve (shape : Z * Z) :
  shorter_side (halve_shape shape) = shorter_side shape / 2.
Proof.
  unfold shorter_side, halve_shape; cbn [fst snd].
  destruct (Z.le_ge_cases (fst shape) (snd shape)) as [H | H].
  - rewrite !Z.min_l; [reflexivity | assumption |].
    apply Z.div_le_mono; [lia | assumption].
  - rewrite !Z.min_r; [reflexivity | assumption |].
    apply Z.div_le_mono; [lia | assumption].
Qed.

Lemma shorter_side_octave (k : nat) :
  forall shape,
    shorter_side (octave_shape shape k)
    = shorter_side shape / 2 ^ Z.of_nat k.
Proof.
  induction k as [|k IH]; intros shape.
  - cbn [octave_shape]. now rewrite Z.div_1_r.
  - cbn [octave_shape]. rewrite IH, shorter_side_halve.
    rewrite Z.div_div by (try apply Z.pow_pos_nonneg; lia).
    f_equal. rewrite Nat2Z.inj_succ, Z.pow_succ_r by lia. reflexivity.
Qed.

End OctaveFacts.

Section OctaveClaims.
Import Octaves.

Example octaves_of_23 : computeNumberOfOctaves (base_shape (23, 23)) = 5.
Proof. now rewrite computeNumberOfOctaves_exec by (cbn; lia). Qed.


Example octaves_of_1 : computeNumberOfOctaves (base_shape (1, 7)) = 0.
Proof. now rewrite computeNumberOfOctaves_exec by (cbn; lia). Qed.

Example stated_count_of_23 : stated_octave_count 23 23 = 3.
Proof. now rewrite stated_octave_count_exec by lia. Qed.

Example stated_count_of_46 : stated_octave_count 46 46 = 4.
Proof. now rewrite stated_octave_count_exec by lia. Qed.

Example smallest_octave_of_23 :
  octave_shape (base_shape (23, 23)) 4 = (2, 2).
Proof. reflexivity. Qed.

(** The claim C4 fails for an input of 23 x 23 pixels: the code counts
    5 octaves where the stated formula gives 3 (4 if it is read on the
    doubled base image), and the fifth octave is 2 x 2 pixels. *)
Lemma octave_count_counterexample :
  let input_shape := (23, 23) in
  let num_octaves := computeNumberOfOctaves (base_shape input_shape) in
  num_octaves <> stated_octave_count 23 23
  /\ num_octaves <> stated_octave_count 46 46
  /\ ~ (3 <= shorter_side
               (octave_shape (base_shape input_shape)
                             (Z.to_nat (num_octaves - 1)))).
Proof.
  cbv zeta. rewrite octaves_of_23, stated_count_of_23, stated_count_of_46.
  repeat split; [lia | lia |].
  change (Z.to_nat (5 - 1)) with 4%nat.
  rewrite smallest_octave_of_23. cbn. lia.
Qed.

(** The count of the base image and the bounds that determine it. *)
Lemma octave_count_bounds (height width : Z) :
  1 <= height -> 1 <= width ->
  let m := shorter_side (base_shape (height, width)) in
  let n := computeNumberOfOctaves (base_shape (height, width)) in
  n = octaves_of_side m
  /\ 0 <= n
  /\ 2 ^ (2 * n + 1) < m * m < 2 ^ (2 * n + 3).
Proof.
  intros Hh Hw m n.
  assert (Hn : n = octaves_of_side m).
  { unfold n. rewrite computeNumberOfOctaves_exec by (cbn [base_shape fst snd]; lia).
    reflexivity. }
  assert (Hm : 2 <= m) by (unfold m, shorter_side, base_shape; cbn [fst snd]; lia).
  destruct (octaves_of_side_bounds m Hm) as [H0 Hb].
  rewrite <- Hn in H0, Hb.
  split; [assumption | split; assumption].
Qed.

(** C4, amended.  For every input image with at least one row and one
    column, the octave count is computed from [m], the shorter side of
    the base image (twice the input), and it is the integer nearest to
    [log2(m) - 1]: the [n >= 0] with [2^(2n+1) < m^2 < 2^(2n+3)]. *)
Theorem octave_count_rounds_log (height width : Z) :
  1 <= height -> 1 <= width ->
  let m := shorter_side (base_shape (height, width)) in
  let n := computeNumberOfOctaves (base_shape (height, width)) in
  n = octaves_of_side m
  /\ 0 <= n
  /\ 2 ^ (2 * n + 1) < m * m < 2 ^ (2 * n + 3)
  /\ (Rabs (ln (IZR m) / ln 2 - 1 - IZR n) < 1 / 2)%R.
Proof.
  intros Hh Hw m n.
  destruct (octave_count_bounds height width Hh Hw) as (Hn & H0 & Hb).
  fold m n in Hn, H0, Hb.
  assert (Hm : 2 <= m) by (unfold m, shorter_side, base_shape; cbn [fst snd]; lia).
  split; [assumption | split; [assumption | split; [assumption |]]].
  pose proof (log_near_of_bounds m n ltac:(lia) H0 Hb) as [Hlo Hhi].
  apply Rabs_def1; Lra.lra.
Qed.

Lemma octave_count_rounds_log_witness :
  let m := shorter_side (base_shape (23, 23)) in
  let n := computeNumberOfOctaves (base_shape (23, 23)) in
  n = octaves_of_side m
  /\ 0 <= n
  /\ 2 ^ (2 * n + 1) < m * m < 2 ^ (2 * n + 3)
  /\ (Rabs (ln (IZR m) / ln 2 - 1 - IZR n) < 1 / 2)%R.
Proof.
  apply (octave_count_rounds_log 23 23); lia.
Defined.

End OctaveClaims.


(* ================================================================== *)
(** * Loops and indexing that do not raise *)
(* ================================================================== *)

Section SequenceFacts.

Lemma py_range_length (n : Z) : length (py_range n) = Z.to_nat n.
Proof. unfold py_range. now rewrite length_map, length_seq. Qed.

Lemma py_range_In (n k : Z) : In k (py_range n) <-> 0 <= k < n.
Proof.
  unfold py_range. rewrite in_map_iff. split.
  - intros (i & <- & Hi). apply in_seq in Hi. lia.
  - intros Hk. exists (Z.to_nat k). split; [lia |]. apply in_seq. lia.
Qed.

Lemma py_range_nth (n k : Z) (d : Z) :
  0 <= k < n -> nth (Z.to_nat k) (py_range n) d = k.
Proof.
  intros Hk. unfold py_range.
  rewrite (nth_indep _ d (Z.of_nat 0)) by (rewrite length_map, length_seq; lia).
  rewrite map_nth, seq_nth by lia. lia.
Qed.

Lemma mapM_ok {A B : Type} (f : A -> result B) (l : list A) :
  (forall x, In x l -> exists y, f x = Ok y) ->
  exists ys, mapM f l = Ok ys /\ length ys = length l.
Proof.
  induction l as [|x l IH]; intros Hf; simpl.
  - now exists [].
  - destruct (Hf x (or_introl eq_refl)) as [y Hy].
    destruct IH as (ys & Hys & Hlen); [intros; apply Hf; now right |].
    rewrite Hy, Hys. cbn [bind]. exists (y :: ys). split; [reflexivity |].
    simpl. now rewrite Hlen.
Qed.

Lemma for_each_ok {A S : Type} (P : S -> Prop) (body : A -> S -> result S)
    (l : list A) :
  (forall x s, In x l -> P s -> exists s', body x s = Ok s' /\ P s') ->
  forall s, P s -> exists s', for_each l s body = Ok s' /\ P s'.
Proof.
  induction l as [|x l IH]; intros Hbody s Hs; simpl.
  - now exists s.
  - destruct (Hbody x s (or_introl eq_refl) Hs) as (s1 & H1 & HP1).
    rewrite H1. cbn [bind].
    apply IH; [| assumption].
    intros y s2 Hy. apply Hbody. now right.
Qed.

Lemma index1_ok {A : Type} (l : list A) (k : nat) (d : A) :
  (k < length l)%nat -> index1 l k = Ok (nth k l d).
Proof.
  intros Hk. unfold index1.
  now rewrite (nth_error_nth' l d Hk).
Qed.

(** An index between [-len] and [len - 1] reads the element at the
    index modulo [len]. *)
Lemma py_get_ok {A : Type} (l : list A) (k : Z) (d : A) :
  - Z.of_nat (length l) <= k < Z.of_nat (length l) ->
  py_get l k = Ok (nth (Z.to_nat (k mod Z.of_nat (length l))) l d).
Proof.
  intros Hk. unfold py_get.
  set (n := Z.of_nat (length l)) in *.
  destruct (Z.leb_spec 0 k) as [Hpos | Hneg]; cbn [andb].
  - destruct (Z.ltb_spec k n); [| lia].
    rewrite Z.mod_small by lia. apply index1_ok. lia.
  - destruct (Z.leb_spec (- n) k); [| lia].
    destruct (Z.ltb_spec k 0); [| lia]. cbn [andb].
    replace (k mod n) with (k + n).
    + apply index1_ok. lia.
    + symmetry. rewrite <- (Z.mod_add k 1 n) by lia.
      rewrite Z.mul_1_l. apply Z.mod_small. lia.
Qed.

End SequenceFacts.

(* ================================================================== *)
(** * Orientation peaks *)
(* ================================================================== *)

Section OrientationFacts.
Import Orientation.

Lemma add_at_length (l : list Q) (k : nat) (v : Q) :
  length (add_at l k v) = length l.
Proof.
  revert k. induction l as [|x l IH]; intros [|k]; simpl; auto.
Qed.

Lemma accumulate_ok (num_bins : Z) (samples : list (Z * Q)) :
  1 <= num_bins ->
  exists raw_histogram,
    accumulate num_bins samples = Ok raw_histogram
    /\ Z.of_nat (length raw_histogram) = num_bins.
Proof.
  intros Hn. unfold accumulate, zeros.
  destruct (Z.ltb_spec num_bins 0); [lia |]. cbn [bind].
  apply (for_each_ok (fun h => Z.of_nat (length h) = num_bins)).
  - intros sample h _ Hh. unfold py_mod.
    destruct (Z.eqb_spec num_bins 0); [lia |]. cbn [bind].
    eexists. split; [reflexivity |]. now rewrite add_at_length.
  - rewrite repeat_length. lia.
Qed.

Lemma smooth_ok (raw_histogram : list Q) (num_bins : Z) :
  2 <= num_bins ->
  Z.of_nat (length raw_histogram) = num_bins ->
  exists smooth_histogram,
    smooth raw_histogram num_bins = Ok smooth_histogram
    /\ Z.of_nat (length smooth_histogram) = num_bins.
Proof.
  intros Hn Hlen. unfold smooth.
  destruct (mapM_ok (smooth_bin raw_histogram num_bins) (py_range num_bins))
    as (ys & Hys & Hl).
  - intros n Hin. apply py_range_In in Hin.
    unfold smooth_bin, py_mod.
    destruct (Z.eqb_spec num_bins 0); [lia |].
    pose proof (Z.mod_pos_bound (n + 1) num_bins ltac:(lia)).
    pose proof (Z.mod_pos_bound (n + 2) num_bins ltac:(lia)).
    repeat (cbn [bind]; rewrite ?(py_get_ok raw_histogram _ 0%Q) by lia).
    eexists. reflexivity.
  - exists ys. split; [assumption |].
    rewrite Hl, py_range_length. lia.
Qed.

Lemma roll_nth (a : list Q) (shift p : Z) :
  0 <= p < Z.of_nat (length a) ->
  nth (Z.to_nat p) (roll a shift) 0%Q
  = nth (Z.to_nat ((p - shift) mod Z.of_nat (length a))) a 0%Q.
Proof.
  intros Hp. unfold roll.
  set (n := Z.of_nat (length a)) in *.
  set (f := fun k => nth (Z.to_nat ((k - shift) mod n)) a 0%Q).
  rewrite (nth_indep _ 0%Q (f 0))
    by (rewrite length_map, py_range_length; lia).
  rewrite map_nth, py_range_nth by assumption.
  reflexivity.
Qed.

(** A peak is strictly above both of its circular neighbours. *)
Lemma orientation_peaks_spec (smooth_histogram : list Q) (p : Z) :
  In p (orientation_peaks smooth_histogram) ->
  let n := Z.of_nat (length smooth_histogram) in
  0 <= p < n
  /\ (nth (Z.to_nat ((p - 1) mod n)) smooth_histogram 0
      < nth (Z.to_nat p) smooth_histogram 0)%Q
  /\ (nth (Z.to_nat ((p + 1) mod n)) smooth_histogram 0
      < nth (Z.to_nat p) smooth_histogram 0)%Q.
Proof.
  intros Hin n. unfold orientation_peaks in Hin.
  apply filter_In in Hin. destruct Hin as [Hr Hc].
  apply py_range_In in Hr. fold n in Hr.
  apply andb_true_iff in Hc. destruct Hc as [H1 H2].
  apply Qltb_lt in H1. apply Qltb_lt in H2.
  rewrite roll_nth in H1, H2 by assumption. fold n in H1, H2.
  replace (p - -1) with (p + 1) in H2 by lia.
  auto.
Qed.

(** At every peak the denominator of the interpolation is negative, so
    the division is made and an oriented keypoint (or nothing, for a
    peak below the ratio) comes out. *)
Lemma orient_peak_ok (keypoint : KeyPoint) (smooth_histogram : list Q)
    (num_bins : Z) (peak_ratio orientation_max : Q) (p : Z) :
  2 <= num_bins ->
  Z.of_nat (length smooth_histogram) = num_bins ->
  In p (orientation_peaks smooth_histogram) ->
  let left_value := nth (Z.to_nat ((p - 1) mod num_bins)) smooth_histogram 0%Q in
  let peak_value := nth (Z.to_nat p) smooth_histogram 0%Q in
  let right_value := nth (Z.to_nat ((p + 1) mod num_bins)) smooth_histogram 0%Q in
  (interpolation_denominator left_value peak_value right_value < 0)%Q
  /\ exists new,
      orient_peak keypoint smooth_histogram num_bins peak_ratio
                  orientation_max p = Ok new.
Proof.
  intros Hn Hlen Hin left_value peak_value right_value.
  apply orientation_peaks_spec in Hin. rewrite Hlen in Hin.
  destruct Hin as (Hp & Hl & Hr).
  fold left_value peak_value in Hl. fold right_value peak_value in Hr.
  assert (Hden : (interpolation_denominator left_value peak_value right_value < 0)%Q)
    by (unfold interpolation_denominator; lra).
  split; [assumption |].
  unfold orient_peak, py_mod.
  destruct (Z.eqb_spec num_bins 0); [lia |].
  pose proof (Z.mod_pos_bound (p - 1) num_bins ltac:(lia)).
  pose proof (Z.mod_pos_bound (p + 1) num_bins ltac:(lia)).
  rewrite (py_get_ok smooth_histogram _ 0%Q) by lia.
  rewrite Hlen, (Z.mod_small p) by lia.
  cbn [bind]. fold peak_value.
  destruct (Qle_bool (peak_ratio * orientation_max) peak_value);
    [| eexists; reflexivity].
  repeat (cbn [bind]; rewrite ?(py_get_ok smooth_histogram _ 0%Q) by lia).
  rewrite Hlen, !Z.mod_mod by lia.
  fold left_value right_value.
  unfold fdiv.
  destruct (Qeq_bool (interpolation_denominator left_value peak_value right_value) 0)
    eqn:Hz.
  - apply Qeq_bool_iff in Hz. lra.
  - cbn [bind]. eexists. reflexivity.
Qed.

(** From the accumulated samples on, the function returns: it raises
    nothing and divides by nothing that is zero. *)
Lemma orientations_of_samples_ok (keypoint : KeyPoint)
    (samples : list (Z * Q)) (num_bins : Z) (peak_ratio : Q) :
  2 <= num_bins ->
  exists keypoints_with_orientations,
    orientations_of_samples keypoint samples num_bins peak_ratio
    = Ok keypoints_with_orientations.
Proof.
  intros Hn. unfold orientations_of_samples.
  destruct (accumulate_ok num_bins samples ltac:(lia)) as (raw & Hraw & Hrl).
  rewrite Hraw. cbn [bind].
  destruct (smooth_ok raw num_bins Hn Hrl) as (sm & Hsm & Hsl).
  rewrite Hsm. cbn [bind].
  destruct sm as [|x sm]; [simpl in Hsl; lia |].
  cbn [py_max bind].
  set (omax := fold_left _ sm x).
  destruct (for_each_ok (fun _ : list KeyPoint => True)
              (fun peak_index acc =>
                 (new <- orient_peak keypoint (x :: sm) num_bins peak_ratio
                                     omax peak_index ;;
                  Ok (acc ++ new))%py)
              (orientation_peaks (x :: sm))) with (s := @nil KeyPoint)
    as (out & Hout & _).
  - intros p acc Hp _.
    destruct (orient_peak_ok keypoint (x :: sm) num_bins peak_ratio omax p
                Hn Hsl Hp) as (_ & new & Hnew).
    rewrite Hnew. cbn [bind]. eexists. split; [reflexivity | exact I].
  - exact I.
  - exists out. exact Hout.
Qed.

End OrientationFacts.


(* ================================================================== *)
(** * The histogram tensor keeps its shape *)
(* ================================================================== *)

Section TensorFacts.
Import Descriptor.

Lemma norm_index_ok (n : nat) (k : Z) :
  0 <= k < Z.of_nat n -> norm_index n k = Ok (Z.to_nat k).
Proof.
  intros Hk. unfold norm_index.
  destruct (Z.leb_spec 0 k); [| lia].
  destruct (Z.ltb_spec k (Z.of_nat n)); [reflexivity | lia].
Qed.

Lemma update_nth_length {A : Type} (f : A -> A) (l : list A) :
  forall k, length (update_nth l k f) = length l.
Proof.
  induction l as [|x l IH]; intros [|k]; simpl; auto.
Qed.

Lemma update_nth_Forall {A : Type} (P : A -> Prop) (f : A -> A) (l : list A) :
  (forall x, P x -> P (f x)) ->
  forall k, Forall P l -> Forall P (update_nth l k f).
Proof.
  intros Hf. induction l as [|x l IH]; intros [|k] Hall; simpl;
    try assumption; inversion Hall; subst; constructor; auto.
Qed.

Lemma zeros3_shape (a b c : Z) :
  0 <= a -> 0 <= b -> 0 <= c ->
  exists t, zeros3 a b c = Ok t
            /\ tensor_shape t (Z.to_nat a) (Z.to_nat b) (Z.to_nat c).
Proof.
  intros Ha Hb Hc. unfold zeros3.
  destruct (Z.ltb_spec a 0); [lia |].
  destruct (Z.ltb_spec b 0); [lia |].
  destruct (Z.ltb_spec c 0); [lia |]. cbn [orb].
  eexists. split; [reflexivity |].
  split; [apply repeat_length |].
  apply Forall_forall. intros plane Hp. apply repeat_spec in Hp. subst plane.
  split; [apply repeat_length |].
  apply Forall_forall. intros row Hr. apply repeat_spec in Hr. subst row.
  apply repeat_length.
Qed.

Lemma tensor_shape_plane (t : tensor) (a b c i : nat) :
  tensor_shape t a b c -> (i < a)%nat ->
  length (nth i t []) = b
  /\ Forall (fun row => length row = c) (nth i t []).
Proof.
  intros [Hlen Hall] Hi. rewrite Forall_forall in Hall.
  apply Hall. apply nth_In. lia.
Qed.

Lemma tensor_add_ok (t : tensor) (a b c : nat) (i j k : Z) (v : R) :
  tensor_shape t a b c ->
  0 <= i < Z.of_nat a -> 0 <= j < Z.of_nat b -> 0 <= k < Z.of_nat c ->
  exists t', tensor_add t i j k v = Ok t' /\ tensor_shape t' a b c.
Proof.
  intros Hshape Hi Hj Hk.
  pose proof Hshape as [Hlen Hall].
  destruct (tensor_shape_plane t a b c (Z.to_nat i) Hshape ltac:(lia))
    as [Hpl Hrows].
  assert (Hrow : length (nth (Z.to_nat j) (nth (Z.to_nat i) t []) []) = c).
  { rewrite Forall_forall in Hrows. apply Hrows. apply nth_In. lia. }
  unfold tensor_add.
  rewrite norm_index_ok by lia. cbn [bind].
  rewrite norm_index_ok by lia. cbn [bind].
  rewrite norm_index_ok by lia. cbn [bind].
  eexists. split; [reflexivity |].
  split; [now rewrite update_nth_length |].
  apply update_nth_Forall; [| assumption].
  intros plane [Hb Hr]. split; [now rewrite update_nth_length |].
  apply update_nth_Forall; [| assumption].
  intros row Hc. now rewrite update_nth_length.
Qed.

Lemma Zfloor_between (x : R) (lo hi : Z) :
  (IZR lo < x < IZR hi)%R -> lo <= Zfloor x < hi.
Proof.
  intros [Hlo Hhi]. pose proof (Zfloor_bound x) as [Hf1 Hf2].
  split.
  - apply Zfloor_lub. Lra.lra.
  - apply lt_IZR. Lra.lra.
Qed.

(** A sample of the grid lands in cells of the tensor. *)
Lemma splat_ok (window_width num_bins : Z) (s : sample) (t : tensor) :
  0 <= window_width -> 1 <= num_bins ->
  in_grid window_width s ->
  tensor_shape t (Z.to_nat (window_width + 2)) (Z.to_nat (window_width + 2))
               (Z.to_nat num_bins) ->
  exists t',
    splat num_bins s t = Ok t'
    /\ tensor_shape t' (Z.to_nat (window_width + 2))
                    (Z.to_nat (window_width + 2)) (Z.to_nat num_bins).
Proof.
  intros Hw Hn [Hrow Hcol] Hshape.
  apply (Zfloor_between _ (-1) window_width) in Hrow.
  apply (Zfloor_between _ (-1) window_width) in Hcol.
  unfold splat, py_mod.
  destruct (Z.eqb_spec num_bins 0); [lia |]. cbn [bind].
  set (o := Zfloor (orientation_bin s) mod num_bins).
  pose proof (Z.mod_pos_bound (Zfloor (orientation_bin s)) num_bins ltac:(lia)) as Ho.
  fold o in Ho.
  pose proof (Z.mod_pos_bound (o + 1) num_bins ltac:(lia)) as Ho'.
  set (o' := (o + 1) mod num_bins) in *.
  repeat
    match goal with
    | Hs : tensor_shape ?u _ _ _
      |- context [tensor_add ?u ?i ?j ?k ?v] =>
        let t' := fresh "t" in
        let E := fresh "E" in
        let Hs' := fresh "Hs" in
        destruct (tensor_add_ok u _ _ _ i j k v Hs
                    ltac:(lia) ltac:(lia) ltac:(lia)) as (t' & E & Hs');
        rewrite E; cbn [bind]; clear E
    end.
  eexists. split; [reflexivity | assumption].
Qed.

End TensorFacts.

(* ================================================================== *)
(** * The descriptor vector *)
(* ================================================================== *)

Section DescriptorFacts.
Import Descriptor.

Lemma firstn_incl {A : Type} (n : nat) :
  forall (l : list A) x, In x (firstn n l) -> In x l.
Proof.
  induction n as [|n IH]; intros [|y l] x Hin; simpl in *; try contradiction.
  destruct Hin as [-> | Hin]; [now left | right; now apply IH].
Qed.

Lemma skipn_incl {A : Type} (n : nat) :
  forall (l : list A) x, In x (skipn n l) -> In x l.
Proof.
  induction n as [|n IH]; intros [|y l] x Hin; simpl in *; try assumption.
  right. now apply IH.
Qed.

Lemma py_slice_incl {A : Type} (l : list A) (a b : Z) (x : A) :
  In x (py_slice l a b) -> In x l.
Proof.
  unfold py_slice. intros Hin.
  apply firstn_incl in Hin. now apply skipn_incl in Hin.
Qed.

(** [l[1:-1]] drops the first and the last element. *)
Lemma py_slice_strip_length {A : Type} (l : list A) :
  length (py_slice l 1 (-1)) = (length l - 2)%nat.
Proof.
  unfold py_slice.
  rewrite length_firstn, length_skipn.
  destruct (Z.ltb_spec 1 0); [lia |].
  destruct (Z.ltb_spec (-1) 0); [| lia].
  lia.
Qed.

Lemma length_concat_uniform {A : Type} (m : nat) (l : list (list A)) :
  Forall (fun x => length x = m) l ->
  length (concat l) = (length l * m)%nat.
Proof.
  induction 1 as [|x l Hx Hall IH]; simpl.
  - reflexivity.
  - rewrite length_app, IH, Hx. reflexivity.
Qed.

Lemma strip_and_flatten_length (t : tensor) (a b c : nat) :
  tensor_shape t a b c ->
  length (strip_and_flatten t) = ((a - 2) * (b - 2) * c)%nat.
Proof.
  intros [Hlen Hall]. unfold strip_and_flatten.
  rewrite Forall_forall in Hall.
  rewrite (length_concat_uniform c).
  - rewrite (length_concat_uniform (b - 2)).
    + rewrite length_map, py_slice_strip_length, Hlen. reflexivity.
    + apply Forall_forall. intros rows Hin.
      apply in_map_iff in Hin. destruct Hin as (plane & <- & Hin).
      apply py_slice_incl in Hin. apply Hall in Hin. destruct Hin as [Hb _].
      now rewrite py_slice_strip_length, Hb.
  - apply Forall_forall. intros row Hin.
    apply in_concat in Hin. destruct Hin as (rows & Hrows & Hrow).
    apply in_map_iff in Hrows. destruct Hrows as (plane & <- & Hin).
    apply py_slice_incl in Hin. apply Hall in Hin. destruct Hin as [_ Hc].
    rewrite Forall_forall in Hc. apply Hc.
    now apply py_slice_incl in Hrow.
Qed.

(** With samples of the grid the histogram is built and its inner part
    has [window_width * window_width * num_bins] entries. *)
Lemma descriptor_vector_of_samples_ok (window_width num_bins : Z)
    (samples : list sample) :
  0 <= window_width -> 1 <= num_bins ->
  Forall (in_grid window_width) samples ->
  exists descriptor_vector,
    descriptor_vector_of_samples window_width num_bins samples
    = Ok descriptor_vector
    /\ Z.of_nat (length descriptor_vector)
       = window_width * window_width * num_bins.
Proof.
  intros Hw Hn Hgrid. unfold descriptor_vector_of_samples.
  destruct (zeros3_shape (window_width + 2) (window_width + 2) num_bins)
    as (t0 & Ht0 & Hs0); try lia.
  rewrite Ht0. cbn [bind].
  rewrite Forall_forall in Hgrid.
  destruct (for_each_ok
              (fun t => tensor_shape t (Z.to_nat (window_width + 2))
                                     (Z.to_nat (window_width + 2))
                                     (Z.to_nat num_bins))
              (splat num_bins) samples) with (s := t0) as (t & Ht & Hs).
  - intros s u Hin Hu. apply (splat_ok window_width); auto.
  - assumption.
  - rewrite Ht. cbn [bind]. eexists. split; [reflexivity |].
    rewrite (strip_and_flatten_length t _ _ _ Hs). nia.
Qed.

End DescriptorFacts.

(* ================================================================== *)
(** * Normalisation and quantisation *)
(* ================================================================== *)

Section NormFacts.
Import Descriptor.
Local Open Scope R_scope.

Lemma sum_squares_nonneg (v : list R) :
  0 <= fold_right (fun x acc => x * x + acc) 0 v.
Proof.
  induction v as [|x v IH]; simpl; [Lra.lra |].
  pose proof (Rle_0_sqr x) as Hx. unfold Rsqr in Hx. Lra.lra.
Qed.

Lemma sum_squares_scaled (v : list R) (d : R) :
  d <> 0 ->
  fold_right (fun x acc => x * x + acc) 0 (map (fun x => x / d) v)
  = fold_right (fun x acc => x * x + acc) 0 v / (d * d).
Proof.
  intros Hd. induction v as [|x v IH]; simpl.
  - field. assumption.
  - rewrite IH. field. assumption.
Qed.

Lemma norm_nonneg (v : list R) : 0 <= norm v.
Proof. apply sqrt_pos. Qed.

(** Dividing a vector by a positive number divides its norm. *)
Lemma norm_scaled (v : list R) (d : R) :
  0 < d -> norm (map (fun x => x / d) v) = norm v / d.
Proof.
  intros Hd. unfold norm.
  rewrite sum_squares_scaled by Lra.lra.
  rewrite sqrt_div_alt by Lra.nra.
  rewrite sqrt_square by Lra.lra.
  reflexivity.
Qed.

Lemma float_tolerance_pos : 0 < Q2R float_tolerance.
Proof.
  unfold Q2R, float_tolerance. cbn [Qnum Qden].
  apply Rmult_lt_0_compat; [Lra.lra |].
  apply Rinv_0_lt_compat. apply IZR_lt. reflexivity.
Qed.

(** The divisor of the normalisation is at least [float_tolerance]. *)
Lemma py_max2_floor (a : R) :
  Q2R float_tolerance <= py_max2 a (Q2R float_tolerance)
  /\ a <= py_max2 a (Q2R float_tolerance).
Proof.
  unfold py_max2. destruct (Rlt_dec a (Q2R float_tolerance)); Lra.lra.
Qed.

Lemma mapM_fdivR (v : list R) (d : R) :
  d <> 0 -> mapM (fun x => fdivR x d) v = Ok (map (fun x => x / d) v).
Proof.
  intros Hd. induction v as [|x v IH]; simpl; [reflexivity |].
  unfold fdivR at 1. destruct (Req_dec_T d 0); [contradiction |].
  cbn [bind]. rewrite IH. reflexivity.
Qed.

(** The normalisation divides by a positive number: it never leaves the
    finite numbers. *)
Lemma normalize_ok (v : list R) :
  normalize v
  = Ok (map (fun x => x / py_max2 (norm v) (Q2R float_tolerance)) v).
Proof.
  unfold normalize. apply mapM_fdivR.
  pose proof (py_max2_floor (norm v)) as [H _].
  pose proof float_tolerance_pos. Lra.lra.
Qed.

(** A vector whose norm reaches [float_tolerance] is normalised to norm
    one. *)
Lemma normalize_unit (v w : list R) :
  normalize v = Ok w ->
  Q2R float_tolerance <= norm v ->
  norm w = 1.
Proof.
  rewrite normalize_ok. intros [= <-] Htol.
  assert (Hd : py_max2 (norm v) (Q2R float_tolerance) = norm v).
  { unfold py_max2. destruct (Rlt_dec (norm v) (Q2R float_tolerance)); Lra.lra. }
  rewrite Hd.
  pose proof float_tolerance_pos as Hpos.
  rewrite norm_scaled by Lra.lra.
  field. Lra.lra.
Qed.

Lemma quantize_length (v : list R) : length (quantize v) = length v.
Proof. unfold quantize. now rewrite !length_map. Qed.

(** Every component of a quantised vector is between 0 and 255. *)
Lemma quantize_bounds (v : list R) :
  Forall (fun x => 0 <= x <= 255) (quantize v).
Proof.
  unfold quantize. rewrite !map_map.
  apply Forall_forall. intros y Hy.
  apply in_map_iff in Hy. destruct Hy as (x & <- & _).
  set (q := IZR (Octaves.np_round_R (512 * x))).
  destruct (Rlt_dec q 0) as [Hneg | Hpos].
  - destruct (Rlt_dec 255 0); Lra.lra.
  - destruct (Rlt_dec 255 q); Lra.lra.
Qed.

Lemma clip_length (m : R) (v : list R) : length (clip m v) = length v.
Proof. unfold clip. now rewrite length_map. Qed.

End NormFacts.

Section DescriptorClaims.
Import Descriptor.
Local Open Scope R_scope.

Variable descriptor_samples :
  KeyPoint -> Q -> array2 -> Z -> Z -> Q -> list sample.

(** C7.  For every keypoint that [generateDescriptors] processes (its
    Gaussian image is found in the pyramid and the samples of its
    window lie in the grid, as the sampling loop ensures), the
    descriptor is emitted, has 128 components and each of them lies in
    [0, 255]; the vector it is quantised from has Euclidean norm 1
    unless the norm of the vector that was normalised was below
    [float_tolerance]. *)
Theorem descriptor_bounds_and_unit_norm
    (gaussian_images : list (list array2)) (keypoint : KeyPoint)
    (octave layer : Z) (scale : Q)
    (images_in_octave : list array2) (gaussian_image : array2) :
  unpackOctave keypoint = (octave, layer, scale) ->
  py_get gaussian_images (octave + 1)%Z = Ok images_in_octave ->
  py_get images_in_octave layer = Ok gaussian_image ->
  Forall (in_grid default_window_width)
         (descriptor_samples keypoint scale gaussian_image
            default_window_width default_num_bins default_scale_multiplier) ->
  exists histogram_vector normalized,
    descriptor_vector_of_samples default_window_width default_num_bins
      (descriptor_samples keypoint scale gaussian_image
         default_window_width default_num_bins default_scale_multiplier)
    = Ok histogram_vector
    /\ normalize (clip default_descriptor_max_value histogram_vector)
       = Ok normalized
    /\ describe_keypoint descriptor_samples gaussian_images
         default_window_width default_num_bins default_scale_multiplier
         default_descriptor_max_value keypoint
       = Ok (quantize normalized)
    /\ length (quantize normalized) = 128%nat
    /\ Forall (fun x => 0 <= x <= 255) (quantize normalized)
    /\ (Q2R float_tolerance
        <= norm (clip default_descriptor_max_value histogram_vector) ->
        norm normalized = 1).
Proof.
  intros Hunpack Himages Himage Hgrid.
  destruct (descriptor_vector_of_samples_ok default_window_width
              default_num_bins _ ltac:(unfold default_window_width; lia)
              ltac:(unfold default_num_bins; lia) Hgrid)
    as (v & Hv & Hlen).
  exists v. eexists. split; [exact Hv |].
  split; [apply normalize_ok |].
  split; [| split; [| split]].
  - unfold describe_keypoint. rewrite Hunpack, Himages. cbn [bind].
    rewrite Himage. cbn [bind].
    unfold descriptor_of_samples. rewrite Hv. cbn [bind].
    rewrite normalize_ok. reflexivity.
  - rewrite quantize_length, length_map, clip_length.
    unfold default_window_width, default_num_bins in Hlen. lia.
  - apply quantize_bounds.
  - intros Htol. eapply normalize_unit; [apply normalize_ok | exact Htol].
Qed.

(** Every descriptor that [generateDescriptors] returns has these
    properties. *)
Lemma generateDescriptors_bounds
    (h : heap) (keypoints : list ref) (gaussian_images : list (list array2))
    (descriptors : list (list R)) :
  (forall keypoint scale gaussian_image,
      Forall (in_grid default_window_width)
             (descriptor_samples keypoint scale gaussian_image
                default_window_width default_num_bins
                default_scale_multiplier)) ->
  generateDescriptors descriptor_samples h keypoints gaussian_images
    default_window_width default_num_bins default_scale_multiplier
    default_descriptor_max_value = Ok descriptors ->
  length descriptors = length keypoints
  /\ Forall (fun d => length d = 128%nat /\ Forall (fun x => 0 <= x <= 255) d)
            descriptors.
Proof.
  intros Hgrid. unfold generateDescriptors.
  revert descriptors. induction keypoints as [|r keypoints IH];
    intros descriptors Hgen; simpl in Hgen.
  - injection Hgen as <-. split; [reflexivity | constructor].
  - destruct (describe_keypoint _ _ _ _ _ _ (h r)) as [d | e] eqn:Hd;
      [| discriminate].
    cbn [bind] in Hgen.
    destruct (mapM _ keypoints) as [ds | e] eqn:Hds; [| discriminate].
    cbn [bind] in Hgen. injection Hgen as <-.
    destruct (IH ds eq_refl) as [Hl Hall].
    split; [simpl; now rewrite Hl |].
    constructor; [| assumption].
    unfold describe_keypoint in Hd.
    destruct (unpackOctave (h r)) as [[octave layer] scale].
    destruct (py_get gaussian_images (octave + 1)%Z) as [imgs | e];
      [| discriminate].
    cbn [bind] in Hd.
    destruct (py_get imgs layer) as [img | e]; [| discriminate].
    cbn [bind] in Hd.
    unfold descriptor_of_samples in Hd.
    destruct (descriptor_vector_of_samples_ok default_window_width
                default_num_bins _ ltac:(unfold default_window_width; lia)
                ltac:(unfold default_num_bins; lia)
                (Hgrid (h r) scale img)) as (v & Hv & Hlen).
    rewrite Hv in Hd. cbn [bind] in Hd.
    rewrite normalize_ok in Hd. cbn [bind] in Hd. injection Hd as <-.
    split; [| apply quantize_bounds].
    rewrite quantize_length, length_map, clip_length.
    unfold default_window_width, default_num_bins in Hlen. lia.
Qed.

End DescriptorClaims.

Lemma descriptor_bounds_and_unit_norm_witness :
  exists histogram_vector normalized,
    Descriptor.descriptor_vector_of_samples Descriptor.default_window_width
      Descriptor.default_num_bins
      (sample_descriptor_samples (sample_heap 0%nat) (1 / inject_Z (Z.shiftl 1 0))%Q
         sample_peak Descriptor.default_window_width Descriptor.default_num_bins
         Descriptor.default_scale_multiplier)
    = Ok histogram_vector
    /\ Descriptor.normalize
         (Descriptor.clip Descriptor.default_descriptor_max_value histogram_vector)
       = Ok normalized
    /\ Descriptor.describe_keypoint sample_descriptor_samples sample_pyramid
         Descriptor.default_window_width Descriptor.default_num_bins
         Descriptor.default_scale_multiplier
         Descriptor.default_descriptor_max_value (sample_heap 0%nat)
       = Ok (Descriptor.quantize normalized)
    /\ length (Descriptor.quantize normalized) = 128%nat
    /\ Forall (fun x => 0 <= x <= 255)%R (Descriptor.quantize normalized)
    /\ ((Q2R float_tolerance
         <= Descriptor.norm
              (Descriptor.clip Descriptor.default_descriptor_max_value
                 histogram_vector))%R ->
        Descriptor.norm normalized = 1%R).
Proof.
  apply (descriptor_bounds_and_unit_norm sample_descriptor_samples
           sample_pyramid (sample_heap 0%nat) 0 1
           (1 / inject_Z (Z.shiftl 1 0))%Q
           [sample_flat; sample_peak] sample_peak).
  - reflexivity.
  - reflexivity.
  - reflexivity.
  - constructor; [| constructor].
    unfold Descriptor.in_grid, Descriptor.default_window_width; cbn.
    split; Lra.lra.
Defined.


(* ================================================================== *)
(** * Denominators *)
(* ================================================================== *)

Section DenominatorClaims.
Import Orientation Descriptor.

Variable orientation_samples :
  KeyPoint -> Z -> array2 -> Q -> Z -> Q -> list (Z * Q).

Example orientations_of_sample :
  match orientations_of_samples (sample_heap 0%nat) sample_orientations
          Orientation.default_num_bins default_peak_ratio with
  | Ok l => map (fun k => Qred (angle k)) l
  | Raise _ => []
  end = [(2922407 # 8192)%Q].
Proof. vm_compute. reflexivity. Qed.

(** The claim C8 fails for the parabolic interpolation: its denominator
    is used as it is.  A window whose only sample has weight 1e-9 gives
    a peak in bin 0 whose denominator is -2.5e-10, nearer to zero than
    [float_tolerance], and the oriented keypoint is emitted all the
    same. *)
Lemma interpolation_denominator_not_floored :
  exists raw_histogram smooth_histogram orientation_max,
    accumulate 36 sample_tiny_orientation = Ok raw_histogram
    /\ Orientation.smooth raw_histogram 36 = Ok smooth_histogram
    /\ py_max smooth_histogram = Ok orientation_max
    /\ orientation_peaks smooth_histogram = [0]
    /\ (interpolation_denominator (nth 35 smooth_histogram 0)
          (nth 0 smooth_histogram 0) (nth 1 smooth_histogram 0)
        == - (1 # 4000000000))%Q
    /\ ~ (float_tolerance
          <= Qabs (interpolation_denominator (nth 35 smooth_histogram 0)
                     (nth 0 smooth_histogram 0) (nth 1 smooth_histogram 0)))%Q
    /\ exists new_keypoint,
        orient_peak (sample_heap 0%nat) smooth_histogram 36 default_peak_ratio
                    orientation_max 0 = Ok [new_keypoint].
Proof.
  do 3 eexists.
  split; [vm_compute; reflexivity |].
  split; [vm_compute; reflexivity |].
  split; [vm_compute; reflexivity |].
  split; [vm_compute; reflexivity |].
  split; [vm_compute; reflexivity |].
  split; [vm_compute; intros H; apply H; reflexivity |].
  eexists. vm_compute. reflexivity.
Qed.

(** C8, amended.  The denominator of the parabolic interpolation is not
    floored; at every peak it is strictly negative, because a peak is
    strictly above both neighbours, so the division is defined and
    [computeKeypointsWithOrientations] returns finite orientations.  The
    divisor of the descriptor normalisation is floored: it is at least
    [float_tolerance], and the normalisation is defined for every
    vector. *)
Theorem divisions_are_defined
    (keypoint : KeyPoint) (octave_index : Z) (gaussian_image : array2)
    (radius_factor peak_ratio scale_factor : Q) (v : list R) :
  (exists raw_histogram smooth_histogram keypoints_with_orientations,
      accumulate Orientation.default_num_bins
        (orientation_samples keypoint octave_index gaussian_image radius_factor
           Orientation.default_num_bins scale_factor)
      = Ok raw_histogram
      /\ Orientation.smooth raw_histogram Orientation.default_num_bins
         = Ok smooth_histogram
      /\ Forall
           (fun p =>
              (interpolation_denominator
                 (nth (Z.to_nat ((p - 1) mod Orientation.default_num_bins))
                      smooth_histogram 0)
                 (nth (Z.to_nat p) smooth_histogram 0)
                 (nth (Z.to_nat ((p + 1) mod Orientation.default_num_bins))
                      smooth_histogram 0) < 0)%Q)
           (orientation_peaks smooth_histogram)
      /\ computeKeypointsWithOrientations orientation_samples keypoint
           octave_index gaussian_image radius_factor
           Orientation.default_num_bins peak_ratio scale_factor
         = Ok keypoints_with_orientations)
  /\ (Q2R float_tolerance <= py_max2 (norm v) (Q2R float_tolerance))%R
  /\ (0 < Q2R float_tolerance)%R
  /\ exists normalized, normalize v = Ok normalized.
Proof.
  split; [| split; [apply py_max2_floor | split;
    [apply float_tolerance_pos | eexists; apply normalize_ok]]].
  set (samples := orientation_samples keypoint octave_index gaussian_image
                    radius_factor Orientation.default_num_bins scale_factor).
  assert (Hn : 2 <= Orientation.default_num_bins)
    by (unfold Orientation.default_num_bins; lia).
  destruct (accumulate_ok Orientation.default_num_bins samples ltac:(lia))
    as (raw & Hraw & Hrl).
  destruct (smooth_ok raw Orientation.default_num_bins Hn Hrl)
    as (sm & Hsm & Hsl).
  destruct (orientations_of_samples_ok keypoint samples
              Orientation.default_num_bins peak_ratio Hn) as (kps & Hkps).
  exists raw, sm, kps.
  split; [exact Hraw | split; [exact Hsm | split; [| exact Hkps]]].
  apply Forall_forall. intros p Hp.
  apply (orient_peak_ok keypoint sm Orientation.default_num_bins
           peak_ratio 0%Q p Hn Hsl Hp).
Qed.

End DenominatorClaims.


(* ================================================================== *)
(** * Shapes in the pyramid *)
(* ================================================================== *)

Section PyramidFacts.
Import Pipeline Octaves.

Variable interpolate : interpolation -> array2 -> Z -> Z -> array2.
Variable blur : array2 -> Q -> array2.
Variable sqrtQ : Q -> Q.
Variable exp2 : Q -> Q.
Variable lstsq : list (list Q) -> list Q -> result (list Q).
Variable orientation_samples :
  KeyPoint -> Z -> array2 -> Q -> Z -> Q -> list (Z * Q).
Variable descriptor_samples :
  KeyPoint -> Q -> array2 -> Z -> Z -> Q -> list Descriptor.sample.

(** What the pipeline relies on: a resized image has the size asked
    for, a blurred image the size of its source, the square root of a
    positive number is positive and [2 ** x] exceeds 1 for positive
    [x]. *)
Hypothesis interpolate_shape :
  forall mode src width height,
    0 < width -> 0 < height ->
    has_shape (interpolate mode src width height) height width.
Hypothesis blur_shape :
  forall src sigma rows cols,
    has_shape src rows cols -> has_shape (blur src sigma) rows cols.
Hypothesis sqrtQ_pos : forall x, (0 < x)%Q -> (0 < sqrtQ x)%Q.
Hypothesis exp2_gt_1 : forall x, (0 < x)%Q -> (1 < exp2 x)%Q.

Lemma shape2_of_has_shape (a : array2) (rows cols : Z) :
  has_shape a rows cols -> 1 <= rows -> shape2 a = (rows, cols).
Proof.
  intros [Hr Hc] Hpos. unfold shape2.
  destruct a as [|row a]; [simpl in Hr; lia |].
  inversion Hc; subst. cbn [hd]. congruence.
Qed.

Lemma np_round_inject_Z (z : Z) : np_round (inject_Z z) = z.
Proof.
  unfold np_round. rewrite Qfloor_Z.
  assert (H : Qltb (inject_Z z - inject_Z z) (1 # 2) = true).
  { apply Qltb_lt. setoid_replace (inject_Z z - inject_Z z)%Q with 0%Q by ring.
    reflexivity. }
  now rewrite H.
Qed.

Lemma resize_doubles (image : array2) (rows cols : Z) :
  has_shape image rows cols -> 1 <= rows -> 1 <= cols ->
  exists doubled,
    resize interpolate image (0, 0) 2 2 INTER_LINEAR = Ok doubled
    /\ has_shape doubled (2 * rows) (2 * cols).
Proof.
  intros Hs Hr Hc. unfold resize.
  rewrite (shape2_of_has_shape image rows cols Hs Hr). cbn [fst snd].
  destruct (Z.leb_spec rows 0); [lia |].
  destruct (Z.leb_spec cols 0); [lia |]. cbn [orb].
  change (0 <=? 0) with true. cbn [orb].
  change (Qle_bool 2 0) with false. cbn [orb].
  change (inject_Z cols * 2)%Q with (inject_Z (cols * 2)).
  change (inject_Z rows * 2)%Q with (inject_Z (rows * 2)).
  rewrite !np_round_inject_Z.
  destruct (Z.leb_spec (cols * 2) 0); [lia |].
  destruct (Z.leb_spec (rows * 2) 0); [lia |]. cbn [orb].
  eexists. split; [reflexivity |].
  replace (2 * rows) with (rows * 2) by lia.
  replace (2 * cols) with (cols * 2) by lia.
  apply interpolate_shape; lia.
Qed.

Lemma resize_halves (octave_base : array2) (rows cols : Z) :
  has_shape octave_base rows cols -> 2 <= rows -> 2 <= cols ->
  exists image,
    resize interpolate octave_base
           (snd (shape2 octave_base) / 2, fst (shape2 octave_base) / 2)
           0 0 INTER_NEAREST = Ok image
    /\ has_shape image (rows / 2) (cols / 2).
Proof.
  intros Hs Hr Hc. unfold resize.
  rewrite (shape2_of_has_shape octave_base rows cols Hs ltac:(lia)).
  cbn [fst snd].
  assert (1 <= rows / 2) by (apply Z.div_le_lower_bound; lia).
  assert (1 <= cols / 2) by (apply Z.div_le_lower_bound; lia).
  destruct (Z.leb_spec rows 0); [lia |].
  destruct (Z.leb_spec cols 0); [lia |]. cbn [orb].
  destruct (Z.leb_spec (cols / 2) 0); [lia |].
  destruct (Z.leb_spec (rows / 2) 0); [lia |]. cbn [orb].
  eexists. split; [reflexivity |].
  apply interpolate_shape; lia.
Qed.

Lemma GaussianBlur_ok (src : array2) (sigma : Q) (rows cols : Z) :
  (0 < sigma)%Q -> has_shape src rows cols ->
  exists blurred,
    GaussianBlur blur src sigma = Ok blurred /\ has_shape blurred rows cols.
Proof.
  intros Hsig Hs. unfold GaussianBlur.
  destruct (Qle_bool sigma 0) eqn:Hle.
  - apply Qle_bool_iff in Hle. lra.
  - eexists. split; [reflexivity | now apply blur_shape].
Qed.

Lemma generateBaseImage_ok (image : array2) (sigma assumed_blur : Q)
    (rows cols : Z) :
  has_shape image rows cols -> 1 <= rows -> 1 <= cols ->
  exists base_image,
    generateBaseImage interpolate blur sqrtQ image sigma assumed_blur
    = Ok base_image
    /\ has_shape base_image (2 * rows) (2 * cols).
Proof.
  intros Hs Hr Hc. unfold generateBaseImage.
  destruct (resize_doubles image rows cols Hs Hr Hc) as (doubled & Hd & Hds).
  rewrite Hd. cbn [bind].
  apply GaussianBlur_ok; [| assumption].
  apply sqrtQ_pos. unfold Qmax2.
  destruct (Qltb _ 0.01) eqn:Hlt; [reflexivity |].
  assert (Hn : ~ (sigma ^ 2 - (2 * assumed_blur) ^ 2 < 0.01)%Q)
    by (rewrite <- Qltb_lt; congruence).
  apply Qnot_lt_le in Hn.
  eapply Qlt_le_trans; [| exact Hn]. reflexivity.
Qed.

Lemma generateGaussianKernels_ok (sigma : Q) (num_intervals : Z) :
  (0 < sigma)%Q -> 1 <= num_intervals ->
  exists gaussian_kernels,
    generateGaussianKernels sqrtQ exp2 sigma num_intervals = Ok gaussian_kernels
    /\ Z.of_nat (length gaussian_kernels) = num_intervals + 3
    /\ Forall (fun s => (0 < s)%Q) (skipn 1 gaussian_kernels).
Proof.
  intros Hsig Hn. unfold generateGaussianKernels.
  destruct (Z.eqb_spec num_intervals 0); [lia |].
  destruct (Z.ltb_spec (num_intervals + 3) 0); [lia |].
  destruct (Z.eqb_spec (num_intervals + 3) 0); [lia |].
  eexists. split; [reflexivity |].
  split.
  - match goal with
    | |- context [length (sigma :: ?l)] =>
        change (length (sigma :: l)) with (S (length l))
    end.
    unfold py_range2. rewrite !length_map, length_seq. lia.
  - cbn [skipn]. apply Forall_forall. intros s Hin.
    apply in_map_iff in Hin. destruct Hin as (image_index & <- & _).
    apply sqrtQ_pos.
    set (k := exp2 (1 / inject_Z num_intervals)).
    assert (Hk : (1 < k)%Q).
    { apply exp2_gt_1. apply Qlt_shift_div_l.
      - change 0%Q with (inject_Z 0). rewrite <- Zlt_Qlt. lia.
      - rewrite Qmult_0_l. reflexivity. }
    set (p := (k ^ (image_index - 1) * sigma)%Q).
    assert (Hp : (0 < p)%Q).
    { apply Qmult_lt_0_compat; [| assumption].
      apply Qpower_0_lt. lra. }
    clearbody p k.
    setoid_replace ((k * p) ^ 2 - p ^ 2)%Q
      with (p * p * ((k - 1) * (k + 1)))%Q by (simpl; ring).
    repeat apply Qmult_lt_0_compat; try assumption; lra.
Qed.

Lemma blur_each_ok (kernels : list Q) :
  forall (image : array2) (rows cols : Z),
    Forall (fun s => (0 < s)%Q) kernels ->
    has_shape image rows cols ->
    exists blurred,
      blur_each blur image kernels = Ok blurred
      /\ length blurred = length kernels
      /\ Forall (fun img => has_shape img rows cols) blurred.
Proof.
  induction kernels as [|s kernels IH]; intros image rows cols Hpos Hs; simpl.
  - exists []. repeat split. constructor.
  - inversion Hpos as [|? ? Hs0 Hrest]; subst.
    destruct (GaussianBlur_ok image s rows cols Hs0 Hs) as (img & Himg & Hshape).
    rewrite Himg. cbn [bind].
    destruct (IH img rows cols Hrest Hshape) as (later & Hl & Hlen & Hall).
    rewrite Hl. cbn [bind].
    exists (img :: later). split; [reflexivity |].
    split; [simpl; now rewrite Hlen | now constructor].
Qed.

(** The Gaussian pyramid is built without an error as long as every
    octave leaves at least one pixel for the base of the next: the
    images of an octave share one shape, no larger than the base
    image. *)
Lemma octaves_loop_ok (gaussian_kernels : list Q) (octave_indices : list Z) :
  (3 <= length gaussian_kernels)%nat ->
  Forall (fun s => (0 < s)%Q) (skipn 1 gaussian_kernels) ->
  forall (image : array2) (rows cols : Z),
    has_shape image rows cols ->
    2 ^ Z.of_nat (length octave_indices) <= rows ->
    2 ^ Z.of_nat (length octave_indices) <= cols ->
    exists gaussian_images,
      octaves_loop interpolate blur octave_indices image gaussian_kernels
      = Ok gaussian_images
      /\ length gaussian_images = length octave_indices
      /\ Forall
           (fun images_in_octave =>
              length images_in_octave = length gaussian_kernels
              /\ exists r c,
                  1 <= r <= rows /\ 1 <= c <= cols
                  /\ Forall (fun img => has_shape img r c) images_in_octave)
           gaussian_images.
Proof.
  intros Hlen Hpos.
  induction octave_indices as [|o rest IH]; intros image rows cols Hs Hr Hc.
  - exists []. repeat split. constructor.
  - cbn [octaves_loop].
    cbn [length] in Hr, Hc. rewrite Nat2Z.inj_succ, Z.pow_succ_r in Hr, Hc by lia.
    assert (Hp : 1 <= 2 ^ Z.of_nat (length rest))
      by (pose proof (Z.pow_pos_nonneg 2 (Z.of_nat (length rest))); lia).
    destruct (blur_each_ok (skipn 1 gaussian_kernels) image rows cols Hpos Hs)
      as (blurred & Hb & Hbl & Hball).
    rewrite Hb. cbn [bind].
    assert (Hoct : Forall (fun img => has_shape img rows cols) (image :: blurred))
      by now constructor.
    assert (Hol : length (image :: blurred) = length gaussian_kernels).
    { cbn [length]. rewrite Hbl, length_skipn. lia. }
    rewrite (py_get_ok (image :: blurred) (-3) []) by lia.
    cbn [bind].
    set (octave_base := nth _ (image :: blurred) []).
    assert (Hbase : has_shape octave_base rows cols).
    { rewrite Forall_forall in Hoct. apply Hoct. apply nth_In.
      pose proof (Z.mod_pos_bound (-3) (Z.of_nat (length (image :: blurred)))
                    ltac:(lia)). lia. }
    destruct (resize_halves octave_base rows cols Hbase ltac:(lia) ltac:(lia))
      as (next & Hnext & Hns).
    rewrite Hnext. cbn [bind].
    destruct (IH next (rows / 2) (cols / 2) Hns) as (later & Hl & Hll & Hlall).
    { apply Z.div_le_lower_bound; lia. }
    { apply Z.div_le_lower_bound; lia. }
    rewrite Hl. cbn [bind].
    eexists. split; [reflexivity |].
    split; [simpl; now rewrite Hll |].
    constructor.
    + split; [assumption |]. exists rows, cols. repeat split; try lia. assumption.
    + eapply Forall_impl; [| exact Hlall].
      intros oct (Hlo & r & c & Hrb & Hcb & Hall).
      split; [assumption |]. exists r, c.
      assert (rows / 2 <= rows) by (apply Z.div_le_upper_bound; lia).
      assert (cols / 2 <= cols) by (apply Z.div_le_upper_bound; lia).
      repeat split; try lia. assumption.
Qed.

Lemma shape2_same (a b : array2) (rows cols : Z) :
  has_shape a rows cols -> has_shape b rows cols -> shape2 a = shape2 b.
Proof.
  intros [Ha Hra] [Hb Hrb]. unfold shape2. f_equal; [lia |].
  destruct a as [|ra a], b as [|rb b]; simpl in *; try lia.
  inversion Hra; inversion Hrb; subst. lia.
Qed.

Lemma difference_shape (a b : array2) (rows cols : Z) :
  has_shape a rows cols -> has_shape b rows cols ->
  has_shape (difference a b) rows cols.
Proof.
  intros [Ha Hra] [Hb Hrb]. unfold difference. split.
  - rewrite length_map, length_combine. lia.
  - apply Forall_forall. intros row Hin.
    apply in_map_iff in Hin. destruct Hin as ([ra rb] & <- & Hin).
    rewrite length_map, length_combine. cbn [fst snd].
    rewrite Forall_forall in Hra, Hrb.
    pose proof (Hra ra (in_combine_l _ _ _ _ Hin)).
    pose proof (Hrb rb (in_combine_r _ _ _ _ Hin)).
    lia.
Qed.

(** Two images of one size are subtracted pixel by pixel. *)
Lemma subtract_same_shape (a b : array2) (rows cols : Z) :
  has_shape a rows cols -> has_shape b rows cols ->
  subtract a b = Ok (difference a b).
Proof.
  intros Ha Hb. unfold subtract.
  rewrite (shape2_same a b rows cols Ha Hb), !Z.eqb_refl. reflexivity.
Qed.

Lemma mapM_map {A B : Type} (f : A -> result B) (g : A -> B) (l : list A) :
  (forall x, In x l -> f x = Ok (g x)) -> mapM f l = Ok (map g l).
Proof.
  induction l as [|x l IH]; intros Hf; cbn [mapM map]; [reflexivity |].
  rewrite (Hf x (or_introl eq_refl)), IH by (intros; apply Hf; now right).
  reflexivity.
Qed.

(** The DoG images of an array of images whose octaves hold images of
    one size each. *)
Lemma dog_loop_images (octaves : list (list array2)) :
  Forall (fun images_in_octave =>
            exists r c, Forall (fun img => has_shape img r c) images_in_octave)
         octaves ->
  dog_loop (Images octaves)
  = Ok (map (fun images_in_octave =>
               map (fun p => difference (snd p) (fst p))
                   (combine images_in_octave (skipn 1 images_in_octave)))
            octaves).
Proof.
  intros Hall. unfold dog_loop. cbn [elements].
  apply mapM_map. intros oct Hoct.
  rewrite Forall_forall in Hall. destruct (Hall oct Hoct) as (r & c & Himgs).
  apply mapM_map. intros [g1 g2] Hp. cbn [fst snd].
  rewrite Forall_forall in Himgs.
  apply (subtract_same_shape _ _ r c).
  - apply Himgs. apply in_combine_r in Hp. now apply skipn_incl in Hp.
  - apply Himgs. now apply in_combine_l in Hp.
Qed.

(** Slices of an array of pixels cannot be subtracted. *)
Lemma dog_loop_pixels (first_image second_image : array2)
    (more_images : list array2) (more_octaves : list (list array2)) :
  dog_loop (Pixels ((first_image :: second_image :: more_images)
                    :: more_octaves))
  = Raise CvError.
Proof. reflexivity. Qed.

Lemma np_array_object_elements (l : list (list array2)) (a : object_array) :
  np_array_object l = Ok a -> elements a = l.
Proof.
  unfold np_array_object.
  destruct (negb (same_length l)); [now intros [= <-] |].
  destruct (concat l) as [|first rest]; [now intros [= <-] |].
  destruct (forallb _ rest); [now intros [= <-] |].
  destruct (forallb _ rest); [discriminate | now intros [= <-]].
Qed.

Lemma same_length_of (m : nat) (l : list (list array2)) :
  Forall (fun images_in_octave => length images_in_octave = m) l ->
  same_length l = true.
Proof.
  intros Hall. destruct l as [|x l]; [reflexivity |].
  inversion Hall as [|? ? Hx Hl]; subst. cbn [same_length].
  apply forallb_forall. intros y Hy.
  rewrite Forall_forall in Hl. rewrite (Hl y Hy). apply Nat.eqb_refl.
Qed.

(** An array of images of one shape goes down to the pixels. *)
Lemma np_array_object_pixels (l : list (list array2)) (m : nat)
    (rows cols : Z) :
  (1 <= m)%nat -> l <> [] ->
  Forall (fun images_in_octave =>
            length images_in_octave = m
            /\ Forall (fun img => has_shape img rows cols) images_in_octave)
         l ->
  np_array_object l = Ok (Pixels l).
Proof.
  intros Hm Hne Hall. unfold np_array_object.
  rewrite (same_length_of m)
    by (eapply Forall_impl; [| exact Hall]; now intros ? [? _]).
  cbn [negb].
  assert (Himgs : Forall (fun img => has_shape img rows cols) (concat l)).
  { apply Forall_concat. eapply Forall_impl; [| exact Hall]. now intros ? [_ ?]. }
  destruct (concat l) as [|first rest] eqn:E.
  - destruct l as [|x l]; [contradiction |].
    inversion Hall as [|? ? Hx0 _]; subst. destruct Hx0 as [Hx _].
    destruct x; [simpl in Hx; lia | discriminate].
  - inversion Himgs as [|? ? Hfirst Hrest]; subst.
    replace (forallb _ rest) with true; [reflexivity |].
    symmetry. apply forallb_forall. intros img Himg.
    rewrite Forall_forall in Hrest.
    rewrite (shape2_same img first rows cols (Hrest img Himg) Hfirst).
    now rewrite !Z.eqb_refl.
Qed.

(** An array of images of different heights is an array of images. *)
Lemma np_array_object_images (l : list (list array2)) (m : nat)
    (first other : array2) (rest : list array2) :
  Forall (fun images_in_octave => length images_in_octave = m) l ->
  concat l = first :: rest -> In other rest ->
  fst (shape2 other) <> fst (shape2 first) ->
  np_array_object l = Ok (Images l).
Proof.
  intros Hlen Hc Hin Hrows. unfold np_array_object.
  rewrite (same_length_of m) by assumption. cbn [negb]. rewrite Hc.
  assert (Hnot : forall f : array2 -> bool,
             (forall img, f img = true ->
                          (fst (shape2 img) =? fst (shape2 first)) = true) ->
             forallb f rest = false).
  { intros f Hf. destruct (forallb f rest) eqn:E; [| reflexivity].
    rewrite forallb_forall in E. specialize (Hf other (E other Hin)).
    apply Z.eqb_eq in Hf. contradiction. }
  rewrite Hnot by (intros img H; now apply andb_true_iff in H).
  rewrite Hnot by (intros img H; exact H).
  reflexivity.
Qed.



(** What [array(..., dtype=object)] makes of a pyramid: nothing of no
    octave, an array of pixels of one octave, an array of images of
    more, because the second octave is lower than the first. *)
Lemma np_array_object_pyramid (octaves : list (list array2))
    (rows cols : Z) (m : nat) :
  1 <= rows -> (1 <= m)%nat ->
  (forall k, (k < length octaves)%nat ->
     length (nth k octaves []) = m
     /\ Forall (fun img =>
                  has_shape img (fst (octave_shape (rows, cols) k))
                                (snd (octave_shape (rows, cols) k)))
               (nth k octaves [])) ->
  np_array_object octaves
  = Ok (if (length octaves =? 1)%nat then Pixels octaves else Images octaves).
Proof.
  intros Hr Hm Hall.
  assert (Hlen : Forall (fun images_in_octave => length images_in_octave = m)
                        octaves).
  { apply Forall_forall. intros oct Hoct.
    destruct (In_nth _ _ [] Hoct) as (k & Hk & <-). now apply Hall. }
  destruct octaves as [|oct0 [|oct1 more]].
  - reflexivity.
  - cbn [length Nat.eqb].
    apply (np_array_object_pixels _ m rows cols); [assumption | discriminate |].
    constructor; [| constructor].
    exact (Hall 0%nat ltac:(simpl; lia)).
  - cbn [length Nat.eqb].
    destruct (Hall 0%nat ltac:(simpl; lia)) as [Hl0 Hs0].
    destruct (Hall 1%nat ltac:(simpl; lia)) as [Hl1 Hs1].
    cbn [nth] in Hl0, Hs0, Hl1, Hs1.
    destruct oct0 as [|first rest0]; [simpl in Hl0; lia |].
    destruct oct1 as [|other rest1]; [simpl in Hl1; lia |].
    apply (np_array_object_images _ m first other
             (rest0 ++ (other :: rest1) ++ concat more)).
    + assumption.
    + reflexivity.
    + apply in_or_app. right. now left.
    + inversion Hs0 as [|? ? [Hf _] _]; subst.
      inversion Hs1 as [|? ? [Ho _] _]; subst.
      unfold shape2. cbn [fst]. rewrite Hf, Ho.
      cbn [octave_shape halve_shape fst snd].
      assert (rows / 2 < rows) by (apply Z.div_lt; lia).
      lia.
Qed.

Lemma for_each_skip {A S : Type} (body : A -> S -> result S) (l : list A) :
  (forall x s, In x l -> body x s = Ok s) ->
  forall s, for_each l s body = Ok s.
Proof.
  induction l as [|x l IH]; intros Hbody s; simpl.
  - reflexivity.
  - rewrite Hbody by now left. cbn [bind].
    apply IH. intros y s' Hy. apply Hbody. now right.
Qed.



Lemma pow2_le_side (m n : Z) :
  0 < m -> 0 <= n -> 2 ^ (2 * n + 1) < m * m -> 2 ^ n <= m.
Proof.
  intros Hm Hn Hlt.
  destruct (Z.le_gt_cases (2 ^ n) m) as [|Hgt]; [assumption | exfalso].
  assert (Hp : 0 < 2 ^ n) by (apply Z.pow_pos_nonneg; lia).
  assert (Hsq : m * m < 2 ^ n * 2 ^ n) by nia.
  rewrite <- Z.pow_add_r in Hsq by lia.
  assert (2 ^ (n + n) <= 2 ^ (2 * n + 1)) by (apply Z.pow_le_mono_r; lia).
  lia.
Qed.


(** One octave is what an input with a shorter side of two pixels
    gets, and no other. *)
Lemma one_octave_iff (rows cols : Z) :
  1 <= rows -> 1 <= cols ->
  (computeNumberOfOctaves (base_shape (rows, cols)) = 1
   <-> Z.min rows cols = 2).
Proof.
  intros Hr Hc.
  destruct (octave_count_bounds rows cols Hr Hc) as (Hn & H0 & Hb).
  unfold shorter_side, base_shape in *. cbn [fst snd] in *.
  set (n := computeNumberOfOctaves (2 * rows, 2 * cols)) in *.
  set (m := Z.min (2 * rows) (2 * cols)) in *.
  assert (Hm : m = 2 * Z.min rows cols) by (unfold m; lia).
  split.
  - intros H1. rewrite H1 in Hb.
    change (2 ^ (2 * 1 + 1)) with 8 in Hb.
    change (2 ^ (2 * 1 + 3)) with 32 in Hb.
    nia.
  - intros H2. rewrite H2 in Hm.
    rewrite Hn, Hm. reflexivity.
Qed.

End PyramidFacts.

(* ================================================================== *)
(** * The pyramid the pipeline builds *)
(* ================================================================== *)

Section PyramidInvariant.
Import Pipeline Octaves.

Variable interpolate : interpolation -> array2 -> Z -> Z -> array2.
Variable blur : array2 -> Q -> array2.
Variable sqrtQ : Q -> Q.
Variable exp2 : Q -> Q.

Hypothesis interpolate_shape :
  forall mode src width height,
    0 < width -> 0 < height ->
    has_shape (interpolate mode src width height) height width.
Hypothesis blur_shape :
  forall src sigma rows cols,
    has_shape src rows cols -> has_shape (blur src sigma) rows cols.
Hypothesis sqrtQ_pos : forall x, (0 < x)%Q -> (0 < sqrtQ x)%Q.
Hypothesis exp2_gt_1 : forall x, (0 < x)%Q -> (1 < exp2 x)%Q.

(** A property of images that blurring and resizing keep. *)
Variable kept : array2 -> Prop.
Hypothesis blur_keeps : forall src sigma, kept src -> kept (blur src sigma).
Hypothesis interpolate_keeps :
  forall mode src width height rows cols,
    has_shape src rows cols -> 1 <= rows -> 1 <= cols ->
    0 < width -> 0 < height ->
    kept src -> kept (interpolate mode src width height).

Lemma resize_doubles_eq (image : array2) (rows cols : Z) :
  has_shape image rows cols -> 1 <= rows -> 1 <= cols ->
  resize interpolate image (0, 0) 2 2 INTER_LINEAR
  = Ok (interpolate INTER_LINEAR image (cols * 2) (rows * 2)).
Proof.
  intros Hs Hr Hc. unfold resize.
  rewrite (shape2_of_has_shape image rows cols Hs Hr). cbn [fst snd].
  destruct (Z.leb_spec rows 0); [lia |].
  destruct (Z.leb_spec cols 0); [lia |]. cbn [orb].
  change (0 <=? 0) with true. cbn [orb].
  change (Qle_bool 2 0) with false. cbn [orb].
  change (inject_Z cols * 2)%Q with (inject_Z (cols * 2)).
  change (inject_Z rows * 2)%Q with (inject_Z (rows * 2)).
  rewrite !np_round_inject_Z.
  destruct (Z.leb_spec (cols * 2) 0); [lia |].
  destruct (Z.leb_spec (rows * 2) 0); [lia |]. reflexivity.
Qed.

Lemma resize_halves_eq (octave_base : array2) (rows cols : Z) :
  has_shape octave_base rows cols -> 2 <= rows -> 2 <= cols ->
  resize interpolate octave_base
         (snd (shape2 octave_base) / 2, fst (shape2 octave_base) / 2)
         0 0 INTER_NEAREST
  = Ok (interpolate INTER_NEAREST octave_base (cols / 2) (rows / 2)).
Proof.
  intros Hs Hr Hc. unfold resize.
  rewrite (shape2_of_has_shape octave_base rows cols Hs ltac:(lia)).
  cbn [fst snd].
  assert (1 <= rows / 2) by (apply Z.div_le_lower_bound; lia).
  assert (1 <= cols / 2) by (apply Z.div_le_lower_bound; lia).
  destruct (Z.leb_spec rows 0); [lia |].
  destruct (Z.leb_spec cols 0); [lia |]. cbn [orb].
  destruct (Z.leb_spec (cols / 2) 0); [lia |].
  destruct (Z.leb_spec (rows / 2) 0); [lia |]. reflexivity.
Qed.

Lemma GaussianBlur_eq (src : array2) (sigma : Q) :
  (0 < sigma)%Q -> GaussianBlur blur src sigma = Ok (blur src sigma).
Proof.
  intros Hsig. unfold GaussianBlur.
  destruct (Qle_bool sigma 0) eqn:Hle; [| reflexivity].
  apply Qle_bool_iff in Hle. lra.
Qed.

Lemma sigma_diff_pos (sigma assumed_blur : Q) :
  (0 < sqrtQ (Qmax2 (sigma ^ 2 - (2 * assumed_blur) ^ 2) 0.01))%Q.
Proof.
  apply sqrtQ_pos. unfold Qmax2.
  destruct (Qltb _ 0.01) eqn:Hlt; [reflexivity |].
  assert (Hn : ~ (sigma ^ 2 - (2 * assumed_blur) ^ 2 < 0.01)%Q)
    by (rewrite <- Qltb_lt; congruence).
  apply Qnot_lt_le in Hn.
  eapply Qlt_le_trans; [| exact Hn]. reflexivity.
Qed.

Lemma generateBaseImage_keeps (image : array2) (sigma assumed_blur : Q)
    (rows cols : Z) :
  has_shape image rows cols -> 1 <= rows -> 1 <= cols -> kept image ->
  exists base_image,
    generateBaseImage interpolate blur sqrtQ image sigma assumed_blur
    = Ok base_image
    /\ has_shape base_image (2 * rows) (2 * cols)
    /\ kept base_image.
Proof.
  intros Hs Hr Hc Hk. unfold generateBaseImage.
  rewrite (resize_doubles_eq image rows cols Hs Hr Hc). cbn [bind].
  rewrite GaussianBlur_eq by apply sigma_diff_pos.
  eexists. split; [reflexivity |]. split.
  - apply blur_shape.
    replace (2 * rows) with (rows * 2) by lia.
    replace (2 * cols) with (cols * 2) by lia.
    apply interpolate_shape; lia.
  - apply blur_keeps.
    apply (interpolate_keeps _ _ _ _ rows cols); try assumption; lia.
Qed.

Lemma blur_each_keeps (kernels : list Q) :
  forall (image : array2) (rows cols : Z),
    Forall (fun s => (0 < s)%Q) kernels ->
    has_shape image rows cols -> kept image ->
    exists blurred,
      blur_each blur image kernels = Ok blurred
      /\ length blurred = length kernels
      /\ Forall (fun img => has_shape img rows cols /\ kept img) blurred.
Proof.
  induction kernels as [|s kernels IH]; intros image rows cols Hpos Hs Hk.
  - exists []. repeat split. constructor.
  - inversion Hpos; subst. cbn [blur_each].
    rewrite GaussianBlur_eq by assumption. cbn [bind].
    destruct (IH (blur image s) rows cols) as (later & Hl & Hlen & Hall);
      auto.
    rewrite Hl. cbn [bind]. eexists. split; [reflexivity |].
    split; [simpl; now rewrite Hlen |].
    constructor; [split; auto | assumption].
Qed.

(** The octaves of the pyramid have the shapes [octave_shape] gives. *)
Lemma octaves_loop_exact (gaussian_kernels : list Q) (octave_indices : list Z) :
  (3 <= length gaussian_kernels)%nat ->
  Forall (fun s => (0 < s)%Q) (skipn 1 gaussian_kernels) ->
  forall (image : array2) (rows cols : Z),
    has_shape image rows cols -> kept image ->
    2 ^ Z.of_nat (length octave_indices) <= rows ->
    2 ^ Z.of_nat (length octave_indices) <= cols ->
    exists gaussian_images,
      octaves_loop interpolate blur octave_indices image gaussian_kernels
      = Ok gaussian_images
      /\ length gaussian_images = length octave_indices
      /\ forall k, (k < length octave_indices)%nat ->
           length (nth k gaussian_images []) = length gaussian_kernels
           /\ Forall (fun img =>
                        has_shape img (fst (octave_shape (rows, cols) k))
                                      (snd (octave_shape (rows, cols) k))
                        /\ kept img)
                     (nth k gaussian_images []).
Proof.
  intros Hlen Hpos.
  induction octave_indices as [|o rest IH]; intros image rows cols Hs Hk Hr Hc.
  - exists []. repeat split; simpl in *; lia.
  - cbn [octaves_loop].
    cbn [length] in Hr, Hc. rewrite Nat2Z.inj_succ, Z.pow_succ_r in Hr, Hc by lia.
    assert (Hp : 1 <= 2 ^ Z.of_nat (length rest))
      by (pose proof (Z.pow_pos_nonneg 2 (Z.of_nat (length rest))); lia).
    destruct (blur_each_keeps (skipn 1 gaussian_kernels) image rows cols
                Hpos Hs Hk) as (blurred & Hb & Hbl & Hball).
    rewrite Hb. cbn [bind].
    assert (Hoct : Forall (fun img => has_shape img rows cols /\ kept img)
                          (image :: blurred))
      by (constructor; [now split | assumption]).
    assert (Hol : length (image :: blurred) = length gaussian_kernels).
    { cbn [length]. rewrite Hbl, length_skipn. lia. }
    rewrite (py_get_ok (image :: blurred) (-3) []) by lia.
    cbn [bind].
    set (octave_base := nth _ (image :: blurred) []).
    assert (Hbase : has_shape octave_base rows cols /\ kept octave_base).
    { rewrite Forall_forall in Hoct. apply Hoct. apply nth_In.
      pose proof (Z.mod_pos_bound (-3) (Z.of_nat (length (image :: blurred)))
                    ltac:(lia)). lia. }
    destruct Hbase as [Hbs Hbk].
    rewrite (resize_halves_eq octave_base rows cols Hbs) by lia.
    cbn [bind].
    assert (1 <= rows / 2) by (apply Z.div_le_lower_bound; lia).
    assert (1 <= cols / 2) by (apply Z.div_le_lower_bound; lia).
    destruct (IH (interpolate INTER_NEAREST octave_base (cols / 2) (rows / 2))
                 (rows / 2) (cols / 2))
      as (later & Hl & Hll & Hlall).
    { apply interpolate_shape; lia. }
    { apply (interpolate_keeps _ _ _ _ rows cols); try assumption; lia. }
    { apply Z.div_le_lower_bound; lia. }
    { apply Z.div_le_lower_bound; lia. }
    rewrite Hl. cbn [bind].
    eexists. split; [reflexivity |].
    split; [simpl; now rewrite Hll |].
    intros [|k] Hklt.
    + cbn [nth octave_shape fst snd]. split; assumption.
    + cbn [nth octave_shape]. apply Hlall. simpl in Hklt. lia.
Qed.

(** The steps that build the pyramid, composed: the base image, the
    kernels, the octaves, the array made of them and the DoG images of
    an array of images. *)
Lemma pyramid_exact (image : array2) (rows cols : Z)
    (sigma assumed_blur : Q) (num_intervals : Z) :
  has_shape image rows cols -> 1 <= rows -> 1 <= cols -> kept image ->
  (0 < sigma)%Q -> 1 <= num_intervals ->
  exists base_image gaussian_kernels octaves,
    generateBaseImage interpolate blur sqrtQ image sigma assumed_blur
    = Ok base_image
    /\ shape2 base_image = base_shape (rows, cols)
    /\ generateGaussianKernels sqrtQ exp2 sigma num_intervals
       = Ok gaussian_kernels
    /\ generateGaussianImages interpolate blur base_image
         (computeNumberOfOctaves (shape2 base_image)) gaussian_kernels
       = Ok (if Z.min rows cols =? 2 then Pixels octaves else Images octaves)
    /\ Z.of_nat (length octaves)
       = computeNumberOfOctaves (base_shape (rows, cols))
    /\ forall k, (k < length octaves)%nat ->
         Z.of_nat (length (nth k octaves [])) = num_intervals + 3
         /\ Forall (fun img =>
                      has_shape img
                        (fst (octave_shape (base_shape (rows, cols)) k))
                        (snd (octave_shape (base_shape (rows, cols)) k))
                      /\ kept img)
                   (nth k octaves []).
Proof.
  intros Hs Hr Hc Hk Hsig Hni.
  destruct (generateBaseImage_keeps image sigma assumed_blur rows cols
              Hs Hr Hc Hk) as (base_image & Hbase & Hbs & Hbk).
  destruct (generateGaussianKernels_ok sqrtQ exp2 sqrtQ_pos exp2_gt_1
              sigma num_intervals Hsig Hni) as (kernels & Hker & Hkl & Hkpos).
  exists base_image, kernels.
  pose proof (shape2_of_has_shape base_image _ _ Hbs ltac:(lia)) as Hshape.
  change (2 * rows, 2 * cols) with (base_shape (rows, cols)) in Hshape.
  rewrite Hshape.
  pose proof (one_octave_iff rows cols Hr Hc) as Hone.
  destruct (octave_count_bounds rows cols Hr Hc) as (_ & H0 & Hb).
  unfold shorter_side in Hb.
  set (n := computeNumberOfOctaves (base_shape (rows, cols))) in *.
  unfold base_shape in Hb. cbn [fst snd] in Hb.
  assert (Hside : 2 ^ n <= Z.min (2 * rows) (2 * cols))
    by (apply pow2_le_side; lia).
  unfold generateGaussianImages.
  destruct (octaves_loop_exact kernels (py_range n) ltac:(lia) Hkpos
              base_image (2 * rows) (2 * cols) Hbs Hbk)
    as (octaves & Hg & Hgl & Hgall).
  { rewrite py_range_length, Z2Nat.id by lia. lia. }
  { rewrite py_range_length, Z2Nat.id by lia. lia. }
  exists octaves.
  rewrite py_range_length in Hgl, Hgall.
  rewrite Hg. cbn [bind].
  rewrite (np_array_object_pyramid octaves (2 * rows) (2 * cols)
             (length kernels)); [| lia | lia |].
  2:{ intros k Hklt. destruct (Hgall k) as [Hlk Hfk]; [lia |].
      split; [assumption |].
      eapply Forall_impl; [| exact Hfk]. now intros img [H _]. }
  repeat (split; [first [assumption | reflexivity | lia] |]).
  split.
  - f_equal.
    destruct (Z.eqb_spec (Z.min rows cols) 2) as [H2 | H2].
    + apply Hone in H2.
      replace (length octaves) with 1%nat by lia. reflexivity.
    + destruct (Nat.eqb_spec (length octaves) 1) as [H1 | H1];
        [| reflexivity].
      exfalso. apply H2, Hone. lia.
  - split; [lia |].
    intros k Hklt.
    destruct (Hgall k) as [Hlk Hfk]; [lia |].
    split; [lia | exact Hfk].
Qed.

(** What blurring and resizing keep, every image of the pyramid has. *)
Lemma pyramid_keeps (image : array2) (rows cols : Z)
    (sigma assumed_blur : Q) (num_intervals : Z)
    (base_image : array2) (gaussian_kernels : list Q)
    (gaussian_images : object_array) :
  has_shape image rows cols -> 1 <= rows -> 1 <= cols -> kept image ->
  (0 < sigma)%Q -> 1 <= num_intervals ->
  generateBaseImage interpolate blur sqrtQ image sigma assumed_blur
  = Ok base_image ->
  generateGaussianKernels sqrtQ exp2 sigma num_intervals
  = Ok gaussian_kernels ->
  generateGaussianImages interpolate blur base_image
    (computeNumberOfOctaves (shape2 base_image)) gaussian_kernels
  = Ok gaussian_images ->
  Forall (Forall kept) (elements gaussian_images).
Proof.
  intros Hs Hr Hc Hk Hsig Hni Hbase Hker Hgi.
  destruct (pyramid_exact image rows cols sigma assumed_blur num_intervals
              Hs Hr Hc Hk Hsig Hni)
    as (base0 & kernels0 & octaves & H1 & _ & H3 & H4 & _ & H6).
  rewrite Hbase in H1. injection H1 as <-.
  rewrite Hker in H3. injection H3 as <-.
  rewrite Hgi in H4. injection H4 as ->.
  assert (He : elements (if Z.min rows cols =? 2 then Pixels octaves
                         else Images octaves) = octaves)
    by (destruct (Z.min rows cols =? 2); reflexivity).
  rewrite He.
  apply Forall_forall. intros oct Hoct.
  destruct (In_nth _ _ [] Hoct) as (k & Hk' & <-).
  destruct (H6 k Hk') as [_ Hall].
  eapply Forall_impl; [| exact Hall]. now intros img [_ H].
Qed.

(** The DoG images of a pyramid that is an array of images. *)
Lemma pyramid_dog (octaves : list (list array2)) (rows cols : Z) (m : nat) :
  1 <= rows -> (2 <= m)%nat -> length octaves <> 1%nat ->
  (forall k, (k < length octaves)%nat ->
     length (nth k octaves []) = m
     /\ Forall (fun img =>
                  has_shape img (fst (octave_shape (rows, cols) k))
                                (snd (octave_shape (rows, cols) k)))
               (nth k octaves [])) ->
  exists dog_images,
    dog_loop (Images octaves) = Ok dog_images
    /\ generateDoGImages (Images octaves) = Ok (Images dog_images)
    /\ length dog_images = length octaves
    /\ forall k, (k < length octaves)%nat ->
         nth k dog_images []
         = map (fun p => difference (snd p) (fst p))
               (combine (nth k octaves []) (skipn 1 (nth k octaves [])))
         /\ length (nth k dog_images []) = (m - 1)%nat
         /\ Forall (fun img =>
                      has_shape img (fst (octave_shape (rows, cols) k))
                                    (snd (octave_shape (rows, cols) k)))
                   (nth k dog_images []).
Proof.
  intros Hr Hm Hone Hall.
  set (dog_of := fun images_in_octave : list array2 =>
                   map (fun p => difference (snd p) (fst p))
                       (combine images_in_octave (skipn 1 images_in_octave))).
  assert (Hloop : dog_loop (Images octaves) = Ok (map dog_of octaves)).
  { apply dog_loop_images. apply Forall_forall. intros oct Hoct.
    destruct (In_nth _ _ [] Hoct) as (k & Hk & <-).
    destruct (Hall k Hk) as [_ H]. eauto. }
  assert (Hnth : forall k, nth k (map dog_of octaves) []
                           = dog_of (nth k octaves [])).
  { intros k. change (@nil array2) with (dog_of []) at 1. apply map_nth. }
  assert (Hdog : forall k, (k < length octaves)%nat ->
            length (nth k (map dog_of octaves) []) = (m - 1)%nat
            /\ Forall (fun img =>
                         has_shape img (fst (octave_shape (rows, cols) k))
                                       (snd (octave_shape (rows, cols) k)))
                      (nth k (map dog_of octaves) [])).
  { intros k Hk. destruct (Hall k Hk) as [Hlk Hsk]. rewrite Hnth.
    unfold dog_of. split.
    - rewrite length_map, length_combine, length_skipn. lia.
    - apply Forall_forall. intros img Himg.
      apply in_map_iff in Himg. destruct Himg as ([g1 g2] & <- & Hp).
      rewrite Forall_forall in Hsk. cbn [fst snd].
      apply difference_shape.
      + apply Hsk. apply in_combine_r in Hp. now apply skipn_incl in Hp.
      + apply Hsk. now apply in_combine_l in Hp. }
  exists (map dog_of octaves).
  split; [exact Hloop |]. split.
  - unfold generateDoGImages. rewrite Hloop. cbn [bind].
    rewrite (np_array_object_pyramid _ rows cols (m - 1));
      [| lia | lia | now rewrite length_map].
    rewrite length_map.
    destruct (Nat.eqb_spec (length octaves) 1); [contradiction | reflexivity].
  - split; [apply length_map |].
    intros k Hk. split; [apply Hnth | now apply Hdog].
Qed.

End PyramidInvariant.

(* ================================================================== *)
(** * Small images *)
(* ================================================================== *)

Section SmallImages.
Import Pipeline Octaves.

Variable interpolate : interpolation -> array2 -> Z -> Z -> array2.
Variable blur : array2 -> Q -> array2.
Variable sqrtQ : Q -> Q.
Variable exp2 : Q -> Q.
Variable lstsq : list (list Q) -> list Q -> result (list Q).
Variable orientation_samples :
  KeyPoint -> Z -> array2 -> Q -> Z -> Q -> list (Z * Q).
Variable descriptor_samples :
  KeyPoint -> Q -> array2 -> Z -> Z -> Q -> list Descriptor.sample.

Hypothesis interpolate_shape :
  forall mode src width height,
    0 < width -> 0 < height ->
    has_shape (interpolate mode src width height) height width.
Hypothesis blur_shape :
  forall src sigma rows cols,
    has_shape src rows cols -> has_shape (blur src sigma) rows cols.
Hypothesis sqrtQ_pos : forall x, (0 < x)%Q -> (0 < sqrtQ x)%Q.
Hypothesis exp2_gt_1 : forall x, (0 < x)%Q -> (1 < exp2 x)%Q.



End SmallImages.

Section PipelineClaims.
Import Pipeline Octaves.


(** Where pixels are scanned, a DoG extremum does not leave the output
    empty: the scan of an octave of 4x4 images with a border of 1
    raises [NameError]. *)
Example scan_with_interior_pixel_raises :
  findScaleSpaceExtrema crude_exp2 no_lstsq no_orientation_samples
    pysift_globals
    [[sample_flat4; sample_flat4; sample_flat4; sample_flat4]]
    [[sample_flat4; sample_peak4; sample_flat4]]
    1 default_sigma 1 default_contrast_threshold
  = Raise (NameError "center_pixel_value").
Proof. vm_compute. reflexivity. Qed.

Lemma black_resize_shape (mode : interpolation) (src : array2)
    (width height : Z) :
  0 < width -> 0 < height ->
  has_shape (black_resize mode src width height) height width.
Proof.
  intros Hw Hh. unfold black_resize. split.
  - rewrite repeat_length. lia.
  - apply Forall_forall. intros row Hin. apply repeat_spec in Hin. subst row.
    rewrite repeat_length. lia.
Qed.


End PipelineClaims.


(* ================================================================== *)
(** * More on the number of octaves *)
(* ================================================================== *)

Section OctaveCountFacts.
Import Octaves.

Lemma octaves_of_side_double (m : Z) :
  1 <= m -> octaves_of_side (2 * m) = octaves_of_side m + 1.
Proof.
  intros Hm. unfold octaves_of_side.
  replace (2 * m * (2 * m)) with (m * m * 2 ^ 2) by ring.
  rewrite Z.log2_mul_pow2 by nia.
  replace (2 + Z.log2 (m * m) - 1) with (Z.log2 (m * m) - 1 + 1 * 2) by ring.
  now rewrite Z.div_add by lia.
Qed.

Lemma octaves_of_side_mono (m m' : Z) :
  1 <= m -> m <= m' -> octaves_of_side m <= octaves_of_side m'.
Proof.
  intros Hm Hle. unfold octaves_of_side.
  apply Z.div_le_mono; [lia |].
  assert (Z.log2 (m * m) <= Z.log2 (m' * m')); [| lia].
  apply Z.log2_le_mono. nia.
Qed.

(** X1.  Doubling both sides of an image adds exactly one octave: the count of
    the base image is one more than the count the input itself would
    get.  A longer shorter side never gives fewer octaves. *)
Theorem octave_count_doubling_and_monotone (height width height' width' : Z) :
  1 <= height -> 1 <= width ->
  Z.min height width <= Z.min height' width' ->
  computeNumberOfOctaves (base_shape (height, width))
  = computeNumberOfOctaves (height, width) + 1
  /\ computeNumberOfOctaves (height, width)
     <= computeNumberOfOctaves (height', width').
Proof.
  intros Hh Hw Hle.
  rewrite !computeNumberOfOctaves_exec by (cbn [base_shape fst snd]; lia).
  cbn [base_shape fst snd]. split.
  - replace (Z.min (2 * height) (2 * width)) with (2 * Z.min height width) by lia.
    apply octaves_of_side_double. lia.
  - apply octaves_of_side_mono; lia.
Qed.

Lemma octave_count_doubling_and_monotone_witness :
  computeNumberOfOctaves (base_shape (23, 40))
  = computeNumberOfOctaves (23, 40) + 1
  /\ computeNumberOfOctaves (23, 40) <= computeNumberOfOctaves (64, 48).
Proof.
  apply (octave_count_doubling_and_monotone 23 40 64 48); lia.
Defined.

(** X2.  With the count the code computes, every octave of the pyramid has a
    shorter side of at least 2 pixels and the last one a shorter side of
    at most 5. *)
Theorem octave_sides_bounds (height width : Z) (k : nat) :
  1 <= height -> 1 <= width ->
  let shape := base_shape (height, width) in
  let num_octaves := computeNumberOfOctaves shape in
  Z.of_nat k < num_octaves ->
  2 <= shorter_side (octave_shape shape k)
  /\ (Z.of_nat k = num_octaves - 1 ->
      shorter_side (octave_shape shape k) <= 5).
Proof.
  intros Hh Hw shape n Hk.
  destruct (octave_count_bounds height width Hh Hw) as (_ & H0 & Hlo & Hhi).
  fold shape n in H0, Hlo, Hhi.
  set (m := shorter_side shape) in *.
  assert (Hm : 2 <= m)
    by (unfold m, shape, shorter_side, base_shape; cbn [fst snd]; lia).
  assert (Hside : 2 ^ n <= m) by (apply pow2_le_side; lia).
  rewrite shorter_side_octave. fold m.
  assert (Hpk : 0 < 2 ^ Z.of_nat k) by (apply Z.pow_pos_nonneg; lia).
  split.
  - apply Z.div_le_lower_bound; [assumption |].
    replace (2 ^ Z.of_nat k * 2) with (2 ^ (Z.of_nat k + 1))
      by (rewrite Z.pow_add_r by lia; ring).
    transitivity (2 ^ n); [apply Z.pow_le_mono_r; lia | assumption].
  - intros Hlast.
    assert (m / 2 ^ Z.of_nat k < 6); [| lia].
    apply Z.div_lt_upper_bound; [assumption |].
    rewrite Hlast.
    assert (Hp : 0 < 2 ^ (n - 1)) by (apply Z.pow_pos_nonneg; lia).
    assert (Hn : 2 ^ n = 2 * 2 ^ (n - 1)).
    { replace n with (n - 1 + 1) at 1 by lia.
      rewrite Z.pow_add_r by lia. ring. }
    assert (Hsq : 2 ^ (2 * n + 3) = 8 * (2 ^ n * 2 ^ n)).
    { replace (2 * n + 3) with (3 + (n + n)) by lia.
      rewrite !Z.pow_add_r by lia. reflexivity. }
    rewrite Hsq, Hn in Hhi.
    destruct (Z.lt_ge_cases m (2 ^ (n - 1) * 6)) as [|Hge]; [assumption |].
    exfalso. nia.
Qed.

Lemma octave_sides_bounds_witness :
  let shape := base_shape (23, 23) in
  let num_octaves := computeNumberOfOctaves shape in
  2 <= shorter_side (octave_shape shape 4)
  /\ (Z.of_nat 4 = num_octaves - 1 ->
      shorter_side (octave_shape shape 4) <= 5).
Proof.
  apply (octave_sides_bounds 23 23 4); [lia | lia |].
  rewrite octaves_of_23. lia.
Defined.

End OctaveCountFacts.

(* ================================================================== *)
(** * The comparator as an order *)
(* ================================================================== *)

Section ComparatorFacts.
Import Dedup.

Lemma Qneb_sym (a b : Q) : Qneb a b = Qneb b a.
Proof.
  unfold Qneb. f_equal.
  destruct (Qeq_bool a b) eqn:Hab; symmetry.
  - apply Qeq_bool_iff. apply Qeq_bool_iff in Hab. now symmetry.
  - apply not_true_iff_false. intros Hba. apply Qeq_bool_iff in Hba.
    assert (Qeq_bool a b = true) by (apply Qeq_bool_iff; now symmetry).
    congruence.
Qed.

Lemma compare_level_neg (a b c d : Q) :
  (c == - d)%Q ->
  ((if Qneb a b then (a - b)%Q else c) == - (if Qneb b a then (b - a)%Q else d))%Q.
Proof.
  intros Hcd. rewrite (Qneb_sym b a).
  destruct (Qneb a b); [ring | assumption].
Qed.

(** [compareKeypoints(b, a)] is the opposite of [compareKeypoints(a, b)]. *)
Lemma compareKeypoints_antisym (k1 k2 : KeyPoint) :
  (compareKeypoints k2 k1 == - compareKeypoints k1 k2)%Q.
Proof.
  unfold compareKeypoints.
  rewrite (Qneb_sym (fst (pt k2))), (Qneb_sym (snd (pt k2))),
    (Qneb_sym (size k2)), (Qneb_sym (angle k2)), (Qneb_sym (response k2)),
    (Z.eqb_sym (octave k2)).
  destruct (Qneb (fst (pt k1)) (fst (pt k2))); [ring |].
  destruct (Qneb (snd (pt k1)) (snd (pt k2))); [ring |].
  destruct (Qneb (size k1) (size k2)); [ring |].
  destruct (Qneb (angle k1) (angle k2)); [ring |].
  destruct (Qneb (response k1) (response k2)); [ring |].
  destruct (octave k1 =? octave k2); cbn [negb];
    rewrite !inject_Z_sub; ring.
Qed.

Lemma inject_Z_zero (z : Z) : (inject_Z z == 0)%Q -> z = 0.
Proof. unfold Qeq. cbn. lia. Qed.

(** The comparator returns zero exactly for keypoints that agree in the
    seven fields it reads. *)
Lemma compareKeypoints_zero (k1 k2 : KeyPoint) :
  (compareKeypoints k1 k2 == 0)%Q <-> same_fields k1 k2.
Proof.
  unfold compareKeypoints, same_fields.
  destruct (Qneb (fst (pt k1)) (fst (pt k2))) eqn:E1;
    [apply Qneb_true in E1; split; [intros H; exfalso; apply E1; lra | tauto] |].
  apply Qneb_false in E1.
  destruct (Qneb (snd (pt k1)) (snd (pt k2))) eqn:E2;
    [apply Qneb_true in E2; split; [intros H; exfalso; apply E2; lra | tauto] |].
  apply Qneb_false in E2.
  destruct (Qneb (size k1) (size k2)) eqn:E3;
    [apply Qneb_true in E3; split; [intros H; exfalso; apply E3; lra | tauto] |].
  apply Qneb_false in E3.
  destruct (Qneb (angle k1) (angle k2)) eqn:E4;
    [apply Qneb_true in E4; split; [intros H; exfalso; apply E4; lra | tauto] |].
  apply Qneb_false in E4.
  destruct (Qneb (response k1) (response k2)) eqn:E5;
    [apply Qneb_true in E5; split; [intros H; exfalso; apply E5; lra | tauto] |].
  apply Qneb_false in E5.
  destruct (Z.eqb_spec (octave k1) (octave k2)) as [E6 | E6]; cbn [negb].
  - split.
    + intros H. repeat split; try assumption.
      apply inject_Z_zero in H. lia.
    + intros (_ & _ & _ & _ & _ & _ & H7). rewrite H7, Z.sub_diag. reflexivity.
  - split; [| tauto].
    intros H. exfalso. apply inject_Z_zero in H. lia.
Qed.

(** X3.  [compareKeypoints] is a consistent comparator: swapping its
    arguments negates the result, it is zero exactly when the keypoints
    agree in x, y, size, angle, response, octave and class id, and the
    [<] that [cmp_to_key] derives from it is transitive on keypoints
    that are not equal in this sense. *)
Theorem compareKeypoints_consistent (k1 k2 k3 : KeyPoint) :
  (compareKeypoints k2 k1 == - compareKeypoints k1 k2)%Q
  /\ ((compareKeypoints k1 k2 == 0)%Q <-> same_fields k1 k2)
  /\ (cmp_to_key_lt compareKeypoints k1 k2 = true ->
      cmp_to_key_lt compareKeypoints k2 k3 = true ->
      cmp_to_key_lt compareKeypoints k1 k3 = true).
Proof.
  split; [apply compareKeypoints_antisym |].
  split; [apply compareKeypoints_zero |].
  unfold cmp_to_key_lt. rewrite !compareKeypoints_lt.
  intros H12 H23.
  pose proof (lex_compare_le_trans (sort_key k3) (sort_key k2) (sort_key k1)) as Htr.
  rewrite (lex_compare_antisym (sort_key k2) (sort_key k3)) in Htr.
  rewrite (lex_compare_antisym (sort_key k1) (sort_key k2)) in Htr.
  rewrite (lex_compare_antisym (sort_key k1) (sort_key k3)) in Htr.
  rewrite H12, H23 in Htr. cbn [CompOpp] in Htr.
  destruct (lex_compare (sort_key k1) (sort_key k3)) eqn:E13; cbn [CompOpp] in Htr.
  - (* equal keys would put k3 not after k1, against k1 < k2 < k3 *)
    exfalso.
    pose proof (lex_compare_le_trans (sort_key k3) (sort_key k1) (sort_key k2)) as Htr'.
    rewrite (lex_compare_antisym (sort_key k1) (sort_key k3)), E13 in Htr'.
    rewrite H12 in Htr'.
    rewrite (lex_compare_antisym (sort_key k2) (sort_key k3)), H23 in Htr'.
    cbn [CompOpp] in Htr'. apply Htr'; congruence.
  - reflexivity.
  - exfalso.
    pose proof (lex_compare_le_trans (sort_key k3) (sort_key k1) (sort_key k2)) as Htr'.
    rewrite (lex_compare_antisym (sort_key k1) (sort_key k3)), E13 in Htr'.
    rewrite H12 in Htr'.
    rewrite (lex_compare_antisym (sort_key k2) (sort_key k3)), H23 in Htr'.
    cbn [CompOpp] in Htr'. apply Htr'; congruence.
Qed.

End ComparatorFacts.

(* ================================================================== *)
(** * What duplicate removal keeps *)
(* ================================================================== *)

Section DedupKeeps.
Import Dedup.

Variable h : heap.

Lemma unique_loop_incl (rest : list ref) :
  forall acc z, In z (unique_loop h acc rest) -> In z (acc ++ rest).
Proof.
  induction rest as [|y rest IH]; intros acc z Hin; simpl in Hin.
  - now rewrite app_nil_r.
  - destruct (differs _ _).
    + apply IH in Hin. now rewrite <- app_assoc in Hin.
    + apply IH in Hin. apply in_app_or in Hin.
      apply in_or_app. destruct Hin; [now left | right; now right].
Qed.

Lemma unique_loop_prefix (rest : list ref) :
  forall acc z, In z acc -> In z (unique_loop h acc rest).
Proof.
  induction rest as [|y rest IH]; intros acc z Hin; simpl.
  - assumption.
  - destruct (differs _ _); apply IH; [apply in_or_app; now left | assumption].
Qed.

Lemma unique_loop_NoDup (rest : list ref) :
  forall acc, NoDup (acc ++ rest) -> NoDup (unique_loop h acc rest).
Proof.
  induction rest as [|y rest IH]; intros acc Hnd; simpl.
  - now rewrite app_nil_r in Hnd.
  - destruct (differs _ _).
    + apply IH. now rewrite <- app_assoc.
    + apply IH. now apply NoDup_remove_1 in Hnd.
Qed.

Lemma unique_loop_length (rest : list ref) :
  forall acc, (length (unique_loop h acc rest) <= length acc + length rest)%nat.
Proof.
  induction rest as [|y rest IH]; intros acc; simpl.
  - lia.
  - destruct (differs _ _).
    + specialize (IH (acc ++ [y])). rewrite length_app in IH. simpl in IH. lia.
    + specialize (IH acc). lia.
Qed.

(** X4.  [removeDuplicateKeypoints] invents nothing: what it returns are
    objects of its argument, no more of them than it was given, and
    pairwise distinct if those were.  In particular the list that
    [computeKeypointsAndDescriptors] passes on to
    [convertKeypointsToInputImageSize], made from the freshly built
    objects 0, 1, ..., n-1, has no object twice. *)
Theorem removeDuplicateKeypoints_sublist (keypoints : list ref) (n : nat) :
  let unique_keypoints := removeDuplicateKeypoints h keypoints in
  (forall r, In r unique_keypoints -> In r keypoints)
  /\ (length unique_keypoints <= length keypoints)%nat
  /\ (NoDup keypoints -> NoDup unique_keypoints)
  /\ NoDup (removeDuplicateKeypoints h (seq 0 n)).
Proof.
  assert (Hgen : forall l,
             (forall r, In r (removeDuplicateKeypoints h l) -> In r l)
             /\ (length (removeDuplicateKeypoints h l) <= length l)%nat
             /\ (NoDup l -> NoDup (removeDuplicateKeypoints h l))).
  { intros l. unfold removeDuplicateKeypoints.
    destruct (Z.of_nat (length l) <? 2); [repeat split; auto |].
    pose proof (list_sort_perm (keypoint_lt h) l) as Hperm.
    destruct (list_sort (keypoint_lt h) l) as [|first rest] eqn:Hs.
    - repeat split; [intros r [] | simpl; lia | constructor].
    - repeat split.
      + intros r Hin. apply unique_loop_incl in Hin.
        apply (Permutation_in _ (Permutation_sym Hperm)). exact Hin.
      + pose proof (unique_loop_length rest [first]) as Hl.
        apply Permutation_length in Hperm. simpl in *. lia.
      + intros Hnd. apply unique_loop_NoDup.
        apply (Permutation_NoDup Hperm Hnd). }
  cbv zeta. destruct (Hgen keypoints) as (H1 & H2 & H3).
  repeat split; try assumption.
  apply (Hgen (seq 0 n)). apply seq_NoDup.
Qed.

Lemma differs_refl (k : KeyPoint) : differs k k = false.
Proof.
  unfold differs.
  rewrite !(proj2 (Qneb_false _ _)) by reflexivity. reflexivity.
Qed.

Lemma differs_false (k1 k2 : KeyPoint) :
  differs k1 k2 = false <->
  (fst (pt k1) == fst (pt k2))%Q /\ (snd (pt k1) == snd (pt k2))%Q
  /\ (size k1 == size k2)%Q /\ (angle k1 == angle k2)%Q.
Proof.
  unfold differs. rewrite !orb_false_iff, !Qneb_false. tauto.
Qed.

Lemma differs_false_trans (k1 k2 k3 : KeyPoint) :
  differs k1 k2 = false -> differs k2 k3 = false -> differs k1 k3 = false.
Proof.
  rewrite !differs_false.
  intros (A1 & A2 & A3 & A4) (B1 & B2 & B3 & B4).
  repeat split; etransitivity; eassumption.
Qed.

(** Of two keypoints that agree in x, y, size and angle, the one the
    order puts first has the larger response. *)
Lemma key_le_response (k1 k2 : KeyPoint) :
  key_le k1 k2 -> differs k1 k2 = false ->
  (response k2 <= response k1)%Q.
Proof.
  unfold key_le, sort_key, lex_compare.
  rewrite differs_false. intros Hle (E1 & E2 & E3 & E4).
  rewrite (proj1 (Qeq_alt _ _) E1), (proj1 (Qeq_alt _ _) E2) in Hle.
  assert (E3' : (- size k1 == - size k2)%Q) by lra.
  rewrite (proj1 (Qeq_alt _ _) E3'), (proj1 (Qeq_alt _ _) E4) in Hle.
  destruct (Qcompare_spec (- response k1) (- response k2)) as [H | H | H];
    try lra.
  exfalso. now apply Hle.
Qed.

Lemma keypoint_lt_irrefl (a : ref) : keypoint_lt h a a = false.
Proof.
  destruct (keypoint_lt h a a) eqn:E; [| reflexivity].
  pose proof (keypoint_lt_asym h a a E). congruence.
Qed.

(** Every element of the sorted list is represented in the output of
    the walk by an element that is not after it and agrees with it in
    x, y, size and angle. *)
Lemma unique_loop_represents (rest : list ref) :
  forall acc x y,
    StronglySorted (not_after (keypoint_lt h)) ((acc ++ [x]) ++ rest) ->
    In y ((acc ++ [x]) ++ rest) ->
    exists z,
      In z (unique_loop h (acc ++ [x]) rest)
      /\ differs (h z) (h y) = false
      /\ not_after (keypoint_lt h) z y.
Proof.
  induction rest as [|y0 rest IH]; intros acc x y Hs Hin.
  - rewrite app_nil_r in Hin. exists y. simpl.
    repeat split; [assumption | apply differs_refl | apply keypoint_lt_irrefl].
  - cbn [unique_loop]. rewrite last_last.
    destruct (differs (h x) (h y0)) eqn:Hd.
    + apply IH; now rewrite <- app_assoc.
    + pose proof (StronglySorted_remove _ _ _ _ Hs) as Hs'.
      apply in_app_or in Hin. destruct Hin as [Hin | [<- | Hin]].
      * apply IH; [assumption | apply in_or_app; now left].
      * (* the dropped keypoint is represented by what represents x *)
        destruct (IH acc x x Hs') as (z & Hz & Hzx & Hle).
        { apply in_or_app. left. apply in_or_app. right. now left. }
        exists z. split; [assumption |]. split.
        -- eapply differs_false_trans; eassumption.
        -- apply (keypoint_not_after_trans h z x y0); [assumption |].
           (* x is before y0 in the sorted list *)
           clear - Hs. induction acc as [|a acc IHa]; simpl in Hs.
           ++ apply StronglySorted_inv in Hs. destruct Hs as [_ Hall].
              inversion Hall; subst. assumption.
           ++ apply StronglySorted_inv in Hs. destruct Hs as [Hs _].
              now apply IHa.
      * apply IH; [assumption | apply in_or_app; now right].
Qed.

(** X5.  Duplicate removal loses no detection: every keypoint of the
    argument is either kept or represented by a kept keypoint with the
    same x, y, size and angle and a response at least as large. *)
Theorem removeDuplicateKeypoints_keeps_best (keypoints : list ref) (r : ref) :
  In r keypoints ->
  exists kept,
    In kept (removeDuplicateKeypoints h keypoints)
    /\ differs (h kept) (h r) = false
    /\ (response (h r) <= response (h kept))%Q.
Proof.
  intros Hin. unfold removeDuplicateKeypoints.
  destruct (Z.of_nat (length keypoints) <? 2).
  - exists r. repeat split; [assumption | apply differs_refl | apply Qle_refl].
  - pose proof (list_sort_sorted (keypoint_lt h) (keypoint_lt_asym h)
                  (keypoint_not_after_trans h) keypoints) as Hsorted.
    pose proof (list_sort_perm (keypoint_lt h) keypoints) as Hperm.
    apply (Permutation_in _ Hperm) in Hin.
    destruct (list_sort (keypoint_lt h) keypoints) as [|first rest];
      [contradiction |].
    destruct (unique_loop_represents rest [] first r Hsorted Hin)
      as (z & Hz & Hd & Hle).
    exists z. repeat split; try assumption.
    apply key_le_response; [| assumption].
    apply keypoint_lt_false. exact Hle.
Qed.

End DedupKeeps.

Lemma removeDuplicateKeypoints_keeps_best_witness :
  exists kept,
    In kept (Dedup.removeDuplicateKeypoints sample_duplicates [0; 1; 2; 3]%nat)
    /\ Dedup.differs (sample_duplicates kept) (sample_duplicates 0%nat) = false
    /\ (response (sample_duplicates 0%nat)
        <= response (sample_duplicates kept))%Q.
Proof.
  apply (removeDuplicateKeypoints_keeps_best sample_duplicates
           [0; 1; 2; 3]%nat 0%nat).
  simpl; auto.
Defined.


(* ================================================================== *)
(** * The scan at the edge of an image *)
(* ================================================================== *)

Section EdgeFacts.
Import Extrema Pipeline.

(** [l[-1:2]] has at most one element. *)
Lemma py_slice_edge_length {A : Type} (l : list A) :
  (length (py_slice l (-1) 2) <= 1)%nat.
Proof.
  unfold py_slice. rewrite length_firstn.
  destruct (Z.ltb_spec (-1) 0); [| lia].
  destruct (Z.ltb_spec 2 0); [lia |].
  lia.
Qed.

Lemma index1_short {A : Type} (l : list A) (k : nat) :
  (length l <= k)%nat -> index1 l k = Raise IndexError.
Proof.
  intros H. unfold index1.
  now rewrite (proj2 (nth_error_None l k) H).
Qed.

(** A window at row 0 or column 0 has no element [1, 1]. *)
Lemma window_edge_no_centre (img : array2) (i j : Z) :
  i = 0 \/ j = 0 -> index2 (window3 img i j) 1 1 = Raise IndexError.
Proof.
  intros Hedge. unfold index2, window3, slice2.
  destruct Hedge as [-> | ->].
  - rewrite index1_short; [reflexivity |].
    rewrite length_map. apply py_slice_edge_length.
  - destruct (index1 _ 1) as [row | e] eqn:Hrow; cbn [bind].
    + unfold index1 in Hrow.
      destruct (nth_error _ 1) as [row' |] eqn:Hn; [| discriminate].
      injection Hrow as <-.
      apply nth_error_In in Hn. apply in_map_iff in Hn.
      destruct Hn as (r & <- & _).
      apply index1_short. apply py_slice_edge_length.
    + unfold index1 in Hrow.
      destruct (nth_error _ 1); [discriminate |]. now injection Hrow as <-.
Qed.

Lemma isPixelAnExtremum_edge (first_image second_image third_image : array2)
    (i j : Z) (threshold : Q) :
  i = 0 \/ j = 0 ->
  detect first_image second_image third_image i j threshold = Raise IndexError.
Proof.
  intros Hedge. unfold detect, isPixelAnExtremum.
  now rewrite window_edge_no_centre.
Qed.

Lemma py_range2_cons (lo hi : Z) :
  lo < hi -> exists rest, py_range2 lo hi = lo :: rest.
Proof.
  intros H. unfold py_range2.
  destruct (Z.to_nat (hi - lo)) as [|n] eqn:E; [lia |].
  cbn [seq map]. rewrite Z.add_0_r. eexists. reflexivity.
Qed.

Variable exp2 : Q -> Q.
Variable lstsq : list (list Q) -> list Q -> result (list Q).
Variable orientation_samples :
  KeyPoint -> Z -> array2 -> Q -> Z -> Q -> list (Z * Q).

(** X6.  With [image_border_width = 0] the scan starts at pixel (0, 0), whose
    window [img[-1:2, -1:2]] is empty in Python: as soon as the first
    octave has three DoG images with a pixel, [findScaleSpaceExtrema]
    raises [IndexError], whatever the images hold. *)
Theorem zero_border_raises_IndexError (G : namespace)
    (gaussian_images : list (list array2))
    (first_image second_image third_image : array2)
    (more_images : list array2) (more_octaves : list (list array2))
    (num_intervals : Z) (sigma contrast_threshold : Q) :
  num_intervals <> 0 ->
  1 <= fst (shape2 first_image) -> 1 <= snd (shape2 first_image) ->
  findScaleSpaceExtrema exp2 lstsq orientation_samples G gaussian_images
    ((first_image :: second_image :: third_image :: more_images) :: more_octaves)
    num_intervals sigma 0 contrast_threshold
  = Raise IndexError.
Proof.
  intros Hn Hrows Hcols. unfold findScaleSpaceExtrema, extremum_threshold.
  destruct (Z.eqb_spec num_intervals 0); [contradiction |]. cbn [bind].
  unfold enumerate at 1.
  cbn [length]. rewrite Nat2Z.inj_succ.
  unfold py_range at 1.
  rewrite Z2Nat.inj_succ by lia. cbn [seq map combine for_each fst snd].
  unfold enumerate, zip3.
  cbn [skipn length combine].
  rewrite !Nat2Z.inj_succ. unfold py_range.
  rewrite Z2Nat.inj_succ by lia. cbn [seq map combine for_each fst snd].
  rewrite Z.sub_0_r.
  destruct (py_range2_cons 0 (fst (shape2 first_image)) ltac:(lia)) as [ri ->].
  cbn [for_each].
  rewrite Z.sub_0_r.
  destruct (py_range2_cons 0 (snd (shape2 first_image)) ltac:(lia)) as [rj ->].
  cbn [for_each].
  unfold scan_pixel at 1.
  match goal with
  | |- context [isPixelAnExtremum ?a ?b ?c ?t] =>
      change (isPixelAnExtremum a b c t)
        with (detect first_image second_image third_image 0 0 t)
  end.
  rewrite isPixelAnExtremum_edge by now left.
  reflexivity.
Qed.

End EdgeFacts.

Lemma zero_border_raises_IndexError_witness :
  Pipeline.findScaleSpaceExtrema crude_exp2 no_lstsq no_orientation_samples
    pysift_globals [] [[sample_flat4; sample_peak4; sample_flat4]]
    1 Pipeline.default_sigma 0 Pipeline.default_contrast_threshold
  = Raise IndexError.
Proof.
  apply (zero_border_raises_IndexError crude_exp2 no_lstsq
           no_orientation_samples pysift_globals []
           sample_flat4 sample_peak4 sample_flat4 [] []).
  - lia.
  - cbn. lia.
  - cbn. lia.
Defined.

(* ================================================================== *)
(** * What the unbound names do to the pipeline *)
(* ================================================================== *)

Section NeverAKeypoint.
Import Derivatives Pipeline.

Variable interpolate : interpolation -> array2 -> Z -> Z -> array2.
Variable blur : array2 -> Q -> array2.
Variable sqrtQ : Q -> Q.
Variable exp2 : Q -> Q.
Variable lstsq : list (list Q) -> list Q -> result (list Q).
Variable orientation_samples :
  KeyPoint -> Z -> array2 -> Q -> Z -> Q -> list (Z * Q).
Variable descriptor_samples :
  KeyPoint -> Q -> array2 -> Z -> Z -> Q -> list Descriptor.sample.

(** With the module's globals the Hessian is never returned, on any
    array. *)
Lemma hessian_never_returns (pixel_array : array3) :
  exists e, computeHessianAtCenterPixel pysift_globals pixel_array = Raise e.
Proof.
  unfold computeHessianAtCenterPixel.
  destruct (index3 pixel_array 1 1 2) as [a | e]; [| eexists; reflexivity].
  cbn [bind].
  destruct (index3 pixel_array 1 1 0) as [b | e]; [| eexists; reflexivity].
  cbn [bind]. eexists. reflexivity.
Qed.

Lemma attempts_never_return
    (dog_images_in_octave : list array2) (image_shape : Z * Z)
    (num_intervals image_border_width attempt_index : Z) (rest : list Z)
    (i j image_index : Z) (last : option fit) :
  exists e,
    attempts lstsq pysift_globals dog_images_in_octave image_shape
      num_intervals image_border_width (attempt_index :: rest)
      i j image_index last
    = Raise e.
Proof.
  cbn [attempts].
  destruct (unpack3 _) as [[[a b] c] | e]; [| eexists; reflexivity].
  cbn [bind].
  destruct (stack3 _ _ _) as [stacked | e]; [| eexists; reflexivity].
  cbn [bind].
  destruct (computeGradientAtCenterPixel _) as [g | e]; [| eexists; reflexivity].
  cbn [bind].
  destruct (hessian_never_returns
              (map (map (map (fun v => (v / 255)%Q))) stacked)) as [e He].
  rewrite He. eexists. reflexivity.
Qed.

(** As the module stands, [localizeExtremumViaQuadraticFit] never
    returns, whatever it is called with: neither a keypoint nor [None]. *)
Lemma localize_never_returns
    (i j image_index octave_index num_intervals : Z)
    (dog_images_in_octave : list array2)
    (sigma contrast_threshold : Q) (image_border_width : Z)
    (eigenvalue_ratio : Q) (num_attempts_until_convergence : Z) :
  exists e,
    localizeExtremumViaQuadraticFit lstsq exp2 pysift_globals
      i j image_index octave_index num_intervals dog_images_in_octave
      sigma contrast_threshold image_border_width
      eigenvalue_ratio num_attempts_until_convergence
    = Raise e.
Proof.
  unfold localizeExtremumViaQuadraticFit.
  destruct (index1 dog_images_in_octave 0) as [first | e];
    [| eexists; reflexivity].
  cbn [bind].
  destruct (py_range num_attempts_until_convergence) as [|a rest].
  - cbn. eexists. reflexivity.
  - destruct (attempts_never_return dog_images_in_octave (shape2 first)
                num_intervals image_border_width a rest i j image_index None)
      as [e He].
    rewrite He. eexists. reflexivity.
Qed.

Lemma for_each_unchanged {A S : Type} (body : A -> S -> result S) (l : list A) :
  (forall x s s', body x s = Ok s' -> s' = s) ->
  forall s s', for_each l s body = Ok s' -> s' = s.
Proof.
  intros Hbody. induction l as [|x l IH]; intros s s' H; simpl in H.
  - now injection H as <-.
  - destruct (body x s) as [s1 |] eqn:E; [| discriminate].
    cbn [bind] in H. apply Hbody in E. subst s1. now apply IH.
Qed.

Lemma scan_pixel_unchanged
    (gaussian_images : list (list array2)) (dog_images_in_octave : list array2)
    (first_image second_image third_image : array2)
    (octave_index image_index num_intervals : Z) (sigma : Q)
    (image_border_width : Z) (contrast_threshold threshold : Q)
    (i j : Z) (keypoints keypoints' : list KeyPoint) :
  scan_pixel exp2 lstsq orientation_samples pysift_globals gaussian_images
    dog_images_in_octave first_image second_image third_image octave_index
    image_index num_intervals sigma image_border_width contrast_threshold
    threshold i j keypoints = Ok keypoints' ->
  keypoints' = keypoints.
Proof.
  unfold scan_pixel.
  destruct (Extrema.isPixelAnExtremum _ _ _ _) as [[|] | e]; cbn [bind].
  - destruct (localize_never_returns i j (image_index + 1) octave_index
                num_intervals dog_images_in_octave sigma contrast_threshold
                image_border_width default_eigenvalue_ratio
                default_num_attempts_until_convergence) as [e He].
    rewrite He. discriminate.
  - now intros [= <-].
  - discriminate.
Qed.

Lemma findScaleSpaceExtrema_finds_nothing
    (gaussian_images dog_images : list (list array2))
    (num_intervals : Z) (sigma : Q) (image_border_width : Z)
    (contrast_threshold : Q) (keypoints : list KeyPoint) :
  findScaleSpaceExtrema exp2 lstsq orientation_samples pysift_globals
    gaussian_images dog_images num_intervals sigma image_border_width
    contrast_threshold = Ok keypoints ->
  keypoints = [].
Proof.
  unfold findScaleSpaceExtrema, Extrema.extremum_threshold.
  destruct (num_intervals =? 0); [discriminate |]. cbn [bind].
  apply for_each_unchanged. intros octave s s'.
  apply for_each_unchanged. intros triplet s1 s1'.
  apply for_each_unchanged. intros i s2 s2'.
  apply for_each_unchanged. intros j s3 s3'.
  apply scan_pixel_unchanged.
Qed.

(** X7.  As the module stands, the pipeline cannot return a keypoint: for
    every image and every setting, [findScaleSpaceExtrema] and
    [computeKeypointsAndDescriptors] either raise or return empty
    outputs, because every extremum that passes the test is handed to
    [localizeExtremumViaQuadraticFit], which never returns. *)
Theorem pipeline_never_returns_a_keypoint
    (image : array2) (sigma : Q) (num_intervals : Z) (assumed_blur : Q)
    (image_border_width : Z)
    (gaussian_images dog_images : list (list array2))
    (contrast_threshold : Q) :
  match findScaleSpaceExtrema exp2 lstsq orientation_samples pysift_globals
          gaussian_images dog_images num_intervals sigma image_border_width
          contrast_threshold with
  | Ok keypoints => keypoints = []
  | Raise _ => True
  end
  /\ match computeKeypointsAndDescriptors interpolate blur sqrtQ exp2 lstsq
             orientation_samples descriptor_samples pysift_globals image
             sigma num_intervals assumed_blur image_border_width with
     | Ok (_, keypoints, descriptors) => keypoints = [] /\ descriptors = []
     | Raise _ => True
     end.
Proof.
  split.
  - destruct (findScaleSpaceExtrema _ _ _ _ _ _ _ _ _ _) as [kps | e] eqn:E;
      [| exact I].
    now apply findScaleSpaceExtrema_finds_nothing in E.
  - unfold computeKeypointsAndDescriptors.
    destruct (generateBaseImage _ _ _ _ _ _) as [base | e]; [| exact I].
    cbn [bind].
    destruct (generateGaussianKernels _ _ _ _) as [kernels | e]; [| exact I].
    cbn [bind].
    destruct (generateGaussianImages _ _ _ _ _) as [pyr | e]; [| exact I].
    cbn [bind].
    destruct (generateDoGImages pyr) as [dogs | e]; [| exact I].
    cbn [bind].
    destruct (findScaleSpaceExtrema _ _ _ _ _ _ _ _ _ _) as [kps | e] eqn:E;
      [| exact I].
    apply findScaleSpaceExtrema_finds_nothing in E. subst kps.
    cbn. split; reflexivity.
Qed.

(** X8.  Two ways of calling [localizeExtremumViaQuadraticFit] that fail
    whatever the globals are: an empty octave raises [IndexError], and a
    budget of zero attempts (or less) leaves [attempt_index] unbound, so
    that the test after the loop raises [UnboundLocalError] instead of
    returning [None]. *)
Theorem localize_without_attempts (G : namespace)
    (i j image_index octave_index num_intervals : Z)
    (first_image : array2) (more_images : list array2)
    (sigma contrast_threshold : Q) (image_border_width : Z)
    (eigenvalue_ratio : Q) (num_attempts_until_convergence : Z) :
  num_attempts_until_convergence <= 0 ->
  localizeExtremumViaQuadraticFit lstsq exp2 G
    i j image_index octave_index num_intervals (first_image :: more_images)
    sigma contrast_threshold image_border_width
    eigenvalue_ratio num_attempts_until_convergence
  = Raise (UnboundLocalError "attempt_index")
  /\ localizeExtremumViaQuadraticFit lstsq exp2 G
       i j image_index octave_index num_intervals []
       sigma contrast_threshold image_border_width
       eigenvalue_ratio num_attempts_until_convergence
     = Raise IndexError.
Proof.
  intros Hn. unfold localizeExtremumViaQuadraticFit, py_range.
  replace (Z.to_nat num_attempts_until_convergence) with 0%nat by lia.
  split; reflexivity.
Qed.

End NeverAKeypoint.

Lemma localize_without_attempts_witness :
  localizeExtremumViaQuadraticFit no_lstsq crude_exp2 pysift_globals
    1 1 1 0 1 [sample_flat; sample_peak; sample_flat]
    1.6%Q 0.04%Q 1 default_eigenvalue_ratio 0
  = Raise (UnboundLocalError "attempt_index")
  /\ localizeExtremumViaQuadraticFit no_lstsq crude_exp2 pysift_globals
       1 1 1 0 1 [] 1.6%Q 0.04%Q 1 default_eigenvalue_ratio 0
     = Raise IndexError.
Proof.
  apply (localize_without_attempts crude_exp2 no_lstsq pysift_globals
           1 1 1 0 1 sample_flat [sample_peak; sample_flat]).
  lia.
Defined.


(* ================================================================== *)
(** * The keypoints an orientation histogram gives *)
(* ================================================================== *)

Section OrientedKeypoints.
Import Orientation.

(** [x % n] lies in [0, n) for a positive [n]. *)
Lemma float_mod_range (x : Q) (n : Z) :
  0 < n -> (0 <= float_mod x n /\ float_mod x n < inject_Z n)%Q.
Proof.
  intros Hn. unfold float_mod.
  assert (HN : (0 < inject_Z n)%Q)
    by (change 0%Q with (inject_Z 0); rewrite <- Zlt_Qlt; lia).
  set (N := inject_Z n) in *.
  set (q := (x / N)%Q).
  assert (Hx : (x == q * N)%Q) by (unfold q; field; lra).
  pose proof (Qfloor_le q) as Hlo.
  pose proof (Qlt_floor q) as Hhi.
  rewrite inject_Z_plus in Hhi.
  set (F := inject_Z (Qfloor q)) in *.
  setoid_replace (x - N * F)%Q with ((q - F) * N)%Q by (rewrite Hx; ring).
  split.
  - apply Qmult_le_0_compat; lra.
  - setoid_replace N with (1 * N)%Q at 2 by ring.
    apply Qmult_lt_compat_r; [assumption | change (inject_Z 1) with 1%Q in Hhi; lra].
Qed.

(** The angle computed from an interpolated peak index. *)
Lemma orientation_range (m : Q) (n : Z) :
  0 < n -> (0 <= m)%Q -> (m < inject_Z n)%Q ->
  let orientation := (360 - m * 360 / inject_Z n)%Q in
  let snapped :=
    if Qltb (Qabs (orientation - 360)) float_tolerance then 0%Q
    else orientation in
  (0 <= snapped /\ snapped < 360)%Q.
Proof.
  intros Hn Hm0 Hm1 orientation snapped.
  assert (HN : (0 < inject_Z n)%Q)
    by (change 0%Q with (inject_Z 0); rewrite <- Zlt_Qlt; lia).
  assert (Hlo : (0 <= m * 360 / inject_Z n)%Q).
  { apply Qle_shift_div_l; [assumption |]. lra. }
  assert (Hhi : (m * 360 / inject_Z n < 360)%Q).
  { apply Qlt_shift_div_r; [assumption |]. lra. }
  unfold snapped.
  destruct (Qltb (Qabs (orientation - 360)) float_tolerance) eqn:E.
  - split; [apply Qle_refl | reflexivity].
  - assert (Hn' : ~ (Qabs (orientation - 360) < float_tolerance)%Q)
      by (rewrite <- Qltb_lt; congruence).
    rewrite Qabs_neg in Hn' by (unfold orientation; lra).
    unfold float_tolerance in Hn'. unfold orientation in *.
    split; lra.
Qed.

(** Rounding to the nearest integer keeps a number between the
    integers around it. *)
Lemma np_round_nonneg (x : Q) : (0 <= x)%Q -> 0 <= np_round x.
Proof.
  intros Hx. unfold np_round.
  assert (Hf : 0 <= Qfloor x).
  { change 0 with (Qfloor 0). now apply Qfloor_resp_le. }
  destruct (Qltb _ _); [assumption |].
  destruct (Qltb _ _); [lia |].
  destruct (Z.even _); lia.
Qed.

Lemma np_round_le (x : Q) (m : Z) : (x <= inject_Z m)%Q -> np_round x <= m.
Proof.
  intros Hx. unfold np_round.
  assert (Hf : Qfloor x <= m).
  { rewrite <- (Qfloor_Z m). now apply Qfloor_resp_le. }
  destruct (Qltb (x - inject_Z (Qfloor x)) (1 # 2)) eqn:E; [assumption |].
  assert (Hr : ~ (x - inject_Z (Qfloor x) < 1 # 2)%Q)
    by (rewrite <- Qltb_lt; congruence).
  apply Qnot_lt_le in Hr.
  assert (Hlt : Qfloor x < m).
  { rewrite Zlt_Qlt. clear Hf E. lra. }
  destruct (Qltb (1 # 2) _); [lia |].
  destruct (Z.even _); lia.
Qed.

(** A number of at most 360 lies below [2 ** 9]. *)
Lemma binade_le_8 (x : Q) : (0 < x)%Q -> (x <= 360)%Q -> binade x <= 8.
Proof.
  intros Hpos Hle. unfold binade.
  destruct x as [n d].
  assert (Hn : 0 < n) by (unfold Qlt in Hpos; simpl in Hpos; lia).
  assert (Hnd : n <= 360 * Zpos d)
    by (unfold Qle in Hle; simpl in Hle; lia).
  cbn [Qnum Qden].
  rewrite (Z.abs_eq n) by lia.
  set (e0 := Z.log2 n - Z.log2 (Zpos d)).
  assert (He0 : e0 <= 9).
  { assert (Z.log2 n <= Z.log2 (Zpos d * 2 ^ 9))
      by (apply Z.log2_le_mono; lia).
    rewrite Z.log2_mul_pow2 in H by lia. unfold e0. lia. }
  destruct (Qltb (Qabs (n # d)) (2 ^ e0)) eqn:E; [lia |].
  assert (Hge : ~ (Qabs (n # d) < 2 ^ e0)%Q)
    by (rewrite <- Qltb_lt; congruence).
  rewrite Qabs_pos in Hge by lra.
  destruct (Z.eq_dec e0 9) as [H9 | H9]; [| lia].
  exfalso. apply Hge. rewrite H9.
  assert (H512 : (2 ^ 9 == 512)%Q) by reflexivity.
  rewrite H512. lra.
Qed.

(** Rounding to float32 keeps an orientation between 0 and 360, which
    are float32 numbers themselves. *)
Lemma float32_range (x : Q) :
  (0 <= x)%Q -> (x <= 360)%Q -> (0 <= float32 x /\ float32 x <= 360)%Q.
Proof.
  intros H0 H360. unfold float32.
  destruct (Qeq_bool x 0) eqn:Ez; [split; [apply Qle_refl | discriminate] |].
  assert (Hpos : (0 < x)%Q).
  { apply Qeq_bool_neq in Ez. lra. }
  pose proof (binade_le_8 x Hpos H360) as Hb.
  set (k := Z.max (binade x) (-126) - 23).
  assert (Hk : k <= -15) by (unfold k; lia).
  set (D := 2 ^ (- k)).
  assert (HD : 0 < D) by (apply Z.pow_pos_nonneg; lia).
  assert (HDq : (0 < inject_Z D)%Q)
    by (change 0%Q with (inject_Z 0); now rewrite <- Zlt_Qlt).
  assert (Hu : (2 ^ k == / inject_Z D)%Q).
  { replace k with (- - k) at 1 by lia.
    rewrite Qpower_opp. unfold D.
    now rewrite Zpower_Qpower by lia. }
  assert (Hdiv : (x / 2 ^ k == x * inject_Z D)%Q).
  { unfold Qdiv. rewrite Hu, Qinv_involutive. reflexivity. }
  assert (Hlo : 0 <= np_round (x / 2 ^ k)).
  { apply np_round_nonneg. rewrite Hdiv.
    apply Qmult_le_0_compat; lra. }
  assert (Hhi : np_round (x / 2 ^ k) <= 360 * D).
  { apply np_round_le. rewrite Hdiv, inject_Z_mult.
    apply Qmult_le_compat_r; [assumption | lra]. }
  set (m := np_round (x / 2 ^ k)) in *.
  rewrite Hu.
  change (inject_Z m * / inject_Z D)%Q with (inject_Z m / inject_Z D)%Q.
  split.
  - apply Qle_shift_div_l; [assumption |].
    rewrite Qmult_0_l. change 0%Q with (inject_Z 0). now rewrite <- Zle_Qle.
  - apply Qle_shift_div_r; [assumption |].
    change 360%Q with (inject_Z 360). rewrite <- inject_Z_mult.
    now rewrite <- Zle_Qle.
Qed.

(** The spacing of float32 below 360 is [2 ** -15]: an orientation
    nearer to 360 than half of it, and further than [float_tolerance],
    is stored as 360. *)
Example float32_rounds_up_to_360 :
  Qltb (Qabs ((360 - (1 # 160000)) - 360)) float_tolerance = false
  /\ (float32 (360 - (1 # 160000)) == 360)%Q.
Proof. split; vm_compute; reflexivity. Qed.

Example orientation_of_360 :
  match orientations_of_samples (sample_heap 0%nat)
          sample_near_zero_orientation default_num_bins default_peak_ratio with
  | Ok l => map (fun k => Qred (angle k)) l
  | Raise _ => []
  end = [360%Q].
Proof. vm_compute. reflexivity. Qed.

(** What the body of the loop over the peaks appends: nothing, or one
    oriented copy of the keypoint. *)
Lemma orient_peak_shape (keypoint : KeyPoint) (smooth_histogram : list Q)
    (num_bins : Z) (peak_ratio orientation_max : Q) (p : Z)
    (new : list KeyPoint) :
  0 < num_bins ->
  orient_peak keypoint smooth_histogram num_bins peak_ratio orientation_max p
  = Ok new ->
  new = [] \/ exists k, new = [k] /\ oriented_copy_of keypoint k.
Proof.
  intros Hn. unfold orient_peak.
  destruct (py_get smooth_histogram p) as [peak_value | e]; [| discriminate].
  cbn [bind].
  destruct (Qle_bool _ _); [| intros [= <-]; now left].
  destruct (py_mod (p - 1) num_bins) as [kl | e]; [| discriminate].
  cbn [bind].
  destruct (py_get smooth_histogram kl) as [left_value | e]; [| discriminate].
  cbn [bind].
  destruct (py_mod (p + 1) num_bins) as [kr | e]; [| discriminate].
  cbn [bind].
  destruct (py_get smooth_histogram kr) as [right_value | e]; [| discriminate].
  cbn [bind].
  destruct (fdiv _ _) as [offset | e]; [| discriminate].
  cbn [bind]. intros [= <-]. right. eexists. split; [reflexivity |].
  unfold oriented_copy_of. cbn [pt size response octave class_id angle].
  destruct (float_mod_range (inject_Z p + offset) num_bins Hn) as [H0 H1].
  destruct (orientation_range _ num_bins Hn H0 H1) as [Hlo Hhi].
  repeat split; try reflexivity; apply float32_range;
    first [exact Hlo | apply Qlt_le_weak; exact Hhi].
Qed.

Lemma orientation_peaks_length (smooth_histogram : list Q) :
  (length (orientation_peaks smooth_histogram) <= length smooth_histogram)%nat.
Proof.
  unfold orientation_peaks.
  etransitivity; [apply filter_length_le |].
  rewrite py_range_length. lia.
Qed.

(** The loop over the peaks. *)
Lemma orient_loop_ok (keypoint : KeyPoint) (smooth_histogram : list Q)
    (num_bins : Z) (peak_ratio orientation_max : Q) (peaks : list Z) :
  2 <= num_bins ->
  Z.of_nat (length smooth_histogram) = num_bins ->
  (forall p, In p peaks -> In p (orientation_peaks smooth_histogram)) ->
  forall acc,
    Forall (oriented_copy_of keypoint) acc ->
    exists out,
      for_each peaks acc
        (fun peak_index keypoints_with_orientations =>
           (new <- orient_peak keypoint smooth_histogram num_bins peak_ratio
                               orientation_max peak_index ;;
            Ok (keypoints_with_orientations ++ new))%py)
      = Ok out
      /\ Forall (oriented_copy_of keypoint) out
      /\ (length out <= length acc + length peaks)%nat.
Proof.
  intros Hn Hlen. induction peaks as [|p peaks IH]; intros Hin acc Hacc.
  - exists acc. repeat split; [assumption | simpl; lia].
  - cbn [for_each].
    destruct (orient_peak_ok keypoint smooth_histogram num_bins peak_ratio
                orientation_max p Hn Hlen (Hin p (or_introl eq_refl)))
      as (_ & new & Hnew).
    rewrite Hnew. cbn [bind].
    destruct (orient_peak_shape keypoint smooth_histogram num_bins peak_ratio
                orientation_max p new ltac:(lia) Hnew) as [-> | (k & -> & Hk)].
    + rewrite app_nil_r.
      destruct (IH (fun q Hq => Hin q (or_intror Hq)) acc Hacc)
        as (out & Ho & Hg & Hl).
      exists out. repeat split; try assumption. simpl. lia.
    + destruct (IH (fun q Hq => Hin q (or_intror Hq)) (acc ++ [k]))
        as (out & Ho & Hg & Hl).
      { apply Forall_app. split; [assumption | now constructor]. }
      exists out. repeat split; try assumption.
      rewrite length_app in Hl. simpl in *. lia.
Qed.

Variable orientation_samples :
  KeyPoint -> Z -> array2 -> Q -> Z -> Q -> list (Z * Q).

(** X9.  Whatever the window holds, [computeKeypointsWithOrientations] with
    at least two bins returns: every keypoint in its result is a copy
    of the keypoint it was given (same position, size, response and
    packed octave, class id -1) with an angle from 0 to 360, and there
    are no more of them than bins.  The angle 360 occurs: it is what
    float32 makes of an orientation less than [2 ** -16] below it. *)
Theorem orientations_are_copies_with_angles
    (keypoint : KeyPoint) (octave_index : Z) (gaussian_image : array2)
    (radius_factor : Q) (num_bins : Z) (peak_ratio scale_factor : Q) :
  2 <= num_bins ->
  exists keypoints_with_orientations,
    computeKeypointsWithOrientations orientation_samples keypoint octave_index
      gaussian_image radius_factor num_bins peak_ratio scale_factor
    = Ok keypoints_with_orientations
    /\ Forall (oriented_copy_of keypoint) keypoints_with_orientations
    /\ Z.of_nat (length keypoints_with_orientations) <= num_bins.
Proof.
  intros Hn. unfold computeKeypointsWithOrientations, orientations_of_samples.
  set (samples := orientation_samples _ _ _ _ _ _).
  destruct (accumulate_ok num_bins samples ltac:(lia)) as (raw & Hraw & Hrl).
  rewrite Hraw. cbn [bind].
  destruct (smooth_ok raw num_bins Hn Hrl) as (sm & Hsm & Hsl).
  rewrite Hsm. cbn [bind].
  destruct sm as [|x sm]; [simpl in Hsl; lia |].
  cbn [py_max bind].
  destruct (orient_loop_ok keypoint (x :: sm) num_bins peak_ratio
              (fold_left (fun m v => if Qltb m v then v else m) sm x)
              (orientation_peaks (x :: sm)) Hn Hsl (fun p Hp => Hp) [])
    as (out & Ho & Hg & Hl); [constructor |].
  exists out. repeat split; try assumption.
  pose proof (orientation_peaks_length (x :: sm)). simpl in Hl. lia.
Qed.

End OrientedKeypoints.

Lemma orientations_are_copies_with_angles_witness :
  exists keypoints_with_orientations,
    Orientation.computeKeypointsWithOrientations
      (fun _ _ _ _ _ _ => sample_orientations) (sample_heap 0%nat) 0 sample_peak
      Orientation.default_radius_factor Orientation.default_num_bins
      Orientation.default_peak_ratio Orientation.default_scale_factor
    = Ok keypoints_with_orientations
    /\ Forall (oriented_copy_of (sample_heap 0%nat)) keypoints_with_orientations
    /\ Z.of_nat (length keypoints_with_orientations)
       <= Orientation.default_num_bins.
Proof.
  apply (orientations_are_copies_with_angles
           (fun _ _ _ _ _ _ => sample_orientations)).
  unfold Orientation.default_num_bins. lia.
Defined.


(* ================================================================== *)
(** * Unpacking the octave field *)
(* ================================================================== *)

Section UnpackFacts.
Import Convert Descriptor.

Lemma land_255_range (x : Z) : 0 <= Z.land x 255 < 256.
Proof.
  change 255 with (Z.ones 8). rewrite Z.land_ones by lia.
  apply Z.mod_pos_bound. lia.
Qed.

Lemma land_255_mod (x : Z) : Z.land x 255 = x mod 256.
Proof. change 255 with (Z.ones 8). now rewrite Z.land_ones by lia. Qed.

(** [b | -128] for a byte [b] with its top bit set is [b - 256]. *)
Lemma lor_sign_extend (b : Z) :
  128 <= b < 256 -> Z.lor b (-128) = b - 256.
Proof.
  intros Hb.
  assert (Hall : forallb (fun x => Z.lor x (-128) =? x - 256)
                         (map Z.of_nat (seq 128 128)) = true)
    by (vm_compute; reflexivity).
  rewrite forallb_forall in Hall.
  apply Z.eqb_eq, Hall.
  replace b with (Z.of_nat (Z.to_nat b)) by lia.
  apply in_map, in_seq. lia.
Qed.

Lemma shiftl_1_pos (n : Z) : 0 <= n -> (0 < inject_Z (Z.shiftl 1 n))%Q.
Proof.
  intros Hn. rewrite Z.shiftl_1_l.
  change 0%Q with (inject_Z 0). rewrite <- Zlt_Qlt.
  apply Z.pow_pos_nonneg; lia.
Qed.

(** X10.  [unpackOctave] reads the low byte of the packed field as a signed
    8-bit integer and the next byte as an unsigned one, whatever the
    field holds.  For every signed byte but -128 the scale is
    [2 ** -octave]: [1 / 2 ** octave] from 0 on, [2 ** |octave|] below.
    (For -128 the source's [float32(1 << 128)] is infinite; nothing is
    said of that scale.) *)
Theorem unpackOctave_signed_byte (keypoint : KeyPoint) :
  let '(unpacked, layer, scale) := unpackOctave keypoint in
  -128 <= unpacked <= 127
  /\ unpacked mod 256 = octave keypoint mod 256
  /\ layer = (octave keypoint / 256) mod 256
  /\ (0 <= unpacked ->
      (0 < scale)%Q /\ (scale * inject_Z (2 ^ unpacked) == 1)%Q)
  /\ (-128 < unpacked < 0 ->
      (0 < scale)%Q /\ (scale == inject_Z (2 ^ (- unpacked)))%Q).
Proof.
  unfold unpackOctave.
  pose proof (land_255_range (octave keypoint)) as Hb.
  pose proof (land_255_mod (octave keypoint)) as Hm.
  set (b := Z.land (octave keypoint) 255) in *.
  assert (Hlayer : Z.land (Z.shiftr (octave keypoint) 8) 255
                   = (octave keypoint / 256) mod 256).
  { rewrite land_255_mod, Z.shiftr_div_pow2 by lia. reflexivity. }
  destruct (Z.geb_spec b 128) as [Hhi | Hlo].
  - rewrite lor_sign_extend by lia.
    destruct (Z.geb_spec (b - 256) 0) as [? | Hneg]; [lia |].
    split; [lia |]. split.
    { rewrite <- Hm.
      replace (b - 256) with (b + (-1) * 256) by lia.
      rewrite Z.mod_add by lia. apply Z.mod_small. lia. }
    split; [assumption |]. split; [lia |].
    intros Hrange. split; [apply shiftl_1_pos; lia |].
    rewrite Z.shiftl_1_l. reflexivity.
  - destruct (Z.geb_spec b 0) as [Hpos | ?]; [| lia].
    pose proof (shiftl_1_pos b Hpos) as Hp.
    split; [lia |]. split.
    { rewrite <- Hm. apply Z.mod_small. lia. }
    split; [assumption |]. split; [| lia].
    intros _. split.
    { apply Qlt_shift_div_l; [assumption | lra]. }
    rewrite <- Z.shiftl_1_l. field. lra.
Qed.

(** The byte 0x80 unpacks to -128, the one octave whose scale
    [float32(1 << 128)] is not a number. *)
Example unpackOctave_of_0x80 :
  fst (fst (unpackOctave (mkKeyPoint (0, 0)%Q 1%Q 0%Q 1%Q 128 (-1)))) = -128.
Proof. reflexivity. Qed.

(** The octave and layer a keypoint was found in, as
    [localizeExtremumViaQuadraticFit] packs them, come back out of
    [unpackOctave] after the conversion to the input image's frame. *)
Lemma unpack_after_convert_one (k : KeyPoint) (octave_index image_index c : Z) :
  0 <= octave_index <= 128 -> 0 <= image_index <= 255 ->
  octave k = octave_index + image_index * 2 ^ 8 + c * 2 ^ 16 ->
  let '(unpacked, layer, scale) := unpackOctave (convert_one k) in
  unpacked + 1 = octave_index
  /\ layer = image_index
  /\ (scale * inject_Z (2 ^ octave_index) == 2)%Q.
Proof.
  intros Ho Hl Hpacked.
  unfold unpackOctave, convert_one. cbn [octave pt size angle response class_id].
  rewrite octave_low_byte, octave_high_bits.
  assert (Hbyte : Z.land (octave k) 255 = octave_index mod 256).
  { rewrite land_255_mod, Hpacked.
    replace (octave_index + image_index * 2 ^ 8 + c * 2 ^ 16)
      with (octave_index + (image_index + c * 256) * 256) by lia.
    now rewrite Z.mod_add by lia. }
  assert (Hlayer : Z.land (Z.shiftr (octave k) 8) 255 = image_index).
  { rewrite land_255_mod, Z.shiftr_div_pow2 by lia. rewrite Hpacked.
    replace (octave_index + image_index * 2 ^ 8 + c * 2 ^ 16)
      with (octave_index + (image_index + c * 256) * 2 ^ 8) by lia.
    destruct (Z.eq_dec octave_index 256) as [-> | Hne]; [lia |].
    rewrite Z.div_add by lia.
    rewrite (Z.div_small octave_index) by lia.
    rewrite Z.add_0_l, Z.mod_add by lia.
    apply Z.mod_small. lia. }
  rewrite Hbyte, Hlayer. rewrite Zminus_mod_idemp_l.
  destruct (Z.eq_dec octave_index 0) as [-> | Hpos].
  - change ((0 - 1) mod 256) with 255.
    cbn. repeat split; reflexivity.
  - rewrite (Z.mod_small (octave_index - 1)) by lia.
    destruct (Z.geb_spec (octave_index - 1) 128) as [? | Hlt]; [lia |].
    destruct (Z.geb_spec (octave_index - 1) 0) as [Hge | ?]; [| lia].
    repeat split; try lia.
    rewrite Z.shiftl_1_l.
    replace octave_index with ((octave_index - 1) + 1) at 2 by lia.
    rewrite Z.pow_add_r by lia.
    rewrite inject_Z_mult.
    assert (Hp : (0 < inject_Z (2 ^ (octave_index - 1)))%Q).
    { change 0%Q with (inject_Z 0). rewrite <- Zlt_Qlt.
      apply Z.pow_pos_nonneg; lia. }
    change (inject_Z (2 ^ 1)) with 2%Q. field. lra.
Qed.

Variable descriptor_samples :
  KeyPoint -> Q -> array2 -> Z -> Z -> Q -> list sample.

(** X11.  A keypoint found in image [image_index] of octave [octave_index] of
    the pyramid (at most 128 octaves, at most 255 images) and then
    converted to the input image's frame is described from that very
    Gaussian image, [gaussian_images[octave_index][image_index]], at
    the scale [2 / 2 ** octave_index]. *)
Theorem descriptor_reads_image_of_detection
    (h : heap) (keypoints : list ref) (r : ref)
    (octave_index image_index c : Z)
    (gaussian_images : list (list array2))
    (window_width num_bins : Z) (scale_multiplier : Q)
    (descriptor_max_value : R) :
  NoDup keypoints -> In r keypoints ->
  0 <= octave_index <= 128 -> 0 <= image_index <= 255 ->
  octave (h r) = octave_index + image_index * 2 ^ 8 + c * 2 ^ 16 ->
  let converted := fst (convertKeypointsToInputImageSize h keypoints) r in
  let '(unpacked, layer, scale) := unpackOctave converted in
  unpacked + 1 = octave_index
  /\ layer = image_index
  /\ (scale * inject_Z (2 ^ octave_index) == 2)%Q
  /\ describe_keypoint descriptor_samples gaussian_images window_width num_bins
       scale_multiplier descriptor_max_value converted
     = (images_in_octave <- py_get gaussian_images octave_index ;;
        gaussian_image <- py_get images_in_octave image_index ;;
        descriptor_of_samples window_width num_bins descriptor_max_value
          (descriptor_samples converted scale gaussian_image window_width
                              num_bins scale_multiplier))%py.
Proof.
  intros Hnd Hin Ho Hl Hpacked converted.
  assert (Hc : converted = convert_one (h r)).
  { unfold converted, convertKeypointsToInputImageSize.
    now apply convert_loop_once. }
  pose proof (unpack_after_convert_one (h r) octave_index image_index c
                Ho Hl Hpacked) as H.
  rewrite <- Hc in H.
  unfold describe_keypoint.
  destruct (unpackOctave converted) as [[unpacked layer] scale].
  destruct H as (H1 & H2 & H3).
  repeat split; try assumption.
  now rewrite H1, H2.
Qed.

End UnpackFacts.

Lemma descriptor_reads_image_of_detection_witness :
  let converted :=
    fst (Convert.convertKeypointsToInputImageSize sample_heap [0%nat; 1%nat])
        0%nat in
  let '(unpacked, layer, scale) := Descriptor.unpackOctave converted in
  unpacked + 1 = 0
  /\ layer = 1
  /\ (scale * inject_Z (2 ^ 0) == 2)%Q
  /\ Descriptor.describe_keypoint sample_descriptor_samples sample_pyramid
       Descriptor.default_window_width Descriptor.default_num_bins
       Descriptor.default_scale_multiplier
       Descriptor.default_descriptor_max_value converted
     = (images_in_octave <- py_get sample_pyramid 0 ;;
        gaussian_image <- py_get images_in_octave 1 ;;
        Descriptor.descriptor_of_samples Descriptor.default_window_width
          Descriptor.default_num_bins Descriptor.default_descriptor_max_value
          (sample_descriptor_samples converted scale gaussian_image
             Descriptor.default_window_width Descriptor.default_num_bins
             Descriptor.default_scale_multiplier))%py.
Proof.
  apply (descriptor_reads_image_of_detection sample_descriptor_samples
           sample_heap [0%nat; 1%nat] 0%nat 0 1 128).
  - repeat constructor; simpl; intuition lia.
  - simpl; auto.
  - lia.
  - lia.
  - reflexivity.
Defined.


(* ================================================================== *)
(** * The histogram of a descriptor *)
(* ================================================================== *)

Section HistogramFacts.
Import Descriptor.
Local Open Scope R_scope.

Lemma norm_index_lt (n : nat) (k : Z) (k' : nat) :
  norm_index n k = Ok k' -> (k' < n)%nat.
Proof.
  unfold norm_index.
  destruct (Z.leb_spec 0 k); destruct (Z.ltb_spec k (Z.of_nat n)); cbn [andb];
    try (intros [= <-]; lia);
    destruct (Z.leb_spec (- Z.of_nat n) k); destruct (Z.ltb_spec k 0);
    cbn [andb]; try discriminate; intros [= <-]; lia.
Qed.

Lemma sum_update_nth {A : Type} (g : A -> R) (f : A -> A) (d : A) (l : list A) :
  forall k, (k < length l)%nat ->
    sum_list (map g (update_nth l k f))
    = sum_list (map g l) - g (nth k l d) + g (f (nth k l d)).
Proof.
  induction l as [|x l IH]; intros [|k] Hk; simpl in *; try lia.
  - Lra.lra.
  - rewrite IH by lia. Lra.lra.
Qed.

(** [t[i, j, k] += v] adds [v] to the total. *)
Lemma tensor_add_total (t t' : tensor) (i j k : Z) (v : R) :
  tensor_add t i j k v = Ok t' -> tensor_total t' = tensor_total t + v.
Proof.
  unfold tensor_add.
  destruct (norm_index (length t) i) as [i' | e] eqn:Ei; [| discriminate].
  cbn [bind].
  destruct (norm_index (length (nth i' t [])) j) as [j' | e] eqn:Ej;
    [| discriminate].
  cbn [bind].
  destruct (norm_index (length (nth j' (nth i' t []) [])) k) as [k' | e] eqn:Ek;
    [| discriminate].
  cbn [bind]. intros [= <-].
  apply norm_index_lt in Ei, Ej, Ek.
  unfold tensor_total.
  rewrite (sum_update_nth _ _ [] t i' Ei).
  rewrite (sum_update_nth sum_list _ [] (nth i' t []) j' Ej).
  pose proof (sum_update_nth (fun x => x) (fun x => x + v) 0
                (nth j' (nth i' t []) []) k' Ek) as H.
  rewrite !map_id in H. rewrite H. Lra.lra.
Qed.

Lemma tensor_add_nonneg (t t' : tensor) (i j k : Z) (v : R) :
  0 <= v -> tensor_nonneg t ->
  tensor_add t i j k v = Ok t' -> tensor_nonneg t'.
Proof.
  intros Hv Ht. unfold tensor_add.
  destruct (norm_index (length t) i) as [i' | e]; [| discriminate].
  cbn [bind].
  destruct (norm_index (length (nth i' t [])) j) as [j' | e]; [| discriminate].
  cbn [bind].
  destruct (norm_index (length (nth j' (nth i' t []) [])) k) as [k' | e];
    [| discriminate].
  cbn [bind]. intros [= <-].
  unfold tensor_nonneg.
  apply update_nth_Forall; [| assumption].
  intros plane Hp. apply update_nth_Forall; [| assumption].
  intros row Hr. apply update_nth_Forall; [| assumption].
  intros x Hx. Lra.lra.
Qed.

Lemma fraction_range (x : R) : 0 <= x - IZR (Zfloor x) <= 1.
Proof. pose proof (Zfloor_bound x). Lra.lra. Qed.

(** The eight weights of a sample add up to its magnitude, and none of
    them is negative when the magnitude is not. *)
Lemma splat_total (num_bins : Z) (s : sample) (t t' : tensor) :
  splat num_bins s t = Ok t' ->
  tensor_total t' = tensor_total t + magnitude s
  /\ (0 <= magnitude s -> tensor_nonneg t -> tensor_nonneg t').
Proof.
  unfold splat.
  pose proof (fraction_range (row_bin s)) as Hr.
  pose proof (fraction_range (col_bin s)) as Hc.
  pose proof (fraction_range (orientation_bin s)) as Ho.
  set (rf := row_bin s - IZR (Zfloor (row_bin s))) in *.
  set (cf := col_bin s - IZR (Zfloor (col_bin s))) in *.
  set (obf := orientation_bin s - IZR (Zfloor (orientation_bin s))) in *.
  destruct (py_mod (Zfloor (orientation_bin s)) num_bins) as [o | e];
    [| discriminate].
  cbn [bind].
  destruct (py_mod (o + 1) num_bins) as [o' | e]; [| discriminate].
  cbn [bind].
  destruct (tensor_add t _ _ _ _) as [t1 | e] eqn:E1; [| discriminate].
  cbn [bind].
  destruct (tensor_add t1 _ _ _ _) as [t2 | e] eqn:E2; [| discriminate].
  cbn [bind].
  destruct (tensor_add t2 _ _ _ _) as [t3 | e] eqn:E3; [| discriminate].
  cbn [bind].
  destruct (tensor_add t3 _ _ _ _) as [t4 | e] eqn:E4; [| discriminate].
  cbn [bind].
  destruct (tensor_add t4 _ _ _ _) as [t5 | e] eqn:E5; [| discriminate].
  cbn [bind].
  destruct (tensor_add t5 _ _ _ _) as [t6 | e] eqn:E6; [| discriminate].
  cbn [bind].
  destruct (tensor_add t6 _ _ _ _) as [t7 | e] eqn:E7; [| discriminate].
  cbn [bind]. intros E8.
  split.
  - apply tensor_add_total in E1, E2, E3, E4, E5, E6, E7, E8.
    rewrite E8, E7, E6, E5, E4, E3, E2, E1. ring.
  - intros Hm Ht.
    assert (Hw : forall a b c, 0 <= a <= 1 -> 0 <= b <= 1 -> 0 <= c <= 1 ->
                   0 <= magnitude s * a * b * c).
    { intros a b c Ha Hb Hc'.
      repeat apply Rmult_le_pos; Lra.lra. }
    assert (H1 : 0 <= 1 - rf <= 1) by Lra.lra.
    assert (H2 : 0 <= 1 - cf <= 1) by Lra.lra.
    assert (H3 : 0 <= 1 - obf <= 1) by Lra.lra.
    apply (tensor_add_nonneg _ _ _ _ _ _ (Hw _ _ _ H1 H2 H3)) in E1;
      [| assumption].
    apply (tensor_add_nonneg _ _ _ _ _ _ (Hw _ _ _ H1 H2 Ho)) in E2;
      [| assumption].
    apply (tensor_add_nonneg _ _ _ _ _ _ (Hw _ _ _ H1 Hc H3)) in E3;
      [| assumption].
    apply (tensor_add_nonneg _ _ _ _ _ _ (Hw _ _ _ H1 Hc Ho)) in E4;
      [| assumption].
    apply (tensor_add_nonneg _ _ _ _ _ _ (Hw _ _ _ Hr H2 H3)) in E5;
      [| assumption].
    apply (tensor_add_nonneg _ _ _ _ _ _ (Hw _ _ _ Hr H2 Ho)) in E6;
      [| assumption].
    apply (tensor_add_nonneg _ _ _ _ _ _ (Hw _ _ _ Hr Hc H3)) in E7;
      [| assumption].
    apply (tensor_add_nonneg _ _ _ _ _ _ (Hw _ _ _ Hr Hc Ho)) in E8;
      assumption.
Qed.

Lemma sum_repeat_zero {A : Type} (g : A -> R) (x : A) (n : nat) :
  g x = 0 -> sum_list (map g (repeat x n)) = 0.
Proof.
  intros Hx. induction n as [|n IH]; simpl; [reflexivity |].
  rewrite Hx, IH. Lra.lra.
Qed.

Lemma zeros3_total (a b c : Z) (t : tensor) :
  zeros3 a b c = Ok t -> tensor_total t = 0 /\ tensor_nonneg t.
Proof.
  unfold zeros3. destruct (_ || _ || _)%bool; [discriminate |].
  intros [= <-]. split.
  - unfold tensor_total.
    apply sum_repeat_zero, sum_repeat_zero.
    rewrite <- (map_id (repeat 0 (Z.to_nat c))).
    apply (sum_repeat_zero (fun x => x)). reflexivity.
  - unfold tensor_nonneg.
    repeat (apply Forall_forall; intros ? ->%repeat_spec).
    Lra.lra.
Qed.

Lemma splat_loop_total (num_bins : Z) (samples : list sample) :
  forall t t',
    for_each samples t (splat num_bins) = Ok t' ->
    tensor_total t' = tensor_total t + sum_list (map magnitude samples)
    /\ (Forall (fun s => 0 <= magnitude s) samples ->
        tensor_nonneg t -> tensor_nonneg t').
Proof.
  induction samples as [|s samples IH]; intros t t'; cbn [for_each].
  - intros [= <-]. simpl. split; [Lra.lra | auto].
  - destruct (splat num_bins s t) as [t1 | e] eqn:E; [| discriminate].
    cbn [bind]. intros Hrest.
    destruct (splat_total _ _ _ _ E) as [Ht1 Hn1].
    destruct (IH _ _ Hrest) as [Ht' Hn'].
    split.
    + rewrite Ht', Ht1. simpl. Lra.lra.
    + intros Hall Ht. inversion Hall; subst. auto.
Qed.

(** X12.  The trilinear smoothing loses nothing: for a window width of at
    least 0, at least one orientation bin and samples of the grid, the
    histogram is built without an error, the sum of all its cells is
    the sum of the magnitudes of the samples and, when no magnitude is
    negative, no cell is negative, in the histogram and in the vector
    cut out of it. *)
Theorem histogram_total_is_sum_of_magnitudes
    (window_width num_bins : Z) (samples : list sample) :
  (0 <= window_width)%Z -> (1 <= num_bins)%Z ->
  Forall (in_grid window_width) samples ->
  exists empty histogram_tensor,
    zeros3 (window_width + 2) (window_width + 2) num_bins = Ok empty
    /\ for_each samples empty (splat num_bins) = Ok histogram_tensor
    /\ descriptor_vector_of_samples window_width num_bins samples
       = Ok (strip_and_flatten histogram_tensor)
    /\ tensor_total histogram_tensor = sum_list (map magnitude samples)
    /\ (Forall (fun s => 0 <= magnitude s) samples ->
        tensor_nonneg histogram_tensor
        /\ Forall (fun x => 0 <= x) (strip_and_flatten histogram_tensor)).
Proof.
  intros Hw Hn Hgrid.
  destruct (zeros3_shape (window_width + 2) (window_width + 2) num_bins
              ltac:(lia) ltac:(lia) ltac:(lia)) as (t0 & Hz & Hs0).
  destruct (for_each_ok
              (fun t => tensor_shape t (Z.to_nat (window_width + 2))
                                     (Z.to_nat (window_width + 2))
                                     (Z.to_nat num_bins))
              (splat num_bins) samples) with (s := t0)
    as (t & Ht & _); [| assumption |].
  { intros s u Hin Hu. apply (splat_ok window_width); try assumption.
    rewrite Forall_forall in Hgrid. now apply Hgrid. }
  exists t0, t.
  destruct (zeros3_total _ _ _ _ Hz) as [Hz0 Hzn].
  destruct (splat_loop_total _ _ _ _ Ht) as [Htot Hnn].
  split; [assumption |]. split; [assumption |]. split.
  { unfold descriptor_vector_of_samples. rewrite Hz. cbn [bind].
    rewrite Ht. reflexivity. }
  split; [rewrite Htot, Hz0; Lra.lra |].
  intros Hall. specialize (Hnn Hall Hzn). split; [assumption |].
  unfold strip_and_flatten.
  apply Forall_forall. intros x Hx.
  apply in_concat in Hx. destruct Hx as (row & Hrow & Hx).
  apply in_concat in Hrow. destruct Hrow as (plane & Hplane & Hrow).
  apply in_map_iff in Hplane. destruct Hplane as (p & <- & Hp).
  apply py_slice_incl in Hp. apply py_slice_incl in Hrow.
  unfold tensor_nonneg in Hnn.
  rewrite Forall_forall in Hnn. specialize (Hnn p Hp).
  rewrite Forall_forall in Hnn. specialize (Hnn row Hrow).
  rewrite Forall_forall in Hnn. now apply Hnn.
Qed.

Lemma quantize_integers (v : list R) :
  Forall (fun x => exists n : Z, x = IZR n) (quantize v).
Proof.
  unfold quantize. rewrite !Forall_map.
  apply Forall_forall. intros x _.
  destruct (Rlt_dec (IZR (Octaves.np_round_R (512 * x))) 0).
  - destruct (Rlt_dec 255 0); [now exists 255%Z | now exists 0%Z].
  - destruct (Rlt_dec 255 (IZR (Octaves.np_round_R (512 * x))));
      [now exists 255%Z | eexists; reflexivity].
Qed.

Lemma py_get_raises {A : Type} (l : list A) (k : Z) (e : exn) :
  py_get l k = Raise e -> e = IndexError.
Proof.
  unfold py_get, index1.
  destruct (_ && _)%bool.
  - destruct (nth_error l (Z.to_nat k)); [discriminate | now intros [= <-]].
  - destruct (_ && _)%bool; [| now intros [= <-]].
    destruct (nth_error l _); [discriminate | now intros [= <-]].
Qed.

Variable descriptor_samples :
  KeyPoint -> Q -> array2 -> Z -> Z -> Q -> list sample.

Hypothesis samples_in_grid :
  forall keypoint scale gaussian_image,
    Forall (in_grid default_window_width)
           (descriptor_samples keypoint scale gaussian_image
              default_window_width default_num_bins default_scale_multiplier).

(** With the defaults, describing a keypoint fails only in the lookup
    of its Gaussian image. *)
Lemma describe_keypoint_cases (gaussian_images : list (list array2))
    (keypoint : KeyPoint) :
  match image_of_keypoint gaussian_images keypoint with
  | Ok _ =>
      exists d,
        describe_keypoint descriptor_samples gaussian_images
          default_window_width default_num_bins default_scale_multiplier
          default_descriptor_max_value keypoint = Ok d
        /\ length d = 128%nat
        /\ Forall (fun x => 0 <= x <= 255 /\ exists n : Z, x = IZR n) d
  | Raise e =>
      e = IndexError
      /\ describe_keypoint descriptor_samples gaussian_images
           default_window_width default_num_bins default_scale_multiplier
           default_descriptor_max_value keypoint = Raise IndexError
  end.
Proof.
  unfold image_of_keypoint, describe_keypoint.
  destruct (unpackOctave keypoint) as [[unpacked layer] scale].
  destruct (py_get gaussian_images (unpacked + 1)) as [imgs | e] eqn:E1.
  - cbn [bind].
    destruct (py_get imgs layer) as [img | e] eqn:E2.
    + cbn [bind]. unfold descriptor_of_samples.
      destruct (descriptor_vector_of_samples_ok default_window_width
                  default_num_bins _ ltac:(unfold default_window_width; lia)
                  ltac:(unfold default_num_bins; lia)
                  (samples_in_grid keypoint scale img)) as (v & Hv & Hlen).
      rewrite Hv. cbn [bind]. rewrite normalize_ok. cbn [bind].
      eexists. split; [reflexivity |]. split.
      * rewrite quantize_length, length_map, clip_length.
        unfold default_window_width, default_num_bins in Hlen. lia.
      * apply Forall_forall. intros x Hx. split.
        -- pose proof (quantize_bounds
                         (map (fun x => x / py_max2 (norm (clip default_descriptor_max_value v))
                                                     (Q2R float_tolerance))
                              (clip default_descriptor_max_value v))) as Hb.
           rewrite Forall_forall in Hb. now apply Hb.
        -- pose proof (quantize_integers
                         (map (fun x => x / py_max2 (norm (clip default_descriptor_max_value v))
                                                     (Q2R float_tolerance))
                              (clip default_descriptor_max_value v))) as Hi.
           rewrite Forall_forall in Hi. now apply Hi.
    + cbn [bind]. apply py_get_raises in E2. subst e. now split.
  - cbn [bind]. apply py_get_raises in E1. subst e. now split.
Qed.

(** X13.  [generateDescriptors] with its defaults returns exactly when every
    keypoint names a Gaussian image of the pyramid: then there is one
    descriptor per keypoint, in order, each of 128 whole numbers
    between 0 and 255.  If some keypoint names no image, the call
    raises [IndexError] and returns nothing. *)
Theorem generateDescriptors_one_row_per_keypoint
    (h : heap) (keypoints : list ref) (gaussian_images : list (list array2)) :
  (Forall (fun r => exists gaussian_image,
               image_of_keypoint gaussian_images (h r) = Ok gaussian_image)
          keypoints ->
   exists descriptors,
     generateDescriptors descriptor_samples h keypoints gaussian_images
       default_window_width default_num_bins default_scale_multiplier
       default_descriptor_max_value = Ok descriptors
     /\ length descriptors = length keypoints
     /\ Forall (fun d => length d = 128%nat
                         /\ Forall (fun x => 0 <= x <= 255
                                             /\ exists n : Z, x = IZR n) d)
               descriptors)
  /\ (Exists (fun r => exists e,
                  image_of_keypoint gaussian_images (h r) = Raise e)
             keypoints ->
      generateDescriptors descriptor_samples h keypoints gaussian_images
        default_window_width default_num_bins default_scale_multiplier
        default_descriptor_max_value = Raise IndexError).
Proof.
  unfold generateDescriptors. split.
  - induction keypoints as [|r keypoints IH]; intros Hall.
    + exists []. repeat split; constructor.
    + inversion Hall as [|? ? [img Himg] Hrest]; subst.
      pose proof (describe_keypoint_cases gaussian_images (h r)) as Hd.
      rewrite Himg in Hd. destruct Hd as (d & Hd & Hlen & Hb).
      destruct (IH Hrest) as (ds & Hds & Hl & Hall').
      exists (d :: ds). cbn [mapM]. rewrite Hd, Hds. cbn [bind].
      split; [reflexivity |]. split; [simpl; now rewrite Hl |].
      constructor; [now split | assumption].
  - induction keypoints as [|r keypoints IH]; intros Hex.
    + inversion Hex.
    + cbn [mapM].
      pose proof (describe_keypoint_cases gaussian_images (h r)) as Hd.
      destruct (image_of_keypoint gaussian_images (h r)) as [img | e] eqn:Ei.
      * destruct Hd as (d & Hd & _). rewrite Hd. cbn [bind].
        inversion Hex as [? ? [e He] | ? ? Hrest]; subst.
        -- congruence.
        -- rewrite (IH Hrest). reflexivity.
      * destruct Hd as [_ Hd]. now rewrite Hd.
Qed.

End HistogramFacts.

Lemma histogram_total_is_sum_of_magnitudes_witness :
  exists empty histogram_tensor,
    Descriptor.zeros3 (4 + 2) (4 + 2) 8 = Ok empty
    /\ for_each [Descriptor.mkSample (1 / 2) (3 / 2) 1 (7 / 2)] empty
                (Descriptor.splat 8) = Ok histogram_tensor
    /\ Descriptor.descriptor_vector_of_samples 4 8
         [Descriptor.mkSample (1 / 2) (3 / 2) 1 (7 / 2)]
       = Ok (Descriptor.strip_and_flatten histogram_tensor)
    /\ tensor_total histogram_tensor
       = sum_list (map Descriptor.magnitude
                       [Descriptor.mkSample (1 / 2) (3 / 2) 1 (7 / 2)])
    /\ (Forall (fun s => (0 <= Descriptor.magnitude s)%R)
               [Descriptor.mkSample (1 / 2) (3 / 2) 1 (7 / 2)] ->
        tensor_nonneg histogram_tensor
        /\ Forall (fun x => (0 <= x)%R)
                  (Descriptor.strip_and_flatten histogram_tensor)).
Proof.
  apply (histogram_total_is_sum_of_magnitudes 4 8
           [Descriptor.mkSample (1 / 2) (3 / 2) 1 (7 / 2)]).
  - lia.
  - lia.
  - constructor; [| constructor].
    unfold Descriptor.in_grid; cbn.
    split; Lra.lra.
Defined.

Lemma generateDescriptors_one_row_per_keypoint_witness :
  (Forall (fun r => exists gaussian_image,
               image_of_keypoint sample_pyramid (sample_heap r)
               = Ok gaussian_image)
          [0%nat; 0%nat] ->
   exists descriptors,
     Descriptor.generateDescriptors sample_descriptor_samples sample_heap
       [0%nat; 0%nat] sample_pyramid
       Descriptor.default_window_width Descriptor.default_num_bins
       Descriptor.default_scale_multiplier
       Descriptor.default_descriptor_max_value = Ok descriptors
     /\ length descriptors = length [0%nat; 0%nat]
     /\ Forall (fun d => length d = 128%nat
                         /\ Forall (fun x => (0 <= x <= 255)%R
                                             /\ exists n : Z, x = IZR n) d)
               descriptors)
  /\ (Exists (fun r => exists e,
                  image_of_keypoint sample_pyramid (sample_heap r) = Raise e)
             [0%nat; 0%nat] ->
      Descriptor.generateDescriptors sample_descriptor_samples sample_heap
        [0%nat; 0%nat] sample_pyramid
        Descriptor.default_window_width Descriptor.default_num_bins
        Descriptor.default_scale_multiplier
        Descriptor.default_descriptor_max_value = Raise IndexError).
Proof.
  apply (generateDescriptors_one_row_per_keypoint sample_descriptor_samples).
  intros keypoint scale gaussian_image.
  constructor; [| constructor].
  unfold Descriptor.in_grid, Descriptor.default_window_width; cbn.
  split; Lra.lra.
Defined.


(* ================================================================== *)
(** * The pyramid: shapes, differences and flat images *)
(* ================================================================== *)

Section DoGFacts.
Import Pipeline.

Lemma nth_combine_tail {A : Type} (d : A) (l : list A) :
  forall i, (S i < length l)%nat ->
    nth i (combine l (skipn 1 l)) (d, d) = (nth i l d, nth (S i) l d).
Proof.
  destruct l as [|x l]; intros i Hi; [simpl in Hi; lia |].
  cbn [skipn]. revert x i Hi.
  induction l as [|y l IH]; intros x i Hi; [simpl in Hi; lia |].
  destruct i as [|i]; [reflexivity |].
  change (nth (S i) (combine (x :: y :: l) (y :: l)) (d, d))
    with (nth i (combine (y :: l) l) (d, d)).
  rewrite IH by (simpl in *; lia). reflexivity.
Qed.

Lemma length_combine_tail {A : Type} (l : list A) :
  length (combine l (skipn 1 l)) = (length l - 1)%nat.
Proof. rewrite length_combine, length_skipn. lia. Qed.

Lemma px_difference (a b : array2) (rows cols y x : Z) :
  has_shape a rows cols -> has_shape b rows cols ->
  0 <= y < rows -> 0 <= x < cols ->
  px (difference a b) y x = (px a y x - px b y x)%Q.
Proof.
  intros [Ha Hra] [Hb Hrb] Hy Hx. unfold px, difference.
  set (f := fun rows0 : list Q * list Q =>
              map (fun p : Q * Q => (fst p - snd p)%Q)
                  (combine (fst rows0) (snd rows0))).
  change (@nil Q) with (f ([], [])) at 1.
  rewrite map_nth.
  rewrite combine_nth by lia. unfold f. cbn [fst snd].
  set (g := fun p : Q * Q => (fst p - snd p)%Q).
  assert (Hla : Z.of_nat (length (nth (Z.to_nat y) a [])) = cols).
  { rewrite Forall_forall in Hra. apply Hra, nth_In. lia. }
  assert (Hlb : Z.of_nat (length (nth (Z.to_nat y) b [])) = cols).
  { rewrite Forall_forall in Hrb. apply Hrb, nth_In. lia. }
  rewrite (nth_indep _ 0%Q (g (0%Q, 0%Q)))
    by (rewrite length_map, length_combine; lia).
  rewrite map_nth. rewrite combine_nth by lia. reflexivity.
Qed.

(** Two images of different sizes, neither of a single pixel, cannot
    be subtracted. *)
Lemma subtract_mismatch (a b : array2) :
  shape2 a <> shape2 b -> shape2 a <> (1, 1) -> shape2 b <> (1, 1) ->
  subtract a b = Raise CvError.
Proof.
  intros Hab Ha Hb. unfold subtract.
  destruct ((fst (shape2 a) =? fst (shape2 b))
            && (snd (shape2 a) =? snd (shape2 b))) eqn:E.
  - apply andb_true_iff in E. destruct E as [E1 E2].
    apply Z.eqb_eq in E1, E2. exfalso. apply Hab.
    destruct (shape2 a), (shape2 b). cbn [fst snd] in *. congruence.
  - destruct b as [|[|q [|? ?]] [|? ?]]; try reflexivity;
      try (exfalso; apply Hb; reflexivity);
      destruct a as [|[|p [|? ?]] [|? ?]]; try reflexivity;
      exfalso; apply Ha; reflexivity.
Qed.

(** X14.  Given an array of images in which the images of each octave
    have one size, [generateDoGImages] subtracts without an error:
    there are as many octaves as before with one image fewer in each,
    image [i] of an octave has the size of the Gaussian images and
    each of its pixels is that of Gaussian image [i + 1] minus that of
    Gaussian image [i], sign kept; the array returned is
    [array(dog_images, dtype=object)].  Given an array of pixels, or
    two neighbours of different sizes neither of which is empty or a
    single pixel, it raises [cv2.error]. *)
Theorem dog_image_is_difference_of_neighbours
    (octaves : list (list array2)) :
  Forall (fun images_in_octave =>
            exists rows cols,
              1 <= rows /\ 1 <= cols
              /\ Forall (fun img => has_shape img rows cols) images_in_octave)
         octaves ->
  (exists dog_images,
      dog_loop (Images octaves) = Ok dog_images
      /\ generateDoGImages (Images octaves) = np_array_object dog_images
      /\ length dog_images = length octaves
      /\ forall k, (k < length octaves)%nat ->
           length (nth k dog_images [])
           = (length (nth k octaves []) - 1)%nat
           /\ forall i rows cols y x,
                (S i < length (nth k octaves []))%nat ->
                has_shape (nth i (nth k octaves []) []) rows cols ->
                0 <= y < rows -> 0 <= x < cols ->
                has_shape (nth i (nth k dog_images []) []) rows cols
                /\ px (nth i (nth k dog_images []) []) y x
                   = (px (nth (S i) (nth k octaves []) []) y x
                      - px (nth i (nth k octaves []) []) y x)%Q)
  /\ (forall first_image second_image more_images more_octaves,
        generateDoGImages
          (Pixels ((first_image :: second_image :: more_images)
                   :: more_octaves))
        = Raise CvError)
  /\ (forall first_image second_image more_images more_octaves,
        shape2 first_image <> shape2 second_image ->
        shape2 first_image <> (1, 1) -> shape2 second_image <> (1, 1) ->
        1 <= fst (shape2 first_image) -> 1 <= snd (shape2 first_image) ->
        1 <= fst (shape2 second_image) -> 1 <= snd (shape2 second_image) ->
        generateDoGImages
          (Images ((first_image :: second_image :: more_images)
                   :: more_octaves))
        = Raise CvError).
Proof.
  intros Hpos.
  assert (Hall : Forall (fun images_in_octave =>
                           exists rows cols,
                             Forall (fun img => has_shape img rows cols)
                                    images_in_octave)
                        octaves).
  { eapply Forall_impl; [| exact Hpos].
    intros oct (r & c & _ & _ & H). eauto. }
  clear Hpos. split; [| split].
  - set (dog_of := fun images_in_octave : list array2 =>
                     map (fun p => difference (snd p) (fst p))
                         (combine images_in_octave
                                  (skipn 1 images_in_octave))).
    pose proof (dog_loop_images octaves Hall) as Hloop.
    fold dog_of in Hloop.
    exists (map dog_of octaves).
    split; [exact Hloop |].
    split; [unfold generateDoGImages; now rewrite Hloop |].
    split; [apply length_map |].
    intros k Hk.
    assert (Hnth : nth k (map dog_of octaves) [] = dog_of (nth k octaves [])).
    { change (@nil array2) with (dog_of []) at 1. apply map_nth. }
    rewrite Hnth. unfold dog_of.
    split; [now rewrite length_map, length_combine_tail |].
    intros i rows cols y x Hi Hs Hy Hx.
    set (oct := nth k octaves []) in *.
    set (f := fun p : array2 * array2 => difference (snd p) (fst p)).
    assert (E : nth i (map f (combine oct (skipn 1 oct))) []
                = difference (nth (S i) oct []) (nth i oct [])).
    { rewrite (nth_indep _ [] (f ([], [])))
        by (rewrite length_map, length_combine_tail; lia).
      rewrite map_nth, nth_combine_tail by assumption. reflexivity. }
    rewrite E.
    assert (Hs' : has_shape (nth (S i) oct []) rows cols).
    { rewrite Forall_forall in Hall.
      destruct (Hall oct (nth_In _ _ Hk)) as (r & c & Himgs).
      rewrite Forall_forall in Himgs.
      pose proof (Himgs _ (nth_In oct [] (Nat.lt_succ_l _ _ Hi))) as H0.
      pose proof (Himgs _ (nth_In oct [] Hi)) as H1.
      assert (r = rows) by (destruct H0, Hs; lia). subst r.
      assert (c = cols).
      { destruct H0 as [_ H0], Hs as [Hl Hs].
        rewrite Forall_forall in H0, Hs.
        assert (Hrow : In (nth (Z.to_nat y) (nth i oct []) []) (nth i oct []))
          by (apply nth_In; lia).
        rewrite <- (H0 _ Hrow). now apply Hs. }
      now subst c. }
    split.
    + now apply difference_shape.
    + now apply (px_difference _ _ rows cols).
  - intros. reflexivity.
  - intros a b more others Hab Ha Hb _ _ _ _.
    unfold generateDoGImages, dog_loop.
    cbn [elements mapM combine skipn fst snd].
    rewrite (subtract_mismatch b a) by congruence.
    reflexivity.
Qed.

End DoGFacts.

Section PyramidTheorems.
Import Pipeline Octaves Extrema.

Variable interpolate : interpolation -> array2 -> Z -> Z -> array2.
Variable blur : array2 -> Q -> array2.
Variable sqrtQ : Q -> Q.
Variable exp2 : Q -> Q.
Variable lstsq : list (list Q) -> list Q -> result (list Q).
Variable orientation_samples :
  KeyPoint -> Z -> array2 -> Q -> Z -> Q -> list (Z * Q).
Variable descriptor_samples :
  KeyPoint -> Q -> array2 -> Z -> Z -> Q -> list Descriptor.sample.

Hypothesis interpolate_shape :
  forall mode src width height,
    0 < width -> 0 < height ->
    has_shape (interpolate mode src width height) height width.
Hypothesis blur_shape :
  forall src sigma rows cols,
    has_shape src rows cols -> has_shape (blur src sigma) rows cols.
Hypothesis sqrtQ_pos : forall x, (0 < x)%Q -> (0 < sqrtQ x)%Q.
Hypothesis exp2_gt_1 : forall x, (0 < x)%Q -> (1 < exp2 x)%Q.

(** X15.  For an input of at least one pixel, a positive [sigma] and at
    least one interval, the octaves are built without an error: there
    are [computeNumberOfOctaves] of them, each of
    [num_intervals + 3] Gaussian images of the shape of the doubled
    input halved once per octave, rounding down.  Unless the shorter
    side of the input is two pixels, [generateGaussianImages] returns
    them as an array of images and [generateDoGImages] returns
    [num_intervals + 2] DoG images of the same shape in each octave.
    If it is two pixels there is one octave, the array is one of
    pixels and [generateDoGImages] raises [cv2.error]. *)
Theorem pyramid_octave_shapes (image : array2) (rows cols : Z)
    (sigma assumed_blur : Q) (num_intervals : Z) :
  has_shape image rows cols -> 1 <= rows -> 1 <= cols ->
  (0 < sigma)%Q -> 1 <= num_intervals ->
  exists base_image gaussian_kernels octaves,
    generateBaseImage interpolate blur sqrtQ image sigma assumed_blur
    = Ok base_image
    /\ shape2 base_image = base_shape (rows, cols)
    /\ generateGaussianKernels sqrtQ exp2 sigma num_intervals
       = Ok gaussian_kernels
    /\ Z.of_nat (length octaves)
       = computeNumberOfOctaves (base_shape (rows, cols))
    /\ (forall k, (k < length octaves)%nat ->
          let shape := octave_shape (base_shape (rows, cols)) k in
          Z.of_nat (length (nth k octaves [])) = num_intervals + 3
          /\ Forall (fun img => has_shape img (fst shape) (snd shape))
                    (nth k octaves []))
    /\ (Z.min rows cols <> 2 ->
        generateGaussianImages interpolate blur base_image
          (computeNumberOfOctaves (shape2 base_image)) gaussian_kernels
        = Ok (Images octaves)
        /\ exists dog_images,
            generateDoGImages (Images octaves) = Ok (Images dog_images)
            /\ length dog_images = length octaves
            /\ forall k, (k < length octaves)%nat ->
                 let shape := octave_shape (base_shape (rows, cols)) k in
                 Z.of_nat (length (nth k dog_images [])) = num_intervals + 2
                 /\ Forall (fun img => has_shape img (fst shape) (snd shape))
                           (nth k dog_images []))
    /\ (Z.min rows cols = 2 ->
        length octaves = 1%nat
        /\ generateGaussianImages interpolate blur base_image
             (computeNumberOfOctaves (shape2 base_image)) gaussian_kernels
           = Ok (Pixels octaves)
        /\ generateDoGImages (Pixels octaves) = Raise CvError).
Proof.
  intros Hs Hr Hc Hsig Hni.
  destruct (pyramid_exact interpolate blur sqrtQ exp2 interpolate_shape
              blur_shape sqrtQ_pos exp2_gt_1 (fun _ => True)
              (fun _ _ _ => I) (fun _ _ _ _ _ _ _ _ _ _ _ _ => I)
              image rows cols sigma assumed_blur num_intervals
              Hs Hr Hc I Hsig Hni)
    as (base_image & kernels & octaves & H1 & H2 & H3 & H4 & H5 & H6).
  exists base_image, kernels, octaves.
  assert (Hshapes : forall k, (k < length octaves)%nat ->
            length (nth k octaves []) = Z.to_nat (num_intervals + 3)
            /\ Forall (fun img =>
                         has_shape img
                           (fst (octave_shape (2 * rows, 2 * cols) k))
                           (snd (octave_shape (2 * rows, 2 * cols) k)))
                      (nth k octaves [])).
  { intros k Hk. destruct (H6 k Hk) as [Hl Hf]. split; [lia |].
    eapply Forall_impl; [| exact Hf]. now intros img [H _]. }
  repeat (split; [assumption |]).
  split.
  { intros k Hk shape. destruct (Hshapes k Hk) as [Hl Hf].
    split; [lia | exact Hf]. }
  split.
  - intros Hnot2.
    destruct (Z.eqb_spec (Z.min rows cols) 2); [contradiction |].
    split; [exact H4 |].
    destruct (pyramid_dog octaves (2 * rows) (2 * cols)
                (Z.to_nat (num_intervals + 3)) ltac:(lia) ltac:(lia))
      as (dog_images & _ & Hdog & Hdl & Hdall); [| exact Hshapes |].
    { intros Hone. apply Hnot2.
      apply (one_octave_iff rows cols Hr Hc). lia. }
    exists dog_images. split; [exact Hdog |]. split; [exact Hdl |].
    intros k Hk shape. destruct (Hdall k Hk) as (_ & Hl & Hf).
    split; [lia | exact Hf].
  - intros H22.
    rewrite H22 in H4. cbn [Z.eqb Pos.eqb] in H4.
    apply (one_octave_iff rows cols Hr Hc) in H22. rewrite H22 in H5.
    split; [lia |]. split; [exact H4 |].
    destruct octaves as [|oct0 more]; [simpl in H5; lia |].
    destruct (H6 0%nat ltac:(simpl; lia)) as [Hl0 _]. cbn [nth] in Hl0.
    destruct oct0 as [|g0 [|g1 rest]]; try (simpl in Hl0; lia).
    reflexivity.
Qed.

Lemma py_range2_In (lo hi i : Z) : In i (py_range2 lo hi) -> lo <= i < hi.
Proof.
  unfold py_range2. intros H. apply in_map_iff in H.
  destruct H as (k & <- & Hk). apply in_seq in Hk. lia.
Qed.

Lemma px_low_contrast (img : array2) (rows cols i j : Z) (threshold : Q) :
  has_shape img rows cols -> low_contrast img threshold ->
  0 <= i < rows -> 0 <= j < cols ->
  (Qabs (px img i j) <= threshold)%Q.
Proof.
  intros [Hr Hc] Hlow Hi Hj. unfold px, low_contrast in *.
  rewrite Forall_forall in Hlow, Hc.
  assert (Hrow : In (nth (Z.to_nat i) img []) img) by (apply nth_In; lia).
  specialize (Hlow _ Hrow). specialize (Hc _ Hrow).
  rewrite Forall_forall in Hlow. apply Hlow, nth_In. lia.
Qed.

(** No pixel above the threshold, no candidate. *)
Lemma findScaleSpaceExtrema_low_contrast (G : namespace)
    (gaussian_images dog_images : list (list array2))
    (num_intervals : Z) (sigma : Q) (image_border_width : Z)
    (contrast_threshold : Q) :
  num_intervals <> 0 -> 1 <= image_border_width ->
  Forall
    (fun dog_images_in_octave =>
       exists rows cols,
         Forall (fun img =>
                   has_shape img rows cols
                   /\ low_contrast img
                        (inject_Z
                           (Qfloor (0.5 * contrast_threshold
                                    / inject_Z num_intervals * 255))))
                dog_images_in_octave)
    dog_images ->
  findScaleSpaceExtrema exp2 lstsq orientation_samples G gaussian_images
    dog_images num_intervals sigma image_border_width contrast_threshold
  = Ok [].
Proof.
  intros Hn Hb Hall. unfold findScaleSpaceExtrema, extremum_threshold.
  destruct (Z.eqb_spec num_intervals 0); [contradiction |]. cbn [bind].
  rewrite Forall_forall in Hall.
  apply for_each_skip. intros [octave_index dogs] keypoints Hoct.
  cbn [fst snd].
  assert (Hdogs : In dogs dog_images)
    by (unfold enumerate in Hoct; now apply in_combine_r in Hoct).
  destruct (Hall dogs Hdogs) as (rows & cols & Himgs).
  rewrite Forall_forall in Himgs.
  apply for_each_skip. intros [image_index [[first second] third]] kps Htri.
  cbn [fst snd].
  assert (Hpair : In (first, second) (combine dogs (skipn 1 dogs))).
  { unfold enumerate, zip3 in Htri.
    apply in_combine_r, in_combine_l in Htri. exact Htri. }
  destruct (Himgs first (in_combine_l _ _ _ _ Hpair)) as [Hs1 _].
  destruct (Himgs second (skipn_incl _ _ _ (in_combine_r _ _ _ _ Hpair)))
    as [Hs2 Hlow].
  assert (Hfst : fst (shape2 first) = rows) by (destruct Hs1; assumption).
  apply for_each_skip. intros i kps1 Hi. apply py_range2_In in Hi.
  rewrite Hfst in Hi.
  rewrite (shape2_of_has_shape first rows cols Hs1 ltac:(lia)). cbn [snd].
  apply for_each_skip. intros j kps2 Hj. apply py_range2_In in Hj.
  unfold scan_pixel, isPixelAnExtremum.
  rewrite (window3_interior second rows cols i j Hs2) by lia.
  cbn [index2 index1 nth_error bind].
  pose proof (px_low_contrast second rows cols i j _ Hs2 Hlow
                ltac:(lia) ltac:(lia)) as Hpx.
  destruct (Qltb _ (Qabs (px second i j))) eqn:E.
  - apply Qltb_lt in E. lra.
  - reflexivity.
Qed.


Lemma difference_within (a b : array2) (v delta threshold : Q) :
  within a v delta -> within b v delta -> (2 * delta <= threshold)%Q ->
  low_contrast (difference a b) threshold.
Proof.
  intros Ha Hb Ht. unfold low_contrast, difference, within in *.
  rewrite Forall_forall in Ha, Hb.
  apply Forall_forall. intros row Hrow.
  apply in_map_iff in Hrow. destruct Hrow as ([ra rb] & <- & Hin).
  pose proof (Ha ra (in_combine_l _ _ _ _ Hin)) as Hra.
  pose proof (Hb rb (in_combine_r _ _ _ _ Hin)) as Hrb.
  rewrite Forall_forall in Hra, Hrb. cbn [fst snd].
  apply Forall_forall. intros p Hp.
  apply in_map_iff in Hp. destruct Hp as ([x y] & <- & Hxy).
  pose proof (Hra x (in_combine_l _ _ _ _ Hxy)) as Hx.
  pose proof (Hrb y (in_combine_r _ _ _ _ Hxy)) as Hy.
  cbn [fst snd].
  apply Qabs_Qle_condition in Hx, Hy. apply Qabs_Qle_condition.
  split; lra.
Qed.

(** X17.  A flat image yields no keypoint, no descriptor and no error.
    If every pixel of the Gaussian pyramid that the code builds of the
    input is within [delta] of one value and twice [delta] is at most
    the contrast threshold, and the shorter side of the input is not
    two pixels, then no DoG pixel passes the contrast test, the
    localization is never called and
    [computeKeypointsAndDescriptors] returns empty outputs, whatever
    the module's global names are bound to. *)
Theorem flat_pyramid_has_no_keypoints (G : namespace) (image : array2)
    (rows cols : Z) (v delta sigma : Q) (num_intervals : Z)
    (assumed_blur : Q) (image_border_width : Z) :
  has_shape image rows cols -> 1 <= rows -> 1 <= cols ->
  Z.min rows cols <> 2 ->
  (0 < sigma)%Q -> 1 <= num_intervals -> 1 <= image_border_width ->
  (2 * delta
   <= inject_Z (Qfloor (0.5 * default_contrast_threshold
                        / inject_Z num_intervals * 255)))%Q ->
  (forall base_image gaussian_kernels gaussian_images,
      generateBaseImage interpolate blur sqrtQ image sigma assumed_blur
      = Ok base_image ->
      generateGaussianKernels sqrtQ exp2 sigma num_intervals
      = Ok gaussian_kernels ->
      generateGaussianImages interpolate blur base_image
        (computeNumberOfOctaves (shape2 base_image)) gaussian_kernels
      = Ok gaussian_images ->
      Forall (Forall (fun img => within img v delta))
             (elements gaussian_images)) ->
  exists h,
    computeKeypointsAndDescriptors interpolate blur sqrtQ exp2 lstsq
      orientation_samples descriptor_samples G image sigma num_intervals
      assumed_blur image_border_width
    = Ok (h, [], []).
Proof.
  intros Hs Hr Hc Hnot2 Hsig Hni Hb Hdelta Hflat.
  destruct (pyramid_exact interpolate blur sqrtQ exp2 interpolate_shape
              blur_shape sqrtQ_pos exp2_gt_1 (fun _ => True)
              (fun _ _ _ => I) (fun _ _ _ _ _ _ _ _ _ _ _ _ => I)
              image rows cols sigma assumed_blur num_intervals
              Hs Hr Hc I Hsig Hni)
    as (base_image & kernels & octaves & H1 & _ & H3 & H4 & H5 & H6).
  destruct (Z.eqb_spec (Z.min rows cols) 2); [contradiction |].
  pose proof (Hflat base_image kernels (Images octaves) H1 H3 H4) as Hnear.
  cbn [elements] in Hnear.
  assert (Hshapes : forall k, (k < length octaves)%nat ->
            length (nth k octaves []) = Z.to_nat (num_intervals + 3)
            /\ Forall (fun img =>
                         has_shape img
                           (fst (octave_shape (2 * rows, 2 * cols) k))
                           (snd (octave_shape (2 * rows, 2 * cols) k)))
                      (nth k octaves [])).
  { intros k Hk. destruct (H6 k Hk) as [Hl Hf]. split; [lia |].
    eapply Forall_impl; [| exact Hf]. now intros img [H _]. }
  destruct (pyramid_dog octaves (2 * rows) (2 * cols)
              (Z.to_nat (num_intervals + 3)) ltac:(lia) ltac:(lia))
    as (dog_images & _ & Hdog & Hdl & Hdall); [| exact Hshapes |].
  { intros Hone. apply Hnot2.
    apply (one_octave_iff rows cols Hr Hc). lia. }
  unfold computeKeypointsAndDescriptors.
  rewrite H1. cbn [bind]. rewrite H3. cbn [bind]. rewrite H4. cbn [bind].
  rewrite Hdog. cbn [bind elements].
  rewrite findScaleSpaceExtrema_low_contrast.
  - cbn. eexists. reflexivity.
  - lia.
  - assumption.
  - apply Forall_forall. intros dogs Hdogs.
    destruct (In_nth _ _ [] Hdogs) as (k & Hk & <-).
    rewrite Hdl in Hk. destruct (Hdall k Hk) as (Hnth & _ & Himgs).
    eexists _, _. apply Forall_forall. intros img Himg.
    split; [rewrite Forall_forall in Himgs; now apply Himgs |].
    rewrite Hnth in Himg.
    apply in_map_iff in Himg. destruct Himg as ([g1 g2] & <- & Hp).
    cbn [fst snd].
    rewrite Forall_forall in Hnear.
    pose proof (Hnear _ (nth_In octaves [] Hk)) as Hoct.
    rewrite Forall_forall in Hoct.
    apply (difference_within _ _ v delta); [| | assumption].
    + apply Hoct. apply in_combine_r in Hp. now apply skipn_incl in Hp.
    + apply Hoct. now apply in_combine_l in Hp.
Qed.

End PyramidTheorems.

Lemma fill_resize_shape (mode : Pipeline.interpolation) (src : array2)
    (width height : Z) :
  0 < width -> 0 < height ->
  has_shape (fill_resize mode src width height) height width.
Proof.
  intros Hw Hh. unfold fill_resize. split.
  - rewrite repeat_length. lia.
  - apply Forall_forall. intros row Hin. apply repeat_spec in Hin. subst row.
    rewrite repeat_length. lia.
Qed.

Lemma fill_resize_within (mode : Pipeline.interpolation) (src : array2)
    (width height rows cols : Z) (v delta : Q) :
  has_shape src rows cols -> 1 <= rows -> 1 <= cols ->
  0 < width -> 0 < height ->
  within src v delta -> within (fill_resize mode src width height) v delta.
Proof.
  intros [Hr Hc] Hrows Hcols _ _ Hv. unfold fill_resize, within in *.
  assert (Hpx : (Qabs (px src 0 0 - v) <= delta)%Q).
  { unfold px. rewrite Forall_forall in Hv, Hc.
    assert (Hrow : In (nth (Z.to_nat 0) src []) src) by (apply nth_In; lia).
    specialize (Hv _ Hrow). specialize (Hc _ Hrow).
    rewrite Forall_forall in Hv. apply Hv, nth_In. lia. }
  apply Forall_forall. intros row ->%repeat_spec.
  apply Forall_forall. intros p ->%repeat_spec. exact Hpx.
Qed.

Lemma dog_image_is_difference_of_neighbours_witness :
  (exists dog_images,
      Pipeline.dog_loop (Pipeline.Images sample_pyramid) = Ok dog_images
      /\ Pipeline.generateDoGImages (Pipeline.Images sample_pyramid)
         = Pipeline.np_array_object dog_images
      /\ length dog_images = length sample_pyramid
      /\ forall k, (k < length sample_pyramid)%nat ->
           length (nth k dog_images [])
           = (length (nth k sample_pyramid []) - 1)%nat
           /\ forall i rows cols y x,
                (S i < length (nth k sample_pyramid []))%nat ->
                has_shape (nth i (nth k sample_pyramid []) []) rows cols ->
                0 <= y < rows -> 0 <= x < cols ->
                has_shape (nth i (nth k dog_images []) []) rows cols
                /\ px (nth i (nth k dog_images []) []) y x
                   = (px (nth (S i) (nth k sample_pyramid []) []) y x
                      - px (nth i (nth k sample_pyramid []) []) y x)%Q)
  /\ (forall first_image second_image more_images more_octaves,
        Pipeline.generateDoGImages
          (Pipeline.Pixels ((first_image :: second_image :: more_images)
                            :: more_octaves))
        = Raise CvError)
  /\ (forall first_image second_image more_images more_octaves,
        shape2 first_image <> shape2 second_image ->
        shape2 first_image <> (1, 1) -> shape2 second_image <> (1, 1) ->
        1 <= fst (shape2 first_image) -> 1 <= snd (shape2 first_image) ->
        1 <= fst (shape2 second_image) -> 1 <= snd (shape2 second_image) ->
        Pipeline.generateDoGImages
          (Pipeline.Images ((first_image :: second_image :: more_images)
                            :: more_octaves))
        = Raise CvError).
Proof.
  apply (dog_image_is_difference_of_neighbours sample_pyramid).
  repeat constructor; exists 3, 3;
    (split; [lia | split; [lia |]]); repeat constructor.
Defined.

Lemma pyramid_octave_shapes_witness :
  exists base_image gaussian_kernels octaves,
    Pipeline.generateBaseImage black_resize no_blur crude_sqrt sample_flat
      Pipeline.default_sigma Pipeline.default_assumed_blur
    = Ok base_image
    /\ shape2 base_image = Octaves.base_shape (3, 3)
    /\ Pipeline.generateGaussianKernels crude_sqrt crude_exp2
         Pipeline.default_sigma Pipeline.default_num_intervals
       = Ok gaussian_kernels
    /\ Z.of_nat (length octaves)
       = Octaves.computeNumberOfOctaves (Octaves.base_shape (3, 3))
    /\ (forall k, (k < length octaves)%nat ->
          let shape := Octaves.octave_shape (Octaves.base_shape (3, 3)) k in
          Z.of_nat (length (nth k octaves []))
          = Pipeline.default_num_intervals + 3
          /\ Forall (fun img => has_shape img (fst shape) (snd shape))
                    (nth k octaves []))
    /\ (Z.min 3 3 <> 2 ->
        Pipeline.generateGaussianImages black_resize no_blur base_image
          (Octaves.computeNumberOfOctaves (shape2 base_image))
          gaussian_kernels
        = Ok (Pipeline.Images octaves)
        /\ exists dog_images,
            Pipeline.generateDoGImages (Pipeline.Images octaves)
            = Ok (Pipeline.Images dog_images)
            /\ length dog_images = length octaves
            /\ forall k, (k < length octaves)%nat ->
                 let shape :=
                   Octaves.octave_shape (Octaves.base_shape (3, 3)) k in
                 Z.of_nat (length (nth k dog_images []))
                 = Pipeline.default_num_intervals + 2
                 /\ Forall (fun img => has_shape img (fst shape) (snd shape))
                           (nth k dog_images []))
    /\ (Z.min 3 3 = 2 ->
        length octaves = 1%nat
        /\ Pipeline.generateGaussianImages black_resize no_blur base_image
             (Octaves.computeNumberOfOctaves (shape2 base_image))
             gaussian_kernels
           = Ok (Pipeline.Pixels octaves)
        /\ Pipeline.generateDoGImages (Pipeline.Pixels octaves)
           = Raise CvError).
Proof.
  apply (pyramid_octave_shapes black_resize no_blur crude_sqrt crude_exp2).
  - apply black_resize_shape.
  - intros src sigma rows cols H. exact H.
  - intros x H. exact H.
  - intros x H. unfold crude_exp2. lra.
  - split; [reflexivity | repeat constructor].
  - lia.
  - lia.
  - reflexivity.
  - unfold Pipeline.default_num_intervals. lia.
Defined.


Lemma flat_pyramid_has_no_keypoints_witness :
  exists h,
    Pipeline.computeKeypointsAndDescriptors fill_resize no_blur crude_sqrt
      crude_exp2 no_lstsq no_orientation_samples sample_descriptor_samples
      pysift_globals sample_uniform Pipeline.default_sigma
      Pipeline.default_num_intervals Pipeline.default_assumed_blur
      Pipeline.default_image_border_width
    = Ok (h, [], []).
Proof.
  apply (flat_pyramid_has_no_keypoints fill_resize no_blur crude_sqrt
           crude_exp2 no_lstsq no_orientation_samples
           sample_descriptor_samples)
    with (rows := 8) (cols := 8) (v := 7%Q) (delta := 0%Q).
  - apply fill_resize_shape.
  - intros src sigma rows cols H. exact H.
  - intros x H. exact H.
  - intros x H. unfold crude_exp2. lra.
  - split; [reflexivity | repeat constructor].
  - lia.
  - lia.
  - lia.
  - reflexivity.
  - unfold Pipeline.default_num_intervals. lia.
  - unfold Pipeline.default_image_border_width. lia.
  - vm_compute. discriminate.
  - intros base_image gaussian_kernels gaussian_images.
    apply (pyramid_keeps fill_resize no_blur crude_sqrt crude_exp2
             fill_resize_shape (fun src sigma rows cols H => H)
             (fun x H => H)
             (fun x H => ltac:(unfold crude_exp2; lra))
             (fun img => within img 7 0)
             (fun src sigma H => H)
             (fun mode src w h0 r c H1 H2 H3 H4 H5 H6 =>
                fill_resize_within mode src w h0 r c 7 0 H1 H2 H3 H4 H5 H6)
             sample_uniform 8 8).
    + split; [reflexivity | repeat constructor].
    + lia.
    + lia.
    + repeat constructor; vm_compute; discriminate.
    + reflexivity.
    + unfold Pipeline.default_num_intervals. lia.
Defined.


(* ================================================================== *)
(** * The gradient, repeated conversion and flat windows *)
(* ================================================================== *)

Section GradientFacts.
Import Derivatives.

(** X18.  The central differences are exact on quadratics:
    [computeGradientAtCenterPixel] returns the gradient at the centre
    of any quadratic function sampled on the cube, in the order
    column, row, scale, whatever its value and its second derivatives
    are. *)
Theorem gradient_exact_on_quadratics
    (c0 gx gy gs hxx hyy hss hxy hxs hys : Q) :
  exists gradient,
    computeGradientAtCenterPixel
      (cube_of (quadratic c0 gx gy gs hxx hyy hss hxy hxs hys))
    = Ok gradient
    /\ Forall2 Qeq gradient [gx; gy; gs].
Proof.
  eexists. split; [reflexivity |].
  unfold quadratic.
  repeat constructor; cbn [Z.of_nat Pos.of_succ_nat Pos.succ];
    change (inject_Z 0) with 0%Q; change (inject_Z 1) with 1%Q;
    change (inject_Z 2) with 2%Q; ring.
Qed.

End GradientFacts.

Section RepeatedConversion.
Import Convert.

Lemma iter_convert_shift (n : nat) (k : KeyPoint) :
  Nat.iter n convert_one (convert_one k) = Nat.iter (S n) convert_one k.
Proof.
  symmetry. apply Nat.iter_succ_r.
Qed.

Lemma convert_loop_count (keypoints : list ref) :
  forall h acc r,
    fst (convert_loop h keypoints acc) r
    = Nat.iter (count_occ Nat.eq_dec keypoints r) convert_one (h r).
Proof.
  induction keypoints as [|r0 rest IH]; intros h acc r; [reflexivity |].
  cbn [convert_loop count_occ]. rewrite IH. unfold heap_set.
  destruct (Nat.eq_dec r0 r) as [-> | Hne].
  - rewrite Nat.eqb_refl. apply iter_convert_shift.
  - destruct (Nat.eqb_spec r r0); [congruence | reflexivity].
Qed.

Lemma iter_convert_fields (n : nat) (k : KeyPoint) :
  (fst (pt (Nat.iter n convert_one k))
   == fst (pt k) / inject_Z (2 ^ Z.of_nat n))%Q
  /\ (snd (pt (Nat.iter n convert_one k))
      == snd (pt k) / inject_Z (2 ^ Z.of_nat n))%Q
  /\ (size (Nat.iter n convert_one k)
      == size k / inject_Z (2 ^ Z.of_nat n))%Q
  /\ Z.land (octave (Nat.iter n convert_one k)) 255
     = (Z.land (octave k) 255 - Z.of_nat n) mod 256
  /\ angle (Nat.iter n convert_one k) = angle k
  /\ response (Nat.iter n convert_one k) = response k.
Proof.
  induction n as [|n IH].
  - change (Nat.iter 0 convert_one k) with k.
    change (inject_Z (2 ^ Z.of_nat 0)) with 1%Q.
    change (Z.of_nat 0) with 0.
    split; [field |]. split; [field |]. split; [field |].
    split; [| now split].
    rewrite Z.sub_0_r. symmetry. apply Z.mod_small.
    pose proof (land_255_range (octave k)). lia.
  - destruct IH as (H1 & H2 & H3 & H4 & H5 & H6).
    change (Nat.iter (S n) convert_one k)
      with (convert_one (Nat.iter n convert_one k)).
    set (k' := Nat.iter n convert_one k) in *.
    assert (Hp : (0 < inject_Z (2 ^ Z.of_nat n))%Q).
    { change 0%Q with (inject_Z 0). rewrite <- Zlt_Qlt.
      apply Z.pow_pos_nonneg; lia. }
    assert (E : (inject_Z (2 ^ Z.of_nat (S n))
                 == 2 * inject_Z (2 ^ Z.of_nat n))%Q).
    { rewrite Nat2Z.inj_succ, Z.pow_succ_r by lia.
      now rewrite inject_Z_mult. }
    unfold convert_one at 1 2 3 4 5 6.
    cbn [pt size angle response octave fst snd].
    rewrite E, H1, H2, H3.
    split; [field; lra |]. split; [field; lra |]. split; [field; lra |].
    split; [| now split].
    rewrite octave_low_byte, H4, Zminus_mod_idemp_l.
    f_equal. lia.
Qed.

(** X19.  The conversion works on the objects themselves: a keypoint object
    that the list names [n] times is converted [n] times, so its
    coordinates and size are divided by [2 ** n] and the low byte of
    its octave goes down by [n] modulo 256; an object named once is
    halved once and one not named is left alone. *)
Theorem convert_once_per_occurrence
    (h : heap) (keypoints : list ref) (r : ref) :
  let h' := fst (convertKeypointsToInputImageSize h keypoints) in
  let n := count_occ Nat.eq_dec keypoints r in
  h' r = Nat.iter n convert_one (h r)
  /\ (fst (pt (h' r)) == fst (pt (h r)) / inject_Z (2 ^ Z.of_nat n))%Q
  /\ (snd (pt (h' r)) == snd (pt (h r)) / inject_Z (2 ^ Z.of_nat n))%Q
  /\ (size (h' r) == size (h r) / inject_Z (2 ^ Z.of_nat n))%Q
  /\ Z.land (octave (h' r)) 255
     = (Z.land (octave (h r)) 255 - Z.of_nat n) mod 256
  /\ angle (h' r) = angle (h r)
  /\ response (h' r) = response (h r).
Proof.
  intros h' n. subst h' n. unfold convertKeypointsToInputImageSize.
  rewrite convert_loop_count.
  split; [reflexivity | apply iter_convert_fields].
Qed.

End RepeatedConversion.

Section FlatWindow.
Import Orientation.

Lemma add_at_zero (l : list Q) :
  forall k v, Forall (fun x => (x == 0)%Q) l -> (v == 0)%Q ->
    Forall (fun x => (x == 0)%Q) (add_at l k v).
Proof.
  induction l as [|x l IH]; intros k v Hl Hv; [constructor |].
  inversion Hl; subst.
  destruct k as [|k]; cbn [add_at]; constructor; auto.
  lra.
Qed.

Lemma nth_zero (l : list Q) (k : nat) :
  Forall (fun x => (x == 0)%Q) l -> (nth k l 0 == 0)%Q.
Proof.
  intros Hl. destruct (Nat.lt_ge_cases k (length l)) as [Hlt | Hge].
  - rewrite Forall_forall in Hl. now apply Hl, nth_In.
  - rewrite nth_overflow by assumption. reflexivity.
Qed.

Lemma mapM_post {A B : Type} (f : A -> result B) (post : B -> Prop)
    (l : list A) :
  (forall x, In x l -> exists y, f x = Ok y /\ post y) ->
  exists ys, mapM f l = Ok ys /\ length ys = length l /\ Forall post ys.
Proof.
  induction l as [|x l IH]; intros Hf; cbn [mapM].
  - exists []. repeat split. constructor.
  - destruct (Hf x (or_introl eq_refl)) as (y & Hy & Hp).
    destruct IH as (ys & Hys & Hlen & Hall); [intros; apply Hf; now right |].
    rewrite Hy, Hys. cbn [bind]. exists (y :: ys).
    split; [reflexivity |]. split; [simpl; now rewrite Hlen |].
    now constructor.
Qed.

Lemma accumulate_zero (num_bins : Z) (samples : list (Z * Q)) :
  1 <= num_bins ->
  Forall (fun s => (snd s == 0)%Q) samples ->
  exists raw_histogram,
    accumulate num_bins samples = Ok raw_histogram
    /\ Z.of_nat (length raw_histogram) = num_bins
    /\ Forall (fun x => (x == 0)%Q) raw_histogram.
Proof.
  intros Hn Hs. unfold accumulate, zeros.
  destruct (Z.ltb_spec num_bins 0); [lia |]. cbn [bind].
  apply (for_each_ok (fun h => Z.of_nat (length h) = num_bins
                               /\ Forall (fun x => (x == 0)%Q) h)).
  - intros sample h Hin [Hh Hz]. unfold py_mod.
    destruct (Z.eqb_spec num_bins 0); [lia |]. cbn [bind].
    eexists. split; [reflexivity |]. split.
    + now rewrite add_at_length.
    + apply add_at_zero; [assumption |].
      rewrite Forall_forall in Hs. now apply Hs.
  - split; [rewrite repeat_length; lia |].
    apply Forall_forall. intros x ->%repeat_spec. reflexivity.
Qed.

Lemma smooth_zero (raw_histogram : list Q) (num_bins : Z) :
  2 <= num_bins ->
  Z.of_nat (length raw_histogram) = num_bins ->
  Forall (fun x => (x == 0)%Q) raw_histogram ->
  exists smooth_histogram,
    smooth raw_histogram num_bins = Ok smooth_histogram
    /\ Z.of_nat (length smooth_histogram) = num_bins
    /\ Forall (fun x => (x == 0)%Q) smooth_histogram.
Proof.
  intros Hn Hlen Hz. unfold smooth.
  destruct (mapM_post (smooth_bin raw_histogram num_bins)
                      (fun x => (x == 0)%Q) (py_range num_bins))
    as (ys & Hys & Hl & Hall).
  - intros n Hin. apply py_range_In in Hin.
    unfold smooth_bin, py_mod.
    destruct (Z.eqb_spec num_bins 0); [lia |].
    pose proof (Z.mod_pos_bound (n + 1) num_bins ltac:(lia)).
    pose proof (Z.mod_pos_bound (n + 2) num_bins ltac:(lia)).
    repeat (cbn [bind]; rewrite ?(py_get_ok raw_histogram _ 0%Q) by lia).
    eexists. split; [reflexivity |].
    rewrite !(nth_zero raw_histogram) by assumption. reflexivity.
  - exists ys. split; [assumption |]. split; [| assumption].
    rewrite Hl, py_range_length. lia.
Qed.

Variable orientation_samples :
  KeyPoint -> Z -> array2 -> Q -> Z -> Q -> list (Z * Q).

(** X20.  A keypoint in a flat window gets no orientation and is dropped:
    when the window holds no sample, or only samples of weight zero,
    [computeKeypointsWithOrientations] returns the empty list. *)
Theorem flat_window_gives_no_orientation
    (keypoint : KeyPoint) (octave_index : Z) (gaussian_image : array2)
    (radius_factor : Q) (num_bins : Z) (peak_ratio scale_factor : Q) :
  2 <= num_bins ->
  Forall (fun s => (snd s == 0)%Q)
         (orientation_samples keypoint octave_index gaussian_image
            radius_factor num_bins scale_factor) ->
  computeKeypointsWithOrientations orientation_samples keypoint octave_index
    gaussian_image radius_factor num_bins peak_ratio scale_factor
  = Ok [].
Proof.
  intros Hn Hs. unfold computeKeypointsWithOrientations, orientations_of_samples.
  destruct (accumulate_zero num_bins _ ltac:(lia) Hs) as (raw & Hraw & Hrl & Hrz).
  rewrite Hraw. cbn [bind].
  destruct (smooth_zero raw num_bins Hn Hrl Hrz) as (sm & Hsm & Hsl & Hsz).
  rewrite Hsm. cbn [bind].
  destruct sm as [|x sm]; [simpl in Hsl; lia |].
  cbn [py_max bind].
  destruct (orientation_peaks (x :: sm)) as [|p peaks] eqn:E; [reflexivity |].
  exfalso.
  destruct (orientation_peaks_spec (x :: sm) p) as (_ & Hlt & _).
  { rewrite E. now left. }
  rewrite !(nth_zero (x :: sm)) in Hlt by assumption.
  lra.
Qed.

End FlatWindow.

Lemma flat_window_gives_no_orientation_witness :
  Orientation.computeKeypointsWithOrientations
    (fun _ _ _ _ _ _ => [(3, 0%Q); (10, 0%Q)]) (sample_heap 0%nat) 0 sample_flat
    Orientation.default_radius_factor Orientation.default_num_bins
    Orientation.default_peak_ratio Orientation.default_scale_factor
  = Ok [].
Proof.
  apply (flat_window_gives_no_orientation
           (fun _ _ _ _ _ _ => [(3, 0%Q); (10, 0%Q)])).
  - unfold Orientation.default_num_bins. lia.
  - repeat constructor.
Defined.
